(** * NorthScrape: field normalizer, lookup clients, discovery and enrichment

    A shallow embedding of [NorthScrape.py].

    Strings are lists of 8-bit characters.  The character functions below
    follow Python on the code points 0..127, the ASCII characters; the
    code points 128..255 stand for symbols that are neither letters,
    digits nor white space, which is not what Python makes of them all:
    [str.lower], [str.title], [str.strip] and [\s] know letters and white
    space above 127.  The model is that of the program on ASCII text, and
    [ascii_text] says of a string that it is such a text.  *)

From Stdlib Require Import Ascii String.
From Stdlib Require Import List Arith Bool Lia ZArith.
From Stdlib Require DecimalFacts DecimalZ.
From Stdlib Require Import Sorting.Sorted Sorting.Permutation.
Import ListNotations.

Local Open Scope list_scope.
Local Open Scope bool_scope.

(** ** Python strings *)

Module PyStr.

Definition str := list ascii.

(** A string literal. *)
Definition lit (s : string) : str := list_ascii_of_string s.

Definition code (c : ascii) : nat := nat_of_ascii c.

Definition is_digit (c : ascii) : bool := (48 <=? code c) && (code c <=? 57).
Definition is_upper (c : ascii) : bool := (65 <=? code c) && (code c <=? 90).
Definition is_lower (c : ascii) : bool := (97 <=? code c) && (code c <=? 122).
Definition is_alpha (c : ascii) : bool := is_upper c || is_lower c.

(** [str.isspace] on one character: TAB..CR, FS..US and the blank. *)
Definition is_space (c : ascii) : bool :=
  ((9 <=? code c) && (code c <=? 13)) || ((28 <=? code c) && (code c <=? 32)).

Definition lower_c (c : ascii) : ascii :=
  if is_upper c then ascii_of_nat (code c + 32) else c.
Definition upper_c (c : ascii) : ascii :=
  if is_lower c then ascii_of_nat (code c - 32) else c.

Definition eqc (a b : ascii) : bool := Ascii.eqb a b.

Fixpoint eqs (a b : str) : bool :=
  match a, b with
  | [], [] => true
  | x :: a', y :: b' => eqc x y && eqs a' b'
  | _, _ => false
  end.

(** [s.lower()], [s.upper()] *)
Definition lower (s : str) : str := map lower_c s.
Definition upper (s : str) : str := map upper_c s.

(** [s.title()]: a cased character that follows a cased character is
    lowered, any other one is raised. *)
Fixpoint title_from (prev_cased : bool) (s : str) : str :=
  match s with
  | [] => []
  | c :: s' =>
      (if prev_cased then lower_c c else upper_c c) :: title_from (is_alpha c) s'
  end.
Definition title (s : str) : str := title_from false s.

(** [s.strip()] *)
Fixpoint lstrip (s : str) : str :=
  match s with
  | [] => []
  | c :: s' => if is_space c then lstrip s' else s
  end.
Definition rstrip (s : str) : str := rev (lstrip (rev s)).
Definition strip (s : str) : str := rstrip (lstrip s).

(** [s.split(sep)] for a one-character separator: never the empty list. *)
Fixpoint split (sep : ascii) (s : str) : list str :=
  match s with
  | [] => [[]]
  | c :: s' =>
      if eqc c sep then [] :: split sep s'
      else match split sep s' with
           | [] => [[c]]
           | h :: t => (c :: h) :: t
           end
  end.

(** [sep.join(l)] *)
Fixpoint join (sep : str) (l : list str) : str :=
  match l with
  | [] => []
  | [x] => x
  | x :: l' => x ++ sep ++ join sep l'
  end.

(** [s.startswith(p)] *)
Fixpoint startswith (p s : str) : bool :=
  match p, s with
  | [], _ => true
  | _ :: _, [] => false
  | x :: p', y :: s' => eqc x y && startswith p' s'
  end.

(** [p in s] on strings *)
Fixpoint contains (p s : str) : bool :=
  startswith p s || match s with [] => false | _ :: s' => contains p s' end.

(** [x in l] on a list (or a set) of strings *)
Definition mem (x : str) (l : list str) : bool := existsb (eqs x) l.

(** [s.replace(a, b)] for one-character [a] and [b] *)
Definition replace_c (a b : ascii) (s : str) : str :=
  map (fun c => if eqc c a then b else c) s.

(** [s[:n]], [s[n:]], [s[a:b]] *)
Definition upto (n : nat) (s : str) : str := firstn n s.
Definition from (n : nat) (s : str) : str := skipn n s.
Definition slice (a b : nat) (s : str) : str := firstn (b - a) (skipn a s).

(** The text has ASCII characters only. *)
Definition ascii_text (s : str) : bool := forallb (fun c => code c <? 128) s.

(** Code-point order on strings, as Python's [<] and [<=]. *)
Fixpoint leb (a b : str) : bool :=
  match a, b with
  | [], _ => true
  | _ :: _, [] => false
  | x :: a', y :: b' =>
      if code x <? code y then true
      else if code y <? code x then false
      else leb a' b'
  end.

End PyStr.
Import PyStr.

(** ** The [re] patterns the program uses

    A pattern is matched by backtracking in the order Python tries the
    alternatives: the left branch of [|] first, the longest repetition
    first.  Repetition is only ever applied to a character class. *)

Module Re.

Inductive regex : Type :=
| Chr (c : ascii)              (* a literal character *)
| Lit (l : str)                (* a literal word *)
| Cls (p : ascii -> bool)      (* a class: [A-Za-z], \d, \s, [^,] ... *)
| Seq (r1 r2 : regex)
| Alt (r1 r2 : regex)          (* r1|r2 *)
| Opt (r : regex)              (* r? *)
| Star (p : ascii -> bool)     (* class* *)
| Plus (p : ascii -> bool)     (* class+ *)
| Grp (n : nat) (r : regex)    (* the n-th capturing group *)
| Eos.                         (* $ *)

Definition captures := list (nat * str).

Fixpoint group (n : nat) (m : captures) : str :=
  match m with
  | [] => []
  | (k, s) :: m' => if Nat.eqb k n then s else group n m'
  end.

(** Equality of a subject character with a pattern character. *)
Definition same (ic : bool) (pc c : ascii) : bool :=
  if ic then eqc (lower_c pc) (lower_c c) else eqc pc c.

Fixpoint lit_match (ic : bool) (l s : str) : option str :=
  match l, s with
  | [], _ => Some s
  | _ :: _, [] => None
  | x :: l', y :: s' => if same ic x y then lit_match ic l' s' else None
  end.

(** [$] holds at the end and before a final newline. *)
Definition at_end (s : str) : bool :=
  match s with
  | [] => true
  | [c] => code c =? 10
  | _ => false
  end.

Section Match.
Context {R : Type}.
Variable ic : bool.            (* re.IGNORECASE *)

(** class*: the longest run first, then shorter ones. *)
Fixpoint star (p : ascii -> bool) (s : str) (k : str -> option R) : option R :=
  match s with
  | [] => k []
  | c :: s' =>
      if p c then
        match star p s' k with
        | Some x => Some x
        | None => k s
        end
      else k s
  end.

Fixpoint run (r : regex) (s : str) (m : captures)
         (k : str -> captures -> option R) : option R :=
  match r with
  | Chr c0 =>
      match s with
      | c :: s' => if same ic c0 c then k s' m else None
      | [] => None
      end
  | Lit l =>
      match lit_match ic l s with
      | Some s' => k s' m
      | None => None
      end
  | Cls p =>
      match s with
      | c :: s' => if p c then k s' m else None
      | [] => None
      end
  | Seq r1 r2 => run r1 s m (fun s1 m1 => run r2 s1 m1 k)
  | Alt r1 r2 =>
      match run r1 s m k with
      | Some x => Some x
      | None => run r2 s m k
      end
  | Opt r1 =>
      match run r1 s m k with
      | Some x => Some x
      | None => k s m
      end
  | Star p => star p s (fun s' => k s' m)
  | Plus p =>
      match s with
      | c :: s' => if p c then star p s' (fun s'' => k s'' m) else None
      | [] => None
      end
  | Grp n r1 =>
      run r1 s m
          (fun s1 m1 => k s1 ((n, firstn (length s - length s1) s) :: m1))
  | Eos => if at_end s then k s m else None
  end.
End Match.

(** One match: the captured groups (group 0 is the whole match) and the
    text after the match. *)
Record found := { groups : captures; rest : str }.

(** [re.match(r, s)]: a match that starts at the first character. *)
Definition match_at (ic : bool) (r : regex) (s : str) : option found :=
  run ic r s []
      (fun s' m =>
         Some {| groups := (0, firstn (length s - length s') s) :: m;
                 rest := s' |}).

(** [re.search(r, s)]: the leftmost match. *)
Fixpoint search (ic : bool) (r : regex) (s : str) : option found :=
  match match_at ic r s with
  | Some f => Some f
  | None =>
      match s with
      | [] => None
      | _ :: s' => search ic r s'
      end
  end.

(** [re.sub(r, repl, s)]: every match, left to right without overlap, is
    replaced.  [skip] counts the characters of [s] that still belong to
    the match replaced last. *)
Fixpoint sub_from (ic : bool) (r : regex) (repl : captures -> str)
         (skip : nat) (s : str) : str :=
  match s with
  | [] => []
  | c :: s' =>
      match skip with
      | S n => sub_from ic r repl n s'
      | O =>
          match match_at ic r s with
          | None => c :: sub_from ic r repl 0 s'
          | Some f =>
              match length s - length (rest f) with
              | O => repl (groups f) ++ c :: sub_from ic r repl 0 s'
              | S n => repl (groups f) ++ sub_from ic r repl n s'
              end
          end
      end
  end.
Definition sub (ic : bool) (r : regex) (repl : captures -> str) (s : str) : str :=
  sub_from ic r repl 0 s.

(** [re.findall(r, s)]: the groups of every match, left to right. *)
Fixpoint findall_from (ic : bool) (r : regex) (skip : nat) (s : str)
  : list captures :=
  match s with
  | [] => []
  | _ :: s' =>
      match skip with
      | S n => findall_from ic r n s'
      | O =>
          match match_at ic r s with
          | None => findall_from ic r 0 s'
          | Some f => groups f :: findall_from ic r (length s - length (rest f) - 1) s'
          end
      end
  end.
Definition findall (ic : bool) (r : regex) (s : str) : list captures :=
  findall_from ic r 0 s.

End Re.
Import Re.

(** ** Configuration *)

(** [POSTAL_MAP]: forward sortation area to city or region. *)
Definition POSTAL_MAP : list (str * str) :=
  map (fun kv => (lit (fst kv), lit (snd kv)))
  [ ("P0A", "Parry Sound"); ("P0B", "Muskoka"); ("P0C", "Mactier");
    ("P0E", "Manitoulin"); ("P0G", "Parry Sound"); ("P0H", "Nipissing");
    ("P0J", "Timiskaming"); ("P0K", "Cochrane"); ("P0L", "Hearst");
    ("P0M", "Sudbury"); ("P0N", "Cochrane"); ("P0P", "Manitoulin");
    ("P0R", "Algoma"); ("P0S", "Algoma"); ("P0T", "Nipigon");
    ("P0V", "Red Lake"); ("P0W", "Rainy River"); ("P1A", "North Bay");
    ("P1B", "North Bay"); ("P1C", "North Bay"); ("P1H", "Huntsville");
    ("P2A", "Parry Sound"); ("P2B", "Sturgeon Falls"); ("P2N", "Kirkland Lake");
    ("P3A", "Sudbury"); ("P3B", "Sudbury"); ("P3C", "Sudbury");
    ("P3E", "Sudbury"); ("P3G", "Sudbury"); ("P3L", "Garson");
    ("P3N", "Val Caron"); ("P3P", "Hanmer"); ("P3Y", "Lively");
    ("P4N", "Timmins"); ("P4P", "Timmins"); ("P4R", "Timmins");
    ("P5A", "Elliot Lake"); ("P5E", "Espanola"); ("P5N", "Kapuskasing");
    ("P6A", "Sault Ste. Marie"); ("P6B", "Sault Ste. Marie");
    ("P6C", "Sault Ste. Marie"); ("P7A", "Thunder Bay"); ("P7B", "Thunder Bay");
    ("P7C", "Thunder Bay"); ("P7E", "Thunder Bay"); ("P8N", "Dryden");
    ("P8T", "Sioux Lookout"); ("P9A", "Fort Frances"); ("P9N", "Kenora");
    ("K0M", "Central Ontario") ]%string.

(** [d.get(key, default)] on a dict with string keys and no repeated key. *)
Fixpoint dict_get (d : list (str * str)) (key default : str) : str :=
  match d with
  | [] => default
  | (k, v) :: d' => if eqs k key then v else dict_get d' key default
  end.

(** ** DataCleaner *)

Module DataCleaner.

(** [\D] *)
Definition non_digit : regex := Cls (fun c => negb (is_digit c)).

(** [clean_phone(phone_str)] *)
Definition clean_phone (phone_str : str) : str :=
  if match phone_str with [] => true | _ => false end
     || mem (lower phone_str) [lit "n/a"; lit ""]
  then lit "N/A"
  else
    let digits := Re.sub false non_digit (fun _ => []) phone_str in
    if length digits =? 10 then
      lit "(" ++ upto 3 digits ++ lit ") " ++ slice 3 6 digits ++ lit "-" ++ from 6 digits
    else if (length digits =? 11) && startswith (lit "1") digits then
      lit "(" ++ slice 1 4 digits ++ lit ") " ++ slice 4 7 digits ++ lit "-" ++ from 7 digits
    else lit "N/A".

(** [[A-Za-z]\d[A-Za-z]] and [\d[A-Za-z]\d] *)
Definition ldl : regex := Seq (Cls is_alpha) (Seq (Cls is_digit) (Cls is_alpha)).
Definition dld : regex := Seq (Cls is_digit) (Seq (Cls is_alpha) (Cls is_digit)).

(** [(ON|On|Ontario)] *)
Definition province : regex :=
  Grp 1 (Alt (Lit (lit "ON")) (Alt (Lit (lit "On")) (Lit (lit "Ontario")))).

(** [(ON|On|Ontario)([A-Za-z]\d[A-Za-z])], re.IGNORECASE *)
Definition re_glued : regex := Seq province (Grp 2 ldl).

(** [^(on|ontario)$], re.IGNORECASE, used with [re.match] *)
Definition re_on : regex :=
  Seq (Grp 1 (Alt (Lit (lit "on")) (Lit (lit "ontario")))) Eos.

(** [\s+District$], re.IGNORECASE *)
Definition re_district : regex :=
  Seq (Plus is_space) (Seq (Lit (lit "District")) Eos).

(** [([A-Za-z]\d[A-Za-z])\s?(\d[A-Za-z]\d)] *)
Definition re_postal : regex :=
  Seq (Grp 1 ldl) (Seq (Opt (Cls is_space)) (Grp 2 dld)).

(** [,\s*(ON|On|Ontario)], re.IGNORECASE *)
Definition re_comma_province : regex :=
  Seq (Chr ","%char) (Seq (Star is_space) province).

(** [,\s*(ON|On|Ontario)\s*{re.escape(fsa)}], re.IGNORECASE; [fsa] is made
    of letters and digits, which [re.escape] leaves alone. *)
Definition re_province_fsa (fsa : str) : regex :=
  Seq re_comma_province (Seq (Star is_space) (Lit fsa)).

Definition is_some {A} (o : option A) : bool :=
  match o with Some _ => true | None => false end.

(** [re.sub(r"\s+District$", "", s, flags=re.IGNORECASE)] *)
Definition district_free (s : str) : str := Re.sub true re_district (fun _ => []) s.

(** The body of the loop over [parts]; the state is
    [(unique_parts, seen_lower)]. *)
Definition dedup_step (st : list str * list str) (p : str) : list str * list str :=
  let '(unique_parts, seen_lower) := st in
  match p with
  | [] => st
  | _ =>
      let p := if is_some (match_at true re_on p) then lit "ON" else p in
      let p_clean := district_free p in
      let p_lower := lower p_clean in
      if negb (mem p_lower seen_lower) then
        (unique_parts ++ [if negb (eqs p_clean (lit "ON")) then title p_clean else lit "ON"],
         p_lower :: seen_lower)
      else st
  end.

(** [unique_parts] when the loop is left. *)
Definition unique_parts_of (address : str) : list str :=
  let addr := Re.sub true re_glued
                (fun m => group 1 m ++ lit " " ++ group 2 m) address in
  let parts := map strip (split ","%char addr) in
  fst (fold_left dedup_step parts ([], [])).

(** [addr] after the postal code spacing has been standardized. *)
Definition spaced_of (address : str) : str :=
  let addr := join (lit ", ") (unique_parts_of address) in
  Re.sub false re_postal
    (fun m => upper (group 1 m) ++ lit " " ++ upper (group 2 m)) addr.

(** The test [is_present] for an inferred city. *)
Definition is_present (inferred_city : str) (unique_parts : list str) : bool :=
  let inferred_core := district_free inferred_city in
  existsb (fun part => contains (lower inferred_core) (lower part)) unique_parts.

(** [postal_match.group(1).upper()] when [postal_match] is there. *)
Definition fsa_of (addr : str) : option str :=
  match search false re_postal addr with
  | Some postal_match => Some (upper (group 1 (groups postal_match)))
  | None => None
  end.

(** [fix_address(address)] for a string [address]. *)
Definition fix_address (address : str) : str :=
  if match address with [] => true | _ => false end || eqs address (lit "N/A")
  then lit "N/A"
  else
    let unique_parts := unique_parts_of address in
    let addr := spaced_of address in
    match fsa_of addr with
    | Some fsa =>
        if is_some (search true (re_province_fsa fsa) addr) then
          let inferred_city := dict_get POSTAL_MAP fsa (lit "Northern Ontario") in
          if negb (is_present inferred_city unique_parts) then
            Re.sub true re_comma_province
              (fun _ => lit ", " ++ inferred_city ++ lit ", ON") addr
          else addr
        else addr
    | None => addr
    end.

(** [fix_address(v)] for a value that is [None] or a string: [not None]
    holds, so [None] gives the sentinel. *)
Definition fix_address_value (v : option str) : str :=
  match v with
  | None => lit "N/A"
  | Some address => fix_address address
  end.

End DataCleaner.
Import DataCleaner.

(** ** The network and the HTML parser

    [requests] and [BeautifulSoup] are outside the program.  A call either
    raises an [Exception] or returns; a returned page is given by what the
    program reads from it.  The pauses ([time.sleep]) and the request
    headers have no part in any result. *)

Inductive outcome (A : Type) : Type :=
| Raises
| Returns (a : A).
Arguments Raises {A}.
Arguments Returns {A} a.

(** One [div.listing__content__wrapper]: the text of the tags the program
    looks for, [None] for a missing tag.  [website_li] is the [href] of the
    [a] in [li.mlr__item--website], with a level for each of the three
    things that can be missing. *)
Record listing : Type := {
  phone_h4 : option str;          (* h4.impl_phone_number *)
  phone_li : option str;          (* li.mlr__item--phone *)
  website_li : option (option (option str));
  name_link : option str;         (* a.listing__name--link *)
  address_full : option str       (* span.listing__address--full *)
}.

Record page : Type := {
  listings : list listing;        (* soup.find_all("div", ...) *)
  text : str;                     (* soup.get_text() *)
  result_links : list (option str) (* link.get("href") of every a.result__a *)
}.

Record response : Type := {
  status_code : nat;
  soup : outcome page             (* BeautifulSoup(res.text, "html.parser") *)
}.

Inductive request : Type :=
| Get (url : str)
| Post (url : str) (q : str).

(** [{"phone": ..., "website": ...}] *)
Record contact : Type := { phone : str; website : str }.

(** [{"Name": ..., "Address": ...}] *)
Record candidate : Type := { cand_name : str; cand_address : str }.

(** A computation that talks to the network: its value, and the requests it
    sent, in order. *)
Definition Sent (A : Type) : Type := (A * list request)%type.

Definition ret {A : Type} (a : A) : Sent A := (a, []).

Definition bind {A B : Type} (m : Sent A) (f : A -> Sent B) : Sent B :=
  (fst (f (fst m)), snd m ++ snd (f (fst m))).

Notation "x <- m ;; k" := (bind m (fun x => k))
  (at level 61, m at next level, right associativity).

(** ** ScraperEngine *)

Module ScraperEngine.

(** [([^,]+),\s*(ON|Ontario)], re.IGNORECASE *)
Definition re_locality : regex :=
  Seq (Grp 1 (Plus (fun c => negb (eqc c ","%char))))
      (Seq (Chr ","%char)
           (Seq (Star is_space)
                (Grp 2 (Alt (Lit (lit "ON")) (Lit (lit "Ontario")))))).

(** [(?:\+?1[-. ]?)?\(?([2-9][0-9]{2})\)?[-. ]?([2-9][0-9]{2})[-. ]?([0-9]{4})] *)
Definition is_sep (c : ascii) : bool :=
  eqc c "-"%char || eqc c "."%char || eqc c " "%char.
Definition is_2_9 (c : ascii) : bool := (50 <=? code c) && (code c <=? 57).
Definition re_phone : regex :=
  Seq (Opt (Seq (Opt (Chr "+"%char)) (Seq (Chr "1"%char) (Opt (Cls is_sep)))))
 (Seq (Opt (Chr "("%char))
 (Seq (Grp 1 (Seq (Cls is_2_9) (Seq (Cls is_digit) (Cls is_digit))))
 (Seq (Opt (Chr ")"%char))
 (Seq (Opt (Cls is_sep))
 (Seq (Grp 2 (Seq (Cls is_2_9) (Seq (Cls is_digit) (Cls is_digit))))
 (Seq (Opt (Cls is_sep))
      (Grp 3 (Seq (Cls is_digit) (Seq (Cls is_digit)
                  (Seq (Cls is_digit) (Cls is_digit))))))))))).

Definition yp_url (what where_ : str) : str :=
  lit "https://www.yellowpages.ca/search/si/1/"
      ++ replace_c " "%char "+"%char what ++ lit "/"
      ++ replace_c " "%char "+"%char where_.

Definition ddg_url : str := lit "https://html.duckduckgo.com/html/".

(** The locality [search_yp] and [search_ddg] read off the address. *)
Definition locality (address default : str) : str :=
  match search true re_locality address with
  | Some m => strip (group 1 (groups m))
  | None => default
  end.

(** The one request each lookup sends. *)
Definition yp_request (name address : str) : request :=
  Get (yp_url name (locality address (lit "ON"))).
Definition ddg_request (name address : str) : request :=
  Post ddg_url (name ++ lit " " ++ locality address [] ++ lit " phone").
Definition gen_request (keyword location : str) : request :=
  Get (yp_url keyword location).

Section Net.

(** [requests.get] and [requests.post] *)
Variable send : request -> outcome response.

Definition requests_send (rq : request) : Sent (outcome response) :=
  (send rq, [rq]).

(** [parse_qs(urlparse(website).query).get("redirect")]: raises, or gives
    the first value of the parameter when the list is there and not empty. *)
Variable redirect_of : str -> outcome (option str).

(** The website of a listing, inside the [try] of [search_yp]. *)
Definition yp_website (l : listing) : outcome str :=
  match website_li l with
  | Some (Some (Some (c :: href'))) =>
      let website := lit "https://www.yellowpages.ca" ++ c :: href' in
      if contains (lit "redirect=") website then
        match redirect_of website with
        | Raises => Raises
        | Returns (Some target) => Returns target
        | Returns None => Returns website
        end
      else Returns website
  | _ => Returns (lit "N/A")
  end.

(** [search_yp(name, address)]; [None] is Python's [None]. *)
Definition search_yp (name address : str) : Sent (option contact) :=
  o <- requests_send (yp_request name address) ;;
  ret (match o with
       | Raises => None
       | Returns res =>
           if negb (status_code res =? 200) then None
           else
             match soup res with
             | Raises => None
             | Returns pg =>
                 match listings pg with
                 | [] => None
                 | l :: _ =>
                     let phone_tag := match phone_h4 l with
                                      | Some t => Some t
                                      | None => phone_li l
                                      end in
                     let phone := match phone_tag with
                                  | Some t => t
                                  | None => lit "N/A"
                                  end in
                     match yp_website l with
                     | Raises => None
                     | Returns website =>
                         Some {| phone := clean_phone phone; website := website |}
                     end
                 end
             end
       end).

(** The test on a result link of [search_ddg]. *)
Definition usable_link (link : option str) : bool :=
  match link with
  | Some (c :: h) =>
      let href := c :: h in
      negb (contains (lit "duckduckgo") href)
      && negb (existsb (fun x => contains x href)
                       [lit "yelp"; lit "yellowpages"; lit "411.ca"])
  | _ => false
  end.

(** [search_ddg(name, address)] *)
Definition search_ddg (name address : str) : Sent contact :=
  o <- requests_send (ddg_request name address) ;;
  ret (match o with
       | Raises => {| phone := lit "N/A"; website := lit "N/A" |}
       | Returns res =>
           match soup res with
           | Raises => {| phone := lit "N/A"; website := lit "N/A" |}
           | Returns pg =>
               let phones := findall false re_phone (text pg) in
               let phone := match phones with
                            | m :: _ =>
                                lit "(" ++ group 1 m ++ lit ") " ++ group 2 m
                                    ++ lit "-" ++ group 3 m
                            | [] => lit "N/A"
                            end in
               let website := match find usable_link (result_links pg) with
                              | Some (Some href) => href
                              | _ => lit "N/A"
                              end in
               {| phone := phone; website := website |}
           end
       end).

(** [resp.raise_for_status()] raises on the codes 400..599. *)
Definition raise_for_status (res : response) : bool :=
  (400 <=? status_code res) && (status_code res <? 600).

(** [generate_yp(keyword, location)] *)
Definition generate_yp (keyword location : str) : Sent (list candidate) :=
  o <- requests_send (gen_request keyword location) ;;
  ret (match o with
       | Raises => []
       | Returns resp =>
           if raise_for_status resp then []
           else
             match soup resp with
             | Raises => []
             | Returns pg =>
                 flat_map
                   (fun l => match name_link l, address_full l with
                             | Some name, Some address =>
                                 [{| cand_name := name; cand_address := address |}]
                             | _, _ => []
                             end)
                   (listings pg)
             end
       end).

End Net.
End ScraperEngine.
Import ScraperEngine.

(** ** App *)

Module App.

(** A cell of a row of [csv_data]: the key is missing, or bound to [None]
    (as [csv.DictReader] does for a row shorter than the header), or bound
    to a string. *)
Inductive cell : Type :=
| Absent
| NoneValue
| Text (s : str).

Record row : Type := { Name : cell; Address : cell; Phone : cell; Website : cell }.

Inductive exn : Type := KeyError | TypeError | AttributeError.

Inductive source : Type := Keep | YP | DDG.

(** The tuple [_process] returns; [None] is Python's [None]. *)
Record enriched : Type := {
  idx : nat;
  e_name : option str;
  e_address : str;
  e_phone : str;
  e_website : option str;
  e_source : source
}.

(** What goes on the queue.  The text of a status is kept as the values
    its f-string prints, and a progress [(a / b) * 100] as [a] and [b]. *)
Inductive event : Type :=
| Scanning (current_task total_tasks : nat) (cat loc : str)
| Enriching (processed total : nat)
| Progress (a b : nat)
| AddGen (name clean_addr : str)
| DoneGen (total_found : nat)
| Update (res : enriched)
| DoneEnrich.

(** *** [_process] *)

Section Process.

Variable send : request -> outcome response.
Variable redirect_of : str -> outcome (option str).

(** [row.get(k, default)] *)
Definition get_or (c : cell) (default : str) : option str :=
  match c with
  | Absent => Some default
  | NoneValue => None
  | Text a => Some a
  end.

Definition tuple_of (i : nat) (name addr : str) (d : contact) (src : source)
  : enriched :=
  {| idx := i; e_name := Some name; e_address := addr; e_phone := phone d;
     e_website := Some (website d); e_source := src |}.

(** The branch that keeps the phone [p] of the row. *)
Definition keep_branch (r : row) (i : nat) (p : str) : Sent (exn + enriched) :=
  let clean_addr := fix_address_value (get_or (Address r) (lit "")) in
  match Name r with
  | Absent => ret (inl KeyError)
  | n =>
      ret (inr {| idx := i;
                  e_name := match n with Text s => Some s | _ => None end;
                  e_address := clean_addr;
                  e_phone := p;
                  e_website := get_or (Website r) (lit "N/A");
                  e_source := Keep |})
  end.

(** The branch that asks YellowPages, then DuckDuckGo. *)
Definition lookup_branch (r : row) (i : nat) : Sent (exn + enriched) :=
  match Name r, Address r with
  | Absent, _ => ret (inl KeyError)
  | _, Absent => ret (inl KeyError)
  | NoneValue, _ => ret (inl AttributeError)
  | Text name, a =>
      (* [row["Address"]]: the key is there, the default is never used *)
      let addr := fix_address_value (get_or a (lit "")) in
      let fallback :=
        d <- search_ddg send name addr ;;
        ret (inr (tuple_of i name addr d DDG)) in
      d <- search_yp send redirect_of name addr ;;
      match d with
      | Some d1 =>
          if eqs (phone d1) (lit "N/A") then fallback
          else ret (inr (tuple_of i name addr d1 YP))
      | None => fallback
      end
  end.

(** [_process(row, idx)]: the tuple or the exception, and the requests sent
    on the way.  The test is
    [row.get("Phone") not in ["N/A", ""] and len(row.get("Phone", "")) > 5]:
    a missing key passes the first half and fails the second, [None] passes
    the first half and has no [len]. *)
Definition _process (r : row) (i : nat) : Sent (exn + enriched) :=
  match Phone r with
  | Absent => lookup_branch r i
  | NoneValue => ret (inl TypeError)
  | Text p =>
      if negb (mem p [lit "N/A"; lit ""]) && (5 <? length p)
      then keep_branch r i p
      else lookup_branch r i
  end.

End Process.

(** *** [_enrich_thread] *)

Section Enrich.

(** The network as the task of each index meets it. *)
Variable net : nat -> request -> outcome response.
Variable redirect_of : str -> outcome (option str).

(** [self.is_running] at the k-th time the thread reads it. *)
Variable is_running : nat -> bool.

(** What [f.result()] gives for the future of each row, in the order of
    submission. *)
Fixpoint futures_from (i : nat) (csv_data : list row) : list (exn + enriched) :=
  match csv_data with
  | [] => []
  | r :: rest => fst (_process (net i) redirect_of r i) :: futures_from (S i) rest
  end.
Definition futures (csv_data : list row) : list (exn + enriched) :=
  futures_from 0 csv_data.

Record enrich_state : Type := {
  processed : nat;
  en_queue : list event;
  en_reads : nat
}.

(** The loop over [as_completed(futs)]; [completed] lists the results in
    the order the futures complete. *)
Fixpoint enrich_loop (total : nat) (completed : list (exn + enriched))
         (st : enrich_state) : enrich_state :=
  match completed with
  | [] => st
  | f :: rest =>
      if negb (is_running (en_reads st)) then
        {| processed := processed st; en_queue := en_queue st;
           en_reads := S (en_reads st) |}
      else
        match f with
        | inl _ =>
            enrich_loop total rest
              {| processed := processed st; en_queue := en_queue st;
                 en_reads := S (en_reads st) |}
        | inr res =>
            let processed' := S (processed st) in
            let batch :=
              if (processed' mod 5 =? 0) || (processed' =? total)
              then [Enriching processed' total; Progress processed' total]
              else [] in
            enrich_loop total rest
              {| processed := processed';
                 en_queue := en_queue st ++ batch ++ [Update res];
                 en_reads := S (en_reads st) |}
        end
  end.

(** [_enrich_thread()]: the events put on the queue. *)
Definition _enrich_thread (csv_data : list row)
           (completed : list (exn + enriched)) : list event :=
  let total := length csv_data in
  let st := enrich_loop total completed
              {| processed := 0; en_queue := []; en_reads := 0 |} in
  en_queue st ++ [DoneEnrich].

End Enrich.

(** *** [_mass_gen_thread] *)

Record gen_state : Type := {
  total_found : nat;
  current_task : nat;
  seen_gen : list str;
  queue : list event;
  reads : nat;                                 (* reads of is_running so far *)
  calls : list (str * str * list candidate)    (* generate_yp calls and results *)
}.

(** The composite key of a discovered lead. *)
Definition gen_key (name clean_addr : str) : str :=
  lower name ++ lit "|" ++ lower (upto 10 clean_addr).

(** The body of [for r in res]. *)
Definition add_candidate (st : gen_state) (r : candidate) : gen_state :=
  let clean_addr := fix_address (cand_address r) in
  let key := gen_key (cand_name r) clean_addr in
  if negb (mem key (seen_gen st)) then
    {| total_found := S (total_found st);
       current_task := current_task st;
       seen_gen := key :: seen_gen st;
       queue := queue st ++ [AddGen (cand_name r) clean_addr];
       reads := reads st;
       calls := calls st |}
  else st.

Section MassGen.

(** The network at the n-th combination. *)
Variable net : nat -> request -> outcome response.
Variable is_running : nat -> bool.
Variable total_tasks : nat.

(** [for loc in locations], left by [break] when the flag is down. *)
Fixpoint scan_locations (cat : str) (locations : list str) (st : gen_state)
  : gen_state :=
  match locations with
  | [] => st
  | loc :: locations' =>
      if negb (is_running (reads st)) then
        {| total_found := total_found st; current_task := current_task st;
           seen_gen := seen_gen st; queue := queue st;
           reads := S (reads st); calls := calls st |}
      else
        let task := S (current_task st) in
        let res := fst (generate_yp (net task) cat loc) in
        let st1 :=
          {| total_found := total_found st;
             current_task := task;
             seen_gen := seen_gen st;
             queue := queue st ++ [Scanning task total_tasks cat loc;
                                   Progress task total_tasks];
             reads := S (reads st);
             calls := calls st ++ [(cat, loc, res)] |} in
        scan_locations cat locations' (fold_left add_candidate res st1)
  end.

End MassGen.

(** [_mass_gen_thread(categories, locations)]: the state when the loops are
    left and [done_gen] has been put on the queue. *)
Definition _mass_gen_thread (net : nat -> request -> outcome response)
           (is_running : nat -> bool) (categories locations : list str)
  : gen_state :=
  let total_tasks := length categories * length locations in
  let st := fold_left
              (fun st cat => scan_locations net is_running total_tasks cat locations st)
              categories
              {| total_found := 0; current_task := 0; seen_gen := [];
                 queue := []; reads := 0; calls := [] |} in
  {| total_found := total_found st; current_task := current_task st;
     seen_gen := seen_gen st;
     queue := queue st ++ [DoneGen (total_found st)];
     reads := reads st; calls := calls st |}.

(** *** [export] *)

(** The values of a row of the tree, as the table holds them. *)
Record tree_row : Type := { v0 : str; v1 : str; v2 : str; v3 : str; v4 : str }.

(** A row of the CSV file. *)
Record csv_row : Type := {
  out_Name : str; out_Address : str; out_Phone : str; out_Website : str
}.

(** [d[k] = v] on a dict: a bound key keeps its place. *)
Fixpoint dict_set {V : Type} (d : list (str * V)) (k : str) (v : V)
  : list (str * V) :=
  match d with
  | [] => [(k, v)]
  | (k', v') :: d' =>
      if eqs k' k then (k', v) :: d' else (k', v') :: dict_set d' k v
  end.

(** [int(s)] on a string, in base ten: white space around (TAB..CR and the
    blank), a sign, digits with single underscores between them.  [None]
    stands for ValueError, which more than 4300 digits raise too. *)
Definition is_c_space (c : ascii) : bool :=
  ((9 <=? code c) && (code c <=? 13)) || (code c =? 32).

Fixpoint lstrip_c (s : str) : str :=
  match s with
  | [] => []
  | c :: s' => if is_c_space c then lstrip_c s' else s
  end.

(** The digits of a literal; [prev_digit] tells whether a digit comes just
    before. *)
Fixpoint int_digits (prev_digit : bool) (s : str) : option str :=
  match s with
  | [] => if prev_digit then Some [] else None
  | c :: s' =>
      if is_digit c then option_map (cons c) (int_digits true s')
      else if eqc c "_"%char && prev_digit then int_digits false s'
      else None
  end.

Definition digit (c : ascii) (u : Decimal.uint) : Decimal.uint :=
  match code c - 48 with
  | 0 => Decimal.D0 u | 1 => Decimal.D1 u | 2 => Decimal.D2 u
  | 3 => Decimal.D3 u | 4 => Decimal.D4 u | 5 => Decimal.D5 u
  | 6 => Decimal.D6 u | 7 => Decimal.D7 u | 8 => Decimal.D8 u
  | _ => Decimal.D9 u
  end.

Fixpoint uint_of_digits (s : str) : Decimal.uint :=
  match s with
  | [] => Decimal.Nil
  | c :: s' => digit c (uint_of_digits s')
  end.

Definition max_str_digits : nat := 4300.

Definition int_of_str (s : str) : option Z :=
  let t := rev (lstrip_c (rev (lstrip_c s))) in
  let signed :=
    match t with
    | c :: body =>
        if eqc c "-"%char then (true, body)
        else if eqc c "+"%char then (false, body)
        else (false, t)
    | [] => (false, t)
    end in
  match int_digits false (snd signed) with
  | Some ds =>
      if length ds <=? max_str_digits then
        let u := uint_of_digits ds in
        Some (Z.of_int (if fst signed then Decimal.Neg u else Decimal.Pos u))
      else None
  | None => None
  end.

(** [str(z)] *)
Fixpoint chars_of_uint (u : Decimal.uint) : str :=
  match u with
  | Decimal.Nil => []
  | Decimal.D0 u' => "0"%char :: chars_of_uint u'
  | Decimal.D1 u' => "1"%char :: chars_of_uint u'
  | Decimal.D2 u' => "2"%char :: chars_of_uint u'
  | Decimal.D3 u' => "3"%char :: chars_of_uint u'
  | Decimal.D4 u' => "4"%char :: chars_of_uint u'
  | Decimal.D5 u' => "5"%char :: chars_of_uint u'
  | Decimal.D6 u' => "6"%char :: chars_of_uint u'
  | Decimal.D7 u' => "7"%char :: chars_of_uint u'
  | Decimal.D8 u' => "8"%char :: chars_of_uint u'
  | Decimal.D9 u' => "9"%char :: chars_of_uint u'
  end.

Definition str_of_int (z : Z) : str :=
  match Z.to_int z with
  | Decimal.Pos u => chars_of_uint u
  | Decimal.Neg u => "-"%char :: chars_of_uint u
  end.

(** A value read back from the table.  [item(child)["values"]] passes
    every value of the row through [ttk._convert_stringval], which gives
    [int(s)] when that does not raise, and the string otherwise. *)
Inductive tk_value : Type :=
| TkStr (s : str)
| TkInt (z : Z).

Definition _convert_stringval (value : str) : tk_value :=
  match int_of_str value with
  | Some z => TkInt z
  | None => TkStr value
  end.

(** [str(v)], which is also what an f-string and the CSV writer make of
    [v]. *)
Definition str_of (v : tk_value) : str :=
  match v with
  | TkStr s => s
  | TkInt z => str_of_int z
  end.

(** The dict [export] makes of a row:
    [{"Name": v[0], "Address": v[1], "Phone": v[2], "Website": v[3]}]. *)
Record out_dict : Type := {
  d_Name : tk_value; d_Address : tk_value; d_Phone : tk_value;
  d_Website : tk_value
}.

(** [v = self.tree_en.item(child)["values"]], as that dict. *)
Definition item (child : tree_row) : out_dict :=
  {| d_Name := _convert_stringval (v0 child);
     d_Address := _convert_stringval (v1 child);
     d_Phone := _convert_stringval (v2 child);
     d_Website := _convert_stringval (v3 child) |}.

(** [f"PH:{v[2]}" if v[2] != "N/A" else f"AD:{v[1][:15]}"]: an [int] is
    not "N/A", and has no slice. *)
Definition export_key (v : out_dict) : exn + str :=
  match d_Phone v with
  | TkInt z => inr (lit "PH:" ++ str_of_int z)
  | TkStr p =>
      if negb (eqs p (lit "N/A")) then inr (lit "PH:" ++ p)
      else
        match d_Address v with
        | TkStr a => inr (lit "AD:" ++ upto 15 a)
        | TkInt _ => inl TypeError
        end
  end.

(** [for child in self.tree_en.get_children()] *)
Fixpoint export_loop (children : list tree_row) (unique : list (str * out_dict))
  : exn + list (str * out_dict) :=
  match children with
  | [] => inr unique
  | child :: rest =>
      let v := item child in
      match export_key v with
      | inl e => inl e
      | inr key => export_loop rest (dict_set unique key v)
      end
  end.

(** [sorted(l, key=lambda x: x["Name"])]: stable; the names are compared
    as strings or as integers, and a name of each kind is TypeError. *)
Definition is_str (v : tk_value) : bool :=
  match v with
  | TkStr _ => true
  | TkInt _ => false
  end.

Definition name_leb (a b : out_dict) : bool :=
  match d_Name a, d_Name b with
  | TkStr x, TkStr y => leb x y
  | TkInt x, TkInt y => (x <=? y)%Z
  | _, _ => false
  end.

Fixpoint insert_by_name (x : out_dict) (l : list out_dict) : list out_dict :=
  match l with
  | [] => [x]
  | y :: l' =>
      if name_leb x y then x :: y :: l'
      else y :: insert_by_name x l'
  end.

Definition sorted_by_name (l : list out_dict) : exn + list out_dict :=
  if forallb (fun x => is_str (d_Name x)) l
     || forallb (fun x => negb (is_str (d_Name x))) l
  then inr (fold_right insert_by_name [] l)
  else inl TypeError.

(** The row [csv.DictWriter] writes for a dict. *)
Definition row_of (x : out_dict) : csv_row :=
  {| out_Name := str_of (d_Name x); out_Address := str_of (d_Address x);
     out_Phone := str_of (d_Phone x); out_Website := str_of (d_Website x) |}.

(** [export()]: [None] when no path was chosen; otherwise the exception
    raised, after which nothing is written, or the rows written. *)
Definition export (path : str) (tree : list tree_row)
  : option (exn + list csv_row) :=
  match path with
  | [] => None
  | _ =>
      Some match export_loop tree [] with
           | inl e => inl e
           | inr unique =>
               match sorted_by_name (map snd unique) with
               | inl e => inl e
               | inr final => inr (map row_of final)
               end
           end
  end.

(** *** The windows: tables, status bar, buttons and the recent files

    Tk is outside the program; a widget is given by the values the program
    puts in it.  A cell of a table holds what was passed as its value, a
    string or [None]. *)

(** The values of a row of [tree_en]. *)
Record en_values : Type := {
  col_name : option str;
  col_address : str;
  col_phone : option str;
  col_website : option str;
  col_source : str
}.

(** What [status.set] is given. *)
Inductive status_text : Type :=
| StReady                          (* "Ready" *)
| StQueued (cats locs : nat)       (* "Queued: {} categories x {} locations..." *)
| StStoppingGeneration             (* "Stopping Generation..." *)
| StStopping                       (* "Stopping..." *)
| StMessage (e : event)            (* the text of a "status" message *)
| StFound (n : nat)                (* "Found {n}" *)
| StDone.                          (* "Done" *)

(** [pbar["value"]] *)
Inductive pbar_value : Type :=
| PbUnset
| PbRatio (a b : nat)              (* (a / b) * 100 *)
| PbFull.                          (* 100 *)

Record gui : Type := {
  csv_data : list row;
  is_running : bool;
  status : status_text;
  pbar : pbar_value;
  tree_gen : list (str * str);
  tree_en : list en_values;
  btn_gen_start : bool;            (* true for tk.NORMAL *)
  btn_gen_stop : bool;
  btn_trans : bool;
  btn_start : bool;
  btn_stop : bool;
  recent_menu : list str
}.

(** [history.json]: no such file, a file that cannot be read as JSON, a
    file that holds a list of paths, or a file that holds JSON of another
    kind that can be iterated: an object or a string, given by the items
    iterating it yields (its keys, its characters).  A file that holds a
    number, [true], [false] or [null] is no value here: on such a file
    [update_recent_menu] raises in [__init__] and no window opens. *)
Inductive history_file : Type :=
| NoFile
| Unreadable
| Holds (history : list str)
| HoldsOther (items : list str).

(** [load_history()]: what is loaded, as the sequence of its items. *)
Definition load_history (fs : history_file) : list str :=
  match fs with
  | Holds history => history
  | HoldsOther items => items
  | NoFile | Unreadable => []
  end.

(** [l.remove(x)]: the first occurrence goes. *)
Fixpoint list_remove (x : str) (l : list str) : list str :=
  match l with
  | [] => []
  | y :: l' => if eqs y x then l' else y :: list_remove x l'
  end.

(** The list [save_history] writes. *)
Definition new_history (path : str) (fs : history_file) : list str :=
  let history := load_history fs in
  let history := if mem path history then list_remove path history else history in
  let history := path :: history in
  firstn 5 history.

(** [update_recent_menu()] *)
Definition update_recent_menu (fs : history_file) (g : gui) : gui :=
  {| csv_data := csv_data g; is_running := is_running g; status := status g;
     pbar := pbar g; tree_gen := tree_gen g; tree_en := tree_en g;
     btn_gen_start := btn_gen_start g; btn_gen_stop := btn_gen_stop g;
     btn_trans := btn_trans g; btn_start := btn_start g; btn_stop := btn_stop g;
     recent_menu := load_history fs |}.

(** [save_history(path)]; [can_write] tells whether the file can be opened
    for writing, and a failure leaves the file as it is.  What is loaded
    from a file that holds no list has neither [remove] nor [insert]:
    [save_history] raises before it writes, and the handler of its caller
    [load_file] takes the exception, so that the file and the window are
    left as they were. *)
Definition save_history (path : str) (can_write : bool) (fs : history_file)
           (g : gui) : history_file * gui :=
  match fs with
  | HoldsOther _ => (fs, g)
  | _ =>
      let fs' := if can_write then Holds (new_history path fs) else fs in
      (fs', update_recent_menu fs' g)
  end.

(** [__init__]: the window when it opens. *)
Definition init (fs : history_file) : gui :=
  {| csv_data := []; is_running := false; status := StReady; pbar := PbUnset;
     tree_gen := []; tree_en := [];
     btn_gen_start := true; btn_gen_stop := false; btn_trans := false;
     btn_start := false; btn_stop := false;
     recent_menu := load_history fs |}.

(** [start_gen()], given the selected categories and locations: the window,
    and the arguments of the thread when one is started. *)
Definition start_gen (cats locs : list str) (g : gui)
  : gui * option (list str * list str) :=
  if is_running g then (g, None)
  else
    match cats, locs with
    | [], _ | _, [] => (g, None)
    | _, _ =>
        ({| csv_data := csv_data g; is_running := true;
            status := StQueued (length cats) (length locs);
            pbar := pbar g; tree_gen := []; tree_en := tree_en g;
            btn_gen_start := false; btn_gen_stop := true;
            btn_trans := btn_trans g; btn_start := btn_start g;
            btn_stop := btn_stop g; recent_menu := recent_menu g |},
         Some (cats, locs))
    end.

(** [stop_gen()] *)
Definition stop_gen (g : gui) : gui :=
  {| csv_data := csv_data g; is_running := false; status := StStoppingGeneration;
     pbar := pbar g; tree_gen := tree_gen g; tree_en := tree_en g;
     btn_gen_start := btn_gen_start g; btn_gen_stop := btn_gen_stop g;
     btn_trans := btn_trans g; btn_start := btn_start g; btn_stop := btn_stop g;
     recent_menu := recent_menu g |}.

(** [transfer()] *)
Definition transfer (g : gui) : gui :=
  {| csv_data :=
       map (fun v => {| Name := Text (fst v); Address := Text (snd v);
                        Phone := Text (lit "N/A"); Website := Text (lit "N/A") |})
           (tree_gen g);
     is_running := is_running g; status := status g; pbar := pbar g;
     tree_gen := tree_gen g;
     tree_en :=
       map (fun v => {| col_name := Some (fst v); col_address := snd v;
                        col_phone := Some (lit "N/A");
                        col_website := Some (lit "N/A");
                        col_source := lit "-" |})
           (tree_gen g);
     btn_gen_start := btn_gen_start g; btn_gen_stop := btn_gen_stop g;
     btn_trans := btn_trans g; btn_start := true; btn_stop := btn_stop g;
     recent_menu := recent_menu g |}.

(** [r.get(k)] *)
Definition get (c : cell) : option str :=
  match c with
  | Text s => Some s
  | Absent | NoneValue => None
  end.

(** The row [transfer_csv_to_tree] shows for a row of [csv_data]. *)
Definition file_values (r : row) : en_values :=
  {| col_name := get (Name r);
     col_address := fix_address_value (get_or (Address r) (lit "N/A"));
     col_phone := get_or (Phone r) (lit "N/A");
     col_website := get_or (Website r) (lit "N/A");
     col_source := lit "File" |}.

(** [transfer_csv_to_tree()] *)
Definition transfer_csv_to_tree (g : gui) : gui :=
  {| csv_data := csv_data g; is_running := is_running g; status := status g;
     pbar := pbar g; tree_gen := tree_gen g;
     tree_en := map file_values (csv_data g);
     btn_gen_start := btn_gen_start g; btn_gen_stop := btn_gen_stop g;
     btn_trans := btn_trans g; btn_start := true; btn_stop := btn_stop g;
     recent_menu := recent_menu g |}.

(** [load_file(path)]; [parsed] is what [list(csv.DictReader(f))] gives, or
    the exception of [open] or of the reader, after which a message box is
    shown and nothing else is done. *)
Definition load_file (path : str) (parsed : outcome (list row))
           (can_write : bool) (fs : history_file) (g : gui) : history_file * gui :=
  match parsed with
  | Raises => (fs, g)
  | Returns rows =>
      let g1 :=
        {| csv_data := rows; is_running := is_running g; status := status g;
           pbar := pbar g; tree_gen := tree_gen g; tree_en := tree_en g;
           btn_gen_start := btn_gen_start g; btn_gen_stop := btn_gen_stop g;
           btn_trans := btn_trans g; btn_start := btn_start g;
           btn_stop := btn_stop g; recent_menu := recent_menu g |} in
      save_history path can_write fs (transfer_csv_to_tree g1)
  end.

(** [start_enrich()] *)
Definition start_enrich (g : gui) : gui :=
  {| csv_data := csv_data g; is_running := true; status := status g;
     pbar := pbar g; tree_gen := tree_gen g; tree_en := tree_en g;
     btn_gen_start := btn_gen_start g; btn_gen_stop := btn_gen_stop g;
     btn_trans := btn_trans g; btn_start := false; btn_stop := true;
     recent_menu := recent_menu g |}.

(** [stop_process()] *)
Definition stop_process (g : gui) : gui :=
  {| csv_data := csv_data g; is_running := false; status := StStopping;
     pbar := pbar g; tree_gen := tree_gen g; tree_en := tree_en g;
     btn_gen_start := btn_gen_start g; btn_gen_stop := btn_gen_stop g;
     btn_trans := btn_trans g; btn_start := btn_start g; btn_stop := btn_stop g;
     recent_menu := recent_menu g |}.

(** The values an [update] message puts in a row. *)
Definition source_text (s : source) : str :=
  match s with
  | Keep => lit "Keep"
  | YP => lit "YP"
  | DDG => lit "DDG"
  end.
Definition update_values (res : enriched) : en_values :=
  {| col_name := e_name res; col_address := e_address res;
     col_phone := Some (e_phone res); col_website := e_website res;
     col_source := source_text (e_source res) |}.

(** [l[i] = v] for an index that is there. *)
Fixpoint list_set {A : Type} (l : list A) (i : nat) (v : A) : list A :=
  match l, i with
  | [], _ => []
  | _ :: l', O => v :: l'
  | x :: l', S i' => x :: list_set l' i' v
  end.

(** What [_check_queue] does with one message. *)
Definition handle (msg : event) (g : gui) : gui :=
  match msg with
  | Scanning _ _ _ _ | Enriching _ _ =>
      {| csv_data := csv_data g; is_running := is_running g;
         status := StMessage msg;
         pbar := pbar g; tree_gen := tree_gen g; tree_en := tree_en g;
         btn_gen_start := btn_gen_start g; btn_gen_stop := btn_gen_stop g;
         btn_trans := btn_trans g; btn_start := btn_start g;
         btn_stop := btn_stop g; recent_menu := recent_menu g |}
  | Progress a b =>
      {| csv_data := csv_data g; is_running := is_running g; status := status g;
         pbar := PbRatio a b;
         tree_gen := tree_gen g; tree_en := tree_en g;
         btn_gen_start := btn_gen_start g; btn_gen_stop := btn_gen_stop g;
         btn_trans := btn_trans g; btn_start := btn_start g;
         btn_stop := btn_stop g; recent_menu := recent_menu g |}
  | AddGen name clean_addr =>
      {| csv_data := csv_data g; is_running := is_running g; status := status g;
         pbar := pbar g;
         tree_gen := tree_gen g ++ [(name, clean_addr)];
         tree_en := tree_en g;
         btn_gen_start := btn_gen_start g; btn_gen_stop := btn_gen_stop g;
         btn_trans := btn_trans g; btn_start := btn_start g;
         btn_stop := btn_stop g; recent_menu := recent_menu g |}
  | DoneGen n =>
      {| csv_data := csv_data g; is_running := false; status := StFound n;
         pbar := PbFull; tree_gen := tree_gen g; tree_en := tree_en g;
         btn_gen_start := true; btn_gen_stop := false; btn_trans := true;
         btn_start := btn_start g; btn_stop := btn_stop g;
         recent_menu := recent_menu g |}
  | Update res =>
      let items := tree_en g in
      if idx res <? length items then
        {| csv_data := csv_data g; is_running := is_running g;
           status := status g; pbar := pbar g; tree_gen := tree_gen g;
           tree_en := list_set items (idx res) (update_values res);
           btn_gen_start := btn_gen_start g; btn_gen_stop := btn_gen_stop g;
           btn_trans := btn_trans g; btn_start := btn_start g;
           btn_stop := btn_stop g; recent_menu := recent_menu g |}
      else g
  | DoneEnrich =>
      {| csv_data := csv_data g; is_running := false; status := StDone;
         pbar := PbFull; tree_gen := tree_gen g; tree_en := tree_en g;
         btn_gen_start := btn_gen_start g; btn_gen_stop := btn_gen_stop g;
         btn_trans := btn_trans g; btn_start := true; btn_stop := false;
         recent_menu := recent_menu g |}
  end.

(** [_check_queue()]: the messages waiting on the queue are taken in order
    until the queue is empty. *)
Definition _check_queue (waiting : list event) (g : gui) : gui :=
  fold_left (fun g msg => handle msg g) waiting g.

End App.
Import App.

(** ** The phone normalizer as the specification words it *)

Module Spec.

(** [(ABC) DEF-GHIJ] for ten digits. *)
Definition format10 (d : str) : str :=
  lit "(" ++ firstn 3 d ++ lit ") " ++ firstn 3 (skipn 3 d) ++ lit "-" ++ skipn 6 d.

(** Strip the characters that are not digits; ten digits are formatted;
    eleven digits with a leading 1 lose it and are formatted; anything
    else is the sentinel. *)
Definition normalizePhone (raw : str) : str :=
  let digits := filter is_digit raw in
  match digits with
  | c :: digits' =>
      if length digits =? 10 then format10 digits
      else if (length digits =? 11) && eqc c "1"%char then format10 digits'
      else lit "N/A"
  | [] => lit "N/A"
  end.

End Spec.

(** * Definitions for the statements *)

(** ** Networks, pages and rows used as examples *)

(** The answer of [search_ddg] that holds nothing. *)
Definition all_absent : contact := {| phone := lit "N/A"; website := lit "N/A" |}.

(** A network whose every request raises. *)
Definition net_down (_ : request) : outcome response := Raises.
Definition no_redirect (_ : str) : outcome (option str) := Returns None.

(** A server that answers every request with the status 503 and an error
    page that names a phone number. *)
Definition error_page : page :=
  {| listings := [];
     text := lit "Service unavailable, call 705-555-1234";
     result_links := [] |}.
Definition net_503 (_ : request) : outcome response :=
  Returns {| status_code := 503; soup := Returns error_page |}.

(** ** Discovery *)

(** The key of a candidate, the leads returned by the calls of a run, and
    the leads put on the queue. *)
Definition key_of (r : candidate) : str :=
  gen_key (cand_name r) (fix_address (cand_address r)).
Definition emitted_as (r : candidate) : str * str :=
  (cand_name r, fix_address (cand_address r)).
Definition discovered (st : gen_state) : list candidate :=
  flat_map (fun c => snd c) (calls st).
Definition added (q : list event) : list (str * str) :=
  flat_map (fun e => match e with AddGen n a => [(n, a)] | _ => [] end) q.

(** The candidates whose key no earlier candidate has. *)
Fixpoint first_seen (earlier l : list candidate) : list candidate :=
  match l with
  | [] => []
  | r :: l' =>
      if existsb (fun e => eqs (key_of e) (key_of r)) earlier
      then first_seen (earlier ++ [r]) l'
      else r :: first_seen (earlier ++ [r]) l'
  end.

(** Two leads that differ in case and in the tail of the address. *)
Definition acme_listings : list listing :=
  [ {| phone_h4 := None; phone_li := None; website_li := None;
       name_link := Some (lit "Acme Store");
       address_full := Some (lit "12 Oak Ave, Timmins, ON") |};
    {| phone_h4 := None; phone_li := None; website_li := None;
       name_link := Some (lit "ACME STORE");
       address_full := Some (lit "12 Oak Avenue, Timmins, ON") |} ].
Definition net_acme (_ : nat) (_ : request) : outcome response :=
  Returns {| status_code := 200;
             soup := Returns {| listings := acme_listings; text := [];
                                result_links := [] |} |}.

(** What the loops keep true: [done] lists the candidates handled so far. *)
Definition dedup_inv (st : gen_state) (done : list candidate) : Prop :=
  added (queue st) = map emitted_as (first_seen [] done)
  /\ (forall k, mem k (seen_gen st) = existsb (fun e => eqs (key_of e) k) done)
  /\ total_found st = length (added (queue st)).

(** A flag that is down at its second read only: the stop is seen at the
    second combination, and the flag is up again when the loop over the
    categories goes on. *)
Definition down_once (j : nat) : bool := negb (j =? 1).

(** The combinations in the order of the loops, categories outside. *)
Definition combos (categories locations : list str) : list (str * str) :=
  flat_map (fun cat => map (fun loc => (cat, loc)) locations) categories.

(** What the queue says about the combinations started. *)
Definition progress_of (q : list event) : list (nat * nat) :=
  flat_map (fun e => match e with Progress a b => [(a, b)] | _ => [] end) q.
Definition scan_counts (q : list event) : list (nat * nat) :=
  flat_map (fun e => match e with Scanning t n _ _ => [(t, n)] | _ => [] end) q.
Definition scan_places (q : list event) : list (str * str) :=
  flat_map (fun e => match e with Scanning _ _ c l => [(c, l)] | _ => [] end) q.
Definition called (st : gen_state) : list (str * str) := map fst (calls st).

(** With a flag that is up at the first [k] reads only: either every read
    so far started a combination, or the flag has been seen down after
    [k] combinations. *)
Definition stop_inv (k : nat) (st : gen_state) : Prop :=
  current_task st <= k
  /\ (reads st = current_task st \/ (k <= reads st /\ current_task st = k)).

(** ** Export *)

(** A cell that is read back as the string it is. *)
Definition is_text (s : str) : Prop := int_of_str s = None.

(** A row of the tree whose four exported cells are read back as they
    are, and the row of the file with these cells. *)
Definition text_row (v : tree_row) : Prop :=
  is_text (v0 v) /\ is_text (v1 v) /\ is_text (v2 v) /\ is_text (v3 v).
Definition cells_of (v : tree_row) : csv_row :=
  {| out_Name := v0 v; out_Address := v1 v; out_Phone := v2 v; out_Website := v3 v |}.

(** The key as the specification words it, on the cells of a row. *)
Definition text_key (v : tree_row) : str :=
  if negb (eqs (v2 v) (lit "N/A")) then lit "PH:" ++ v2 v
  else lit "AD:" ++ firstn 15 (v1 v).

(** The row of the file made of a row of the tree. *)
Definition csv_of (v : tree_row) : csv_row := row_of (item v).

(** The row of the tree has the key [k]. *)
Definition key_is (k : str) (v : tree_row) : bool :=
  match export_key (item v) with
  | inr k' => eqs k' k
  | inl _ => false
  end.

(** The phone of a row of the tree as [export] reads and writes it. *)
Definition phone_read (v : tree_row) : str := str_of (_convert_stringval (v2 v)).

(** [d.get(k)] *)
Fixpoint dict_find {V : Type} (d : list (str * V)) (k : str) : option V :=
  match d with
  | [] => None
  | (k', v) :: d' => if eqs k' k then Some v else dict_find d' k
  end.

(** The last row of the tree with the key [k]. *)
Fixpoint last_with (k : str) (tree : list tree_row) : option tree_row :=
  match tree with
  | [] => None
  | v :: tree' =>
      match last_with k tree' with
      | Some w => Some w
      | None => if key_is k v then Some v else None
      end
  end.

(** The order of strings by code points, and the order of the values of
    one kind. *)
Inductive str_le : str -> str -> Prop :=
| str_le_nil b : str_le [] b
| str_le_lt x a y b : code x < code y -> str_le (x :: a) (y :: b)
| str_le_eq x a b : str_le a b -> str_le (x :: a) (x :: b).

Definition value_le (a b : tk_value) : Prop :=
  match a, b with
  | TkStr x, TkStr y => str_le x y
  | TkInt x, TkInt y => (x <= y)%Z
  | _, _ => False
  end.

(** A value that is read back as itself once written. *)
Definition readable (v : tk_value) : Prop := _convert_stringval (str_of v) = v.

(** Two enriched rows with one phone. *)
Definition two_with_one_phone : list tree_row :=
  [ {| v0 := lit "Pine Variety Store"; v1 := lit "123 Main St, Sudbury, ON P3B 1A1";
       v2 := lit "(705) 555-1234"; v3 := lit "N/A"; v4 := lit "DDG" |};
    {| v0 := lit "Pine Variety"; v1 := lit "123 Main Street, Sudbury, ON";
       v2 := lit "(705) 555-1234"; v3 := lit "https://pine.example"; v4 := lit "YP" |} ].

(** A table with a name made of digits beside a name made of letters, and
    a table with a phone in the international form, kept from a file. *)
Definition digits_name : list tree_row :=
  [ {| v0 := lit "Zed Mart"; v1 := lit "5 Elm St, Timmins, ON";
       v2 := lit "(705) 555-0000"; v3 := lit "N/A"; v4 := lit "YP" |};
    {| v0 := lit "411"; v1 := lit "12 Oak Ave, Timmins, ON";
       v2 := lit "(705) 555-1234"; v3 := lit "N/A"; v4 := lit "YP" |} ].
Definition plus_phone : list tree_row :=
  [ {| v0 := lit "Acme Store"; v1 := lit "12 Oak Ave, Timmins, ON";
       v2 := lit "+17055551234"; v3 := lit "N/A"; v4 := lit "Keep" |} ].

(** Two rows with text cells, out of order. *)
Definition zed_acme : list tree_row :=
  [ {| v0 := lit "Zed Mart"; v1 := lit "5 Elm St, Timmins, ON";
       v2 := lit "(705) 555-0000"; v3 := lit "N/A"; v4 := lit "YP" |};
    {| v0 := lit "Acme Store"; v1 := lit "12 Oak Ave, Timmins, ON";
       v2 := lit "N/A"; v3 := lit "N/A"; v4 := lit "DDG" |} ].

(** The key of a row of the file whose cells are text. *)
Definition csv_key (o : csv_row) : str :=
  if negb (eqs (out_Phone o) (lit "N/A")) then lit "PH:" ++ out_Phone o
  else lit "AD:" ++ upto 15 (out_Address o).

(** The key of a dict, when it has one. *)
Definition key_or (x : out_dict) : str :=
  match export_key x with
  | inr k => k
  | inl _ => []
  end.

(** ** Enrichment *)

(** The tuples of the [update] events, and the tuples of the futures that
    returned. *)
Definition updates (q : list event) : list enriched :=
  flat_map (fun e => match e with Update res => [res] | _ => [] end) q.
Definition successes (l : list (exn + enriched)) : list enriched :=
  flat_map (fun f => match f with inr res => [res] | inl _ => [] end) l.

(** A lead record: a name and an address that are strings, a phone that is
    a string or missing. *)
Definition is_lead (r : row) : bool :=
  match Name r, Address r, Phone r with
  | Text _, Text _, (Absent | Text _) => true
  | _, _, _ => false
  end.

(** The row [csv.DictReader] makes of a line with two fields under a
    header with four. *)
Definition short_row : row :=
  {| Name := Text (lit "Pine Variety Store");
     Address := Text (lit "123 Main St, ON P3B1A1");
     Phone := NoneValue; Website := NoneValue |}.

(** ** Addresses *)

(** A test on characters that does not see the case. *)
Definition caseless (p : ascii -> bool) : Prop := forall c, p (lower_c c) = p c.

(** A letter, a digit and a letter in a row, at the start and anywhere. *)
Definition starts_ldl (s : str) : bool :=
  match s with
  | c1 :: c2 :: c3 :: _ => is_alpha c1 && is_digit c2 && is_alpha c3
  | _ => false
  end.

Fixpoint has_ldl (s : str) : bool :=
  starts_ldl s || match s with [] => false | _ :: s' => has_ldl s' end.

(** A pattern whose classes do not see the case. *)
Fixpoint caseless_re (r : regex) : Prop :=
  match r with
  | Cls p | Star p | Plus p => caseless p
  | Seq r1 r2 | Alt r1 r2 => caseless_re r1 /\ caseless_re r2
  | Opt r1 | Grp _ r1 => caseless_re r1
  | Chr _ | Lit _ | Eos => True
  end.

(** No comma in the string. *)
Definition comma_free (s : str) : bool :=
  forallb (fun c => negb (eqc c ","%char)) s.

(** Neither the first nor the last character is white space. *)
Definition stripped (s : str) : bool :=
  negb (is_space (hd "x"%char s)) && negb (is_space (last s "x"%char)).

(** A part of an address without a postal code and without a District
    suffix, and a part of its result. *)
Definition plain_part (p : str) : Prop :=
  comma_free p = true /\ stripped p = true /\ has_ldl p = false
  /\ search true re_district p = None.

(** A segment the loop has kept. *)
Definition kept_part (u : str) : Prop :=
  u <> [] /\ comma_free u = true /\ stripped u = true /\ has_ldl u = false
  /\ (u = lit "ON"
      \/ (title u = u /\ match_at true re_on u = None
          /\ search true re_district u = None)).

(** What the loop over the parts keeps true of [(unique_parts, seen_lower)]. *)
Definition loop_inv (st : list str * list str) : Prop :=
  snd st = rev (map lower (fst st))
  /\ NoDup (map lower (fst st))
  /\ Forall kept_part (fst st).

(** ** Definitions for the further properties *)

(** A phone in the form [(ABC) DEF-GHIJ]. *)
Definition canonical (ph : str) : Prop :=
  exists d, length d = 10 /\ forallb is_digit d = true /\ ph = Spec.format10 d.

(** A segment in the case [fix_address] gives it. *)
Definition cased (u : str) : Prop := u = lit "ON" \/ title u = u.

(** What the loop keeps true of [(unique_parts, seen_lower)], whatever the
    parts are, when they come from [strip] and [split]. *)
Definition kept_inv (st : list str * list str) : Prop :=
  snd st = rev (map lower (fst st))
  /\ NoDup (map lower (fst st))
  /\ Forall (fun u => u <> [] /\ comma_free u = true /\ cased u) (fst st).

(** The [progress] messages [_enrich_thread] sends for the completions
    [first .. first + n - 1] out of [total]: every fifth and the last. *)
Definition batched (total first n : nat) : list (nat * nat) :=
  map (fun j => (j, total))
      (filter (fun j => (j mod 5 =? 0) || (j =? total)) (seq first n)).

(** The number of requests behind a result of [_process]. *)
Definition requests_of (s : source) : nat :=
  match s with
  | Keep => 0
  | YP => 1
  | DDG => 2
  end.

(** The rows of [tree_en] after the [update] messages [l], in order. *)
Definition apply_updates (l : list enriched) (items : list en_values) : list en_values :=
  fold_left
    (fun items res =>
       if idx res <? length items
       then list_set items (idx res) (update_values res)
       else items)
    l items.

(** The ticks of [_check_queue], each with the messages it finds waiting. *)
Definition ticks (batches : list (list event)) (g : gui) : gui :=
  fold_left (fun g waiting => _check_queue waiting g) batches g.

(** What can happen to the window: the user's commands and the ticks. *)
Inductive action : Type :=
| DoLoad (path : str) (parsed : outcome (list row)) (can_write : bool)
| DoTransfer
| DoStartGen (cats locs : list str)
| DoStopGen
| DoStartEnrich
| DoStopProcess
| DoTick (waiting : list event).

Definition act (s : history_file * gui) (a : action) : history_file * gui :=
  let (fs, g) := s in
  match a with
  | DoLoad path parsed can_write => load_file path parsed can_write fs g
  | DoTransfer => (fs, transfer g)
  | DoStartGen cats locs => (fs, fst (start_gen cats locs g))
  | DoStopGen => (fs, stop_gen g)
  | DoStartEnrich => (fs, start_enrich g)
  | DoStopProcess => (fs, stop_process g)
  | DoTick waiting => (fs, _check_queue waiting g)
  end.

Definition session (fs : history_file) (l : list action) : history_file * gui :=
  fold_left act l (fs, init fs).

(** The row of the tree a row of the file is read back as. *)
Definition tree_of (source : str) (o : csv_row) : tree_row :=
  {| v0 := out_Name o; v1 := out_Address o; v2 := out_Phone o;
     v3 := out_Website o; v4 := source |}.


(** What the matcher of [Re] accepts: [Matches ic r s m s' m'] when [r]
    matches from [s] up to [s'] and turns the captures [m] into [m']. *)
Inductive Matches (ic : bool) : regex -> str -> captures -> str -> captures -> Prop :=
| MChr c0 c s m : same ic c0 c = true -> Matches ic (Chr c0) (c :: s) m s m
| MLit l s s' m : lit_match ic l s = Some s' -> Matches ic (Lit l) s m s' m
| MCls p c s m : p c = true -> Matches ic (Cls p) (c :: s) m s m
| MSeq r1 r2 s m s1 m1 s2 m2 :
    Matches ic r1 s m s1 m1 -> Matches ic r2 s1 m1 s2 m2 ->
    Matches ic (Seq r1 r2) s m s2 m2
| MAltL r1 r2 s m s' m' : Matches ic r1 s m s' m' -> Matches ic (Alt r1 r2) s m s' m'
| MAltR r1 r2 s m s' m' : Matches ic r2 s m s' m' -> Matches ic (Alt r1 r2) s m s' m'
| MOptSome r s m s' m' : Matches ic r s m s' m' -> Matches ic (Opt r) s m s' m'
| MOptNone r s m : Matches ic (Opt r) s m s m
| MStar p pre s m : forallb p pre = true -> Matches ic (Star p) (pre ++ s) m s m
| MPlus p c pre s m :
    p c = true -> forallb p pre = true -> Matches ic (Plus p) (c :: pre ++ s) m s m
| MGrp n r s m s' m' :
    Matches ic r s m s' m' ->
    Matches ic (Grp n r) s m s' ((n, firstn (length s - length s') s) :: m')
| MEos s m : at_end s = true -> Matches ic Eos s m s m.

(** A phone in the form [(ABC) DEF-GHIJ] whose area code and exchange
    start with a digit from 2 to 9. *)
Definition dialable (ph : str) : Prop :=
  exists d, length d = 10 /\ forallb is_digit d = true
            /\ is_2_9 (nth 0 d "0"%char) = true
            /\ is_2_9 (nth 3 d "0"%char) = true
            /\ ph = Spec.format10 d.

(** The directories [search_ddg] does not take a website from. *)
Definition directories : list str :=
  [lit "duckduckgo"; lit "yelp"; lit "yellowpages"; lit "411.ca"].

(** A results page with one listing that shows a phone, and a server that
    answers every request with it. *)
Definition shop_listing : listing :=
  {| phone_h4 := Some (lit "705-555-1234"); phone_li := None; website_li := None;
     name_link := Some (lit "Acme Store");
     address_full := Some (lit "12 Oak Ave, Timmins, ON") |}.
Definition net_shop (_ : request) : outcome response :=
  Returns {| status_code := 200;
             soup := Returns {| listings := [shop_listing]; text := [];
                                result_links := [] |} |}.

(** A row of a file whose phone is not in the form of [clean_phone]. *)
Definition dotted_row : row :=
  {| Name := Text (lit "Acme Store"); Address := Text (lit "12 Oak Ave, Timmins, ON");
     Phone := Text (lit "705.555.1234"); Website := Absent |}.

(** A row of a file without a phone column. *)
Definition bare_row : row :=
  {| Name := Text (lit "Acme Store"); Address := Text (lit "12 Oak Ave, Timmins, ON");
     Phone := Absent; Website := Absent |}.

(** A page of results whose first links are directories. *)
Definition links_page : page :=
  {| listings := []; text := lit "Call +1 (705) 555-1234 today";
     result_links := [Some (lit "https://www.yelp.ca/biz/acme"); None;
                      Some (lit "https://acme.example/");
                      Some (lit "https://other.example/")] |}.
Definition net_links (_ : request) : outcome response :=
  Returns {| status_code := 200; soup := Returns links_page |}.
(** * Properties *)

(** ** Characters and strings *)

Lemma eqc_refl (c : ascii) : eqc c c = true.
Proof. apply Ascii.eqb_refl. Qed.

Lemma eqc_eq (a b : ascii) : eqc a b = true <-> a = b.
Proof. apply Ascii.eqb_eq. Qed.

Lemma eqs_eq (a b : str) : eqs a b = true <-> a = b.
Proof.
  revert b; induction a as [|x a IH]; intros [|y b]; simpl; split;
    try congruence; try discriminate.
  - rewrite andb_true_iff, eqc_eq, IH. intros [-> ->]; reflexivity.
  - intros H; injection H as -> ->. now rewrite eqc_refl, (proj2 (IH b)).
Qed.

Lemma eqs_refl (a : str) : eqs a a = true.
Proof. now apply eqs_eq. Qed.

Lemma mem_In (x : str) (l : list str) : mem x l = true <-> In x l.
Proof.
  unfold mem. rewrite existsb_exists. split.
  - intros (y & Hy & E). apply eqs_eq in E. now subst.
  - intros H. exists x. split; [assumption | apply eqs_refl].
Qed.

Lemma lower_length (s : str) : length (lower s) = length s.
Proof. apply length_map. Qed.

(** ** [re.sub] of a one-character class *)

Lemma succ_minus (n : nat) : S n - n = 1.
Proof. lia. Qed.

Lemma sub_class_filter (p : ascii -> bool) (s : str) :
  Re.sub false (Cls p) (fun _ => []) s = filter (fun c => negb (p c)) s.
Proof.
  unfold Re.sub. induction s as [|c s IH]; [reflexivity|].
  cbn [sub_from match_at run filter]. destruct (p c); cbn [negb].
  - cbn [rest]. change (length (c :: s)) with (S (length s)).
    rewrite succ_minus. cbn [app]. exact IH.
  - now rewrite IH.
Qed.

Lemma digits_of (s : str) :
  Re.sub false non_digit (fun _ => []) s = filter is_digit s.
Proof.
  unfold non_digit. rewrite sub_class_filter. apply filter_ext.
  intros c. now rewrite negb_involutive.
Qed.

Lemma filter_length_le {A} (f : A -> bool) (l : list A) :
  length (filter f l) <= length l.
Proof.
  induction l as [|x l IH]; simpl; [lia|]. destruct (f x); simpl; lia.
Qed.

(** ** [clean_phone] *)

(** C2: [clean_phone] is a function of every string, and its value is the
    one the specification describes: the digits are kept; ten digits give
    [(ABC) DEF-GHIJ]; eleven digits with a leading 1 give the same for the
    last ten; every other count of digits, the empty string and a string
    equal to "n/a" up to case give "N/A".  "1-705-555-1234" gives
    "(705) 555-1234" and "555-12" gives "N/A". *)
Theorem clean_phone_spec :
  (forall raw, clean_phone raw = Spec.normalizePhone raw)
  /\ (forall raw, length (filter is_digit raw) = 10 ->
        clean_phone raw = Spec.format10 (filter is_digit raw))
  /\ (forall raw d, filter is_digit raw = "1"%char :: d -> length d = 10 ->
        clean_phone raw = Spec.format10 d)
  /\ (forall raw, length (filter is_digit raw) <> 10 ->
        ~ (length (filter is_digit raw) = 11
           /\ startswith (lit "1") (filter is_digit raw) = true) ->
        clean_phone raw = lit "N/A")
  /\ (forall raw, raw = [] \/ lower raw = lit "n/a" -> clean_phone raw = lit "N/A")
  /\ clean_phone (lit "1-705-555-1234") = lit "(705) 555-1234"
  /\ clean_phone (lit "555-12") = lit "N/A".
Proof.
  assert (guard : forall raw, raw = [] \/ lower raw = lit "n/a" ->
                    length (filter is_digit raw) <= 3).
  { intros raw [-> | E]; [simpl; lia|].
    pose proof (filter_length_le is_digit raw) as L.
    rewrite <- (lower_length raw), E in L. exact L. }
  assert (body : forall raw,
             clean_phone raw =
             if match raw with [] => true | _ => false end
                || mem (lower raw) [lit "n/a"; lit ""]
             then lit "N/A"
             else
               let digits := filter is_digit raw in
               if length digits =? 10 then
                 lit "(" ++ upto 3 digits ++ lit ") " ++ slice 3 6 digits
                     ++ lit "-" ++ from 6 digits
               else if (length digits =? 11) && startswith (lit "1") digits then
                 lit "(" ++ slice 1 4 digits ++ lit ") " ++ slice 4 7 digits
                     ++ lit "-" ++ from 7 digits
               else lit "N/A").
  { intros raw. unfold clean_phone. now rewrite digits_of. }
  assert (early : forall raw,
             match raw with [] => true | _ => false end
             || mem (lower raw) [lit "n/a"; lit ""] = true ->
             raw = [] \/ lower raw = lit "n/a").
  { intros raw H. apply orb_true_iff in H as [H | H].
    - left. now destruct raw.
    - apply mem_In in H. destruct H as [H | [H | []]].
      + right. now symmetry.
      + left. destruct raw; [reflexivity | discriminate]. }
  assert (main : forall raw, clean_phone raw = Spec.normalizePhone raw).
  { intros raw. rewrite body. unfold Spec.normalizePhone.
    destruct (match raw with [] => true | _ => false end
              || mem (lower raw) [lit "n/a"; lit ""]) eqn:G.
    - apply early, guard in G.
      destruct (filter is_digit raw) as [|c d]; [reflexivity|].
      destruct (length (c :: d) =? 10) eqn:E10.
      { apply Nat.eqb_eq in E10. lia. }
      destruct (length (c :: d) =? 11) eqn:E11.
      { apply Nat.eqb_eq in E11. lia. }
      reflexivity.
    - cbv zeta. destruct (filter is_digit raw) as [|c d]; [reflexivity|].
      destruct (length (c :: d) =? 10); [reflexivity|].
      destruct (length (c :: d) =? 11); [|reflexivity].
      cbn [andb startswith lit list_ascii_of_string].
      rewrite andb_true_r. unfold eqc.
      rewrite (Ascii.eqb_sym "1"%char c).
      destruct (Ascii.eqb c "1"); reflexivity. }
  split; [exact main|].
  split.
  { intros raw H. rewrite main. unfold Spec.normalizePhone.
    destruct (filter is_digit raw) as [|c d]; [discriminate|].
    now rewrite H. }
  split.
  { intros raw d H L. rewrite main. unfold Spec.normalizePhone. rewrite H.
    cbn [length]. rewrite L. now rewrite eqc_refl. }
  split.
  { intros raw N10 N11. rewrite main. unfold Spec.normalizePhone.
    destruct (filter is_digit raw) as [|c d] eqn:E; [reflexivity|].
    destruct (length (c :: d) =? 10) eqn:E10.
    { apply Nat.eqb_eq in E10. contradiction. }
    destruct (length (c :: d) =? 11) eqn:E11; [|reflexivity].
    destruct (eqc c "1") eqn:C1; [|reflexivity].
    exfalso. apply N11. apply Nat.eqb_eq in E11. split; [assumption|].
    apply eqc_eq in C1. subst c. reflexivity. }
  split.
  { intros raw H. rewrite main. unfold Spec.normalizePhone.
    apply guard in H. destruct (filter is_digit raw) as [|c d]; [reflexivity|].
    destruct (length (c :: d) =? 10) eqn:E10.
    { apply Nat.eqb_eq in E10. lia. }
    destruct (length (c :: d) =? 11) eqn:E11.
    { apply Nat.eqb_eq in E11. lia. }
    reflexivity. }
  split; vm_compute; reflexivity.
Qed.

Lemma clean_phone_spec_witness :
  clean_phone (lit "+1 (705) 555-1234") = lit "(705) 555-1234"
  /\ clean_phone (lit "705.555.1234 ext") = lit "(705) 555-1234"
  /\ clean_phone (lit "2-705-555-1234") = lit "N/A"
  /\ clean_phone (lit "N/a") = lit "N/A".
Proof.
  destruct clean_phone_spec as (_ & H10 & H11 & HNA & HG & _).
  split; [|split; [|split]].
  - rewrite (H11 (lit "+1 (705) 555-1234") (lit "7055551234"));
      [reflexivity | reflexivity | reflexivity].
  - rewrite (H10 (lit "705.555.1234 ext")); [reflexivity | reflexivity].
  - apply HNA.
    + vm_compute. discriminate.
    + vm_compute. intros [_ H]. discriminate.
  - apply HG. right. reflexivity.
Defined.

(** ** [fix_address] on given addresses *)

(** The address with a comma between the province and the postal code is
    not the value of [fix_address]. *)
Lemma fix_address_pine_not_comma :
  fix_address (lit "123 Main St, ON P3B1A1") <> lit "123 Main St, Sudbury, ON, P3B 1A1".
Proof. vm_compute. discriminate. Qed.

(** C5 (amended): for "123 Main St, ON P3B1A1" [fix_address] gives
    "123 Main St, Sudbury, ON P3B 1A1": the postal code is spaced, its
    prefix P3B is looked up in [POSTAL_MAP], and "Sudbury, " is put before
    the province, which stays in one segment with the postal code. *)
Theorem fix_address_pine :
  fix_address (lit "123 Main St, ON P3B1A1") = lit "123 Main St, Sudbury, ON P3B 1A1"
  /\ fsa_of (spaced_of (lit "123 Main St, ON P3B1A1")) = Some (lit "P3B")
  /\ dict_get POSTAL_MAP (lit "P3B") (lit "Northern Ontario") = lit "Sudbury".
Proof. repeat split; vm_compute; reflexivity. Qed.

(** C1: on the address of the specification's own example a second
    application of [fix_address] changes the result of the first one.
    The first gives "123 Main St, Sudbury, ON P3B 1A1".  In the second the
    loop title-cases the segment "ON P3B 1A1", since only a segment that
    is "on" or "ontario" alone is set to "ON"; the province is put in
    upper case again only by the substitution that inserts the locality,
    which is not made as Sudbury is there already. *)
Theorem fix_address_twice_differs :
  let x := lit "123 Main St, ON P3B1A1" in
  x <> []
  /\ fix_address x = lit "123 Main St, Sudbury, ON P3B 1A1"
  /\ fix_address (fix_address x) = lit "123 Main St, Sudbury, On P3B 1A1"
  /\ fix_address (fix_address x) <> fix_address x.
Proof. repeat split; vm_compute; (reflexivity || discriminate). Qed.

(** Two more addresses that a second application changes: a doubled
    District suffix, and an address without any segment, whose empty
    result becomes the sentinel. *)
Lemma fix_address_twice_district :
  fix_address (lit "Sudbury District District") = lit "Sudbury District"
  /\ fix_address (lit "Sudbury District") = lit "Sudbury".
Proof. split; vm_compute; reflexivity. Qed.

Lemma fix_address_twice_empty :
  fix_address (lit ",") = lit "" /\ fix_address (lit "") = lit "N/A".
Proof. split; vm_compute; reflexivity. Qed.

(** ** The test for an inferred city *)

(** C10: when the city inferred from the postal prefix, without a District
    suffix, occurs up to case inside one of the segments kept by the
    loop, nothing is inserted: [fix_address] returns the address with its
    postal code spaced.  The segment need not be the city: "12 Sudbury
    Street" keeps "Sudbury" out for the prefix P3B, while "12 Elm Street"
    does not. *)
Theorem city_inside_segment_suppresses :
  (forall address fsa part,
      fsa_of (spaced_of address) = Some fsa ->
      In part (unique_parts_of address) ->
      contains (lower (district_free (dict_get POSTAL_MAP fsa (lit "Northern Ontario"))))
               (lower part) = true ->
      fix_address address = spaced_of address)
  /\ fix_address (lit "12 Sudbury Street, ON P3B 1A1") = lit "12 Sudbury Street, On P3B 1A1"
  /\ ~ In (lit "Sudbury") (unique_parts_of (lit "12 Sudbury Street, ON P3B 1A1"))
  /\ fix_address (lit "12 Elm Street, ON P3B 1A1") = lit "12 Elm Street, Sudbury, ON P3B 1A1".
Proof.
  split; [|repeat split; try (vm_compute; reflexivity)].
  - intros address fsa part F I C. unfold fix_address.
    destruct (match address with [] => true | _ => false end
              || eqs address (lit "N/A")) eqn:G.
    + exfalso. apply orb_true_iff in G as [G | G].
      * destruct address; [|discriminate]. exact I.
      * apply eqs_eq in G. subst address. vm_compute in F. discriminate.
    + cbv zeta. rewrite F.
      destruct (is_some (search true (re_province_fsa fsa) (spaced_of address)));
        [|reflexivity].
      assert (P : is_present (dict_get POSTAL_MAP fsa (lit "Northern Ontario"))
                             (unique_parts_of address) = true).
      { unfold is_present. apply existsb_exists. now exists part. }
      now rewrite P.
  - vm_compute. intros [H | [H | []]]; discriminate.
Qed.

Lemma city_inside_segment_suppresses_witness :
  let address := lit "12 Sudbury Street, ON P3B 1A1" in
  fsa_of (spaced_of address) = Some (lit "P3B")
  /\ In (lit "12 Sudbury Street") (unique_parts_of address)
  /\ fix_address address = spaced_of address.
Proof.
  split; [vm_compute; reflexivity|].
  split; [vm_compute; left; reflexivity|].
  apply (proj1 city_inside_segment_suppresses
               (lit "12 Sudbury Street, ON P3B 1A1") (lit "P3B")
               (lit "12 Sudbury Street")).
  - vm_compute; reflexivity.
  - vm_compute; left; reflexivity.
  - vm_compute; reflexivity.
Defined.

(** ** The strategy of [_process] *)

Lemma search_yp_sends send redirect_of (a b : str) :
  snd (search_yp send redirect_of a b) = [yp_request a b].
Proof. reflexivity. Qed.

Lemma search_ddg_sends send (a b : str) :
  snd (search_ddg send a b) = [ddg_request a b].
Proof. reflexivity. Qed.

(** C3: a line with fewer fields than the header is a record whose phone
    [csv.DictReader] binds to [None].  It is not kept, and the primary
    lookup is not called for it either: [len(None)] raises TypeError in
    the test of [_process], whatever the network, and no request is
    sent. *)
Theorem process_none_phone
  (send : request -> outcome response)
  (redirect_of : str -> outcome (option str)) (i : nat) :
  Phone short_row = NoneValue
  /\ _process send redirect_of short_row i = (inl TypeError, []).
Proof. split; reflexivity. Qed.

(** A record whose phone is a string other than "N/A" and "", longer
    than five characters, is returned with that phone and its website as
    they are, the normalized address and the source Keep, and no request
    is sent.  For every other record with a name and an address, whose
    phone is a string or is missing, the YellowPages request goes first;
    its answer is used, with source YP, exactly when it is not [None] and
    its phone is not "N/A"; otherwise the DuckDuckGo request follows and
    its answer is used as it is, with source DDG. *)
Lemma process_strategy
  (send : request -> outcome response)
  (redirect_of : str -> outcome (option str)) (r : row) (i : nat) (name : str) :
  Name r = Text name ->
  (forall p, Phone r = Text p ->
     p <> lit "N/A" -> p <> lit "" -> 5 < length p ->
     _process send redirect_of r i =
     (inr {| idx := i; e_name := Some name;
             e_address := fix_address_value (get_or (Address r) (lit ""));
             e_phone := p;
             e_website := get_or (Website r) (lit "N/A");
             e_source := Keep |}, []))
  /\ (Address r <> Absent ->
      (Phone r = Absent
       \/ exists p, Phone r = Text p
                    /\ ~ (p <> lit "N/A" /\ p <> lit "" /\ 5 < length p)) ->
      let addr := fix_address_value (get_or (Address r) (lit "")) in
      let primary := fst (search_yp send redirect_of name addr) in
      let fallback := fst (search_ddg send name addr) in
      (forall d, primary = Some d -> phone d <> lit "N/A" ->
         _process send redirect_of r i =
         (inr {| idx := i; e_name := Some name; e_address := addr;
                 e_phone := phone d; e_website := Some (website d);
                 e_source := YP |},
          [yp_request name addr]))
      /\ (primary = None \/ (exists d, primary = Some d /\ phone d = lit "N/A") ->
          _process send redirect_of r i =
          (inr {| idx := i; e_name := Some name; e_address := addr;
                  e_phone := phone fallback; e_website := Some (website fallback);
                  e_source := DDG |},
           [yp_request name addr; ddg_request name addr]))).
Proof.
  intros HN. split.
  - intros p HP N1 N2 L. unfold _process. rewrite HP.
    assert (M : mem p [lit "N/A"; lit ""] = false).
    { destruct (mem p [lit "N/A"; lit ""]) eqn:M; [|reflexivity].
      apply mem_In in M. destruct M as [M | [M | []]]; congruence. }
    rewrite M. apply Nat.ltb_lt in L. rewrite L. cbn [negb andb].
    unfold keep_branch. rewrite HN. reflexivity.
  - intros HA HP addr primary fallback.
    assert (E : _process send redirect_of r i = lookup_branch send redirect_of r i).
    { unfold _process. destruct HP as [-> | (p & -> & HP)]; [reflexivity|].
      destruct (negb (mem p [lit "N/A"; lit ""]) && (5 <? length p)) eqn:T;
        [|reflexivity].
      exfalso. apply HP. apply andb_true_iff in T as [T1 T2].
      apply Nat.ltb_lt in T2. apply negb_true_iff in T1.
      repeat split; [| |assumption]; intros ->; vm_compute in T1; discriminate. }
    assert (B : lookup_branch send redirect_of r i =
                match primary with
                | Some d1 =>
                    if eqs (phone d1) (lit "N/A")
                    then (inr (tuple_of i name addr fallback DDG),
                          [yp_request name addr; ddg_request name addr])
                    else (inr (tuple_of i name addr d1 YP), [yp_request name addr])
                | None => (inr (tuple_of i name addr fallback DDG),
                           [yp_request name addr; ddg_request name addr])
                end).
    { unfold lookup_branch. rewrite HN. subst addr primary fallback.
      destruct (Address r) as [| |a]; [congruence| |];
        cbv zeta; unfold bind, ret; cbn [fst snd];
        rewrite !search_yp_sends;
        match goal with
        | |- context [fst (search_yp ?a ?b ?c ?d)] =>
            destruct (fst (search_yp a b c d)) as [d1|]
        end;
        [destruct (eqs (phone d1) (lit "N/A"))| |
         destruct (eqs (phone d1) (lit "N/A"))|];
        cbn [fst snd]; rewrite ?search_ddg_sends; reflexivity. }
    rewrite E, B. split.
    + intros d H Hd. rewrite H.
      destruct (eqs (phone d) (lit "N/A")) eqn:Q; [|reflexivity].
      apply eqs_eq in Q. contradiction.
    + intros [H | (d & H & Hd)]; rewrite H; [reflexivity|].
      rewrite Hd. reflexivity.
Qed.

Lemma process_strategy_witness :
  let kept := {| Name := Text (lit "Pine Variety Store");
                 Address := Text (lit "123 Main St, ON P3B1A1");
                 Phone := Text (lit "(705) 555-1234");
                 Website := Absent |} in
  let bare := {| Name := Text (lit "Pine Variety Store");
                 Address := Text (lit "123 Main St, ON P3B1A1");
                 Phone := Text (lit "N/A");
                 Website := Absent |} in
  snd (_process net_down no_redirect kept 0) = []
  /\ snd (_process net_down no_redirect bare 1)
     = [yp_request (lit "Pine Variety Store") (lit "123 Main St, Sudbury, ON P3B 1A1");
        ddg_request (lit "Pine Variety Store") (lit "123 Main St, Sudbury, ON P3B 1A1")].
Proof.
  intros kept bare. split.
  - rewrite (proj1 (process_strategy net_down no_redirect kept 0
                      (lit "Pine Variety Store") eq_refl)
                   (lit "(705) 555-1234") eq_refl).
    + reflexivity.
    + discriminate.
    + discriminate.
    + vm_compute. lia.
  - assert (A : Address bare <> Absent) by discriminate.
    assert (P : Phone bare = Absent
                \/ exists p, Phone bare = Text p
                             /\ ~ (p <> lit "N/A" /\ p <> lit "" /\ 5 < length p)).
    { right. exists (lit "N/A"). split; [reflexivity|]. intros (N & _). now apply N. }
    rewrite (proj2 (proj2 (process_strategy net_down no_redirect bare 1
                             (lit "Pine Variety Store") eq_refl) A P)
                   (or_introl eq_refl)).
    vm_compute. reflexivity.
Defined.

(** ** Failures of the network and of the parser *)

(** A request that raises, a parser that raises, and a missing listing
    block give [None] from [search_yp], as does every status other than
    200; a request or a parser that raises gives the all-absent answer
    from [search_ddg]; a request or a parser that raises and the statuses
    400..599 give the empty list from [generate_yp].  Each of the three
    sends its one request whatever the outcome. *)
Lemma lookups_recover
  (send : request -> outcome response)
  (redirect_of : str -> outcome (option str)) (a b : str) :
  (send (yp_request a b) = Raises -> fst (search_yp send redirect_of a b) = None)
  /\ (forall res, send (yp_request a b) = Returns res ->
        status_code res <> 200 \/ soup res = Raises
        \/ (exists pg, soup res = Returns pg /\ listings pg = []) ->
        fst (search_yp send redirect_of a b) = None)
  /\ (send (ddg_request a b) = Raises -> fst (search_ddg send a b) = all_absent)
  /\ (forall res, send (ddg_request a b) = Returns res -> soup res = Raises ->
        fst (search_ddg send a b) = all_absent)
  /\ (send (gen_request a b) = Raises -> fst (generate_yp send a b) = [])
  /\ (forall res, send (gen_request a b) = Returns res ->
        400 <= status_code res < 600 \/ soup res = Raises ->
        fst (generate_yp send a b) = [])
  /\ snd (search_yp send redirect_of a b) = [yp_request a b]
  /\ snd (search_ddg send a b) = [ddg_request a b]
  /\ snd (generate_yp send a b) = [gen_request a b].
Proof.
  unfold search_yp, search_ddg, generate_yp, bind, requests_send, ret.
  cbn [fst snd]. repeat split.
  - intros E. now rewrite E.
  - intros res E H. rewrite E.
    destruct (status_code res =? 200) eqn:S; cbn [negb]; [|reflexivity].
    apply Nat.eqb_eq in S.
    destruct H as [H | [H | (pg & H1 & H2)]]; [contradiction| |].
    + now rewrite H.
    + now rewrite H1, H2.
  - intros E. now rewrite E.
  - intros res E H. now rewrite E, H.
  - intros E. now rewrite E.
  - intros res E H. rewrite E. unfold raise_for_status.
    destruct H as [[H1 H2] | H].
    + apply Nat.leb_le in H1. apply Nat.ltb_lt in H2. now rewrite H1, H2.
    + rewrite H. now destruct (_ && _).
Qed.

(** C4 (the code at the failing input): on the status 503 [search_yp]
    gives [None] and [generate_yp] the empty list, but [search_ddg], which
    never reads the status, takes the phone number of the error page. *)
Theorem search_ddg_reads_error_page :
  fst (search_yp net_503 no_redirect (lit "Pine Variety Store")
         (lit "123 Main St, Sudbury, ON")) = None
  /\ fst (generate_yp net_503 (lit "Variety Stores") (lit "Sudbury, ON")) = []
  /\ fst (search_ddg net_503 (lit "Pine Variety Store") (lit "123 Main St, Sudbury, ON"))
     = {| phone := lit "(705) 555-1234"; website := lit "N/A" |}
  /\ fst (search_ddg net_503 (lit "Pine Variety Store") (lit "123 Main St, Sudbury, ON"))
     <> all_absent.
Proof. repeat split; try (vm_compute; reflexivity). vm_compute. discriminate. Qed.

(** ** Discovery: the composite key and the set of seen keys *)

Lemma eqs_sym (a b : str) : eqs a b = eqs b a.
Proof.
  destruct (eqs a b) eqn:E.
  - apply eqs_eq in E. subst. symmetry. apply eqs_refl.
  - destruct (eqs b a) eqn:E'; [|reflexivity].
    apply eqs_eq in E'. subst. now rewrite eqs_refl in E.
Qed.

Lemma added_app (q1 q2 : list event) : added (q1 ++ q2) = added q1 ++ added q2.
Proof. unfold added. apply flat_map_app. Qed.

Lemma first_seen_snoc (earlier l : list candidate) (r : candidate) :
  first_seen earlier (l ++ [r]) =
  first_seen earlier l
    ++ (if existsb (fun e => eqs (key_of e) (key_of r)) (earlier ++ l)
        then [] else [r]).
Proof.
  revert earlier. induction l as [|a l IH]; intros earlier; cbn [app first_seen].
  - rewrite app_nil_r. now destruct (existsb _ earlier).
  - rewrite IH, <- app_assoc. cbn [app]. now destruct (existsb _ earlier).
Qed.

Lemma first_seen_fresh (earlier l : list candidate) :
  NoDup (map key_of (first_seen earlier l))
  /\ forall r, In r (first_seen earlier l) ->
               existsb (fun e => eqs (key_of e) (key_of r)) earlier = false.
Proof.
  revert earlier. induction l as [|a l IH]; intros earlier; cbn [first_seen].
  - split; [constructor | intros r []].
  - destruct (IH (earlier ++ [a])) as [ND F].
    assert (F' : forall r, In r (first_seen (earlier ++ [a]) l) ->
                   existsb (fun e => eqs (key_of e) (key_of r)) earlier = false
                   /\ key_of a <> key_of r).
    { intros r I. specialize (F r I). rewrite existsb_app in F.
      apply orb_false_iff in F as [F1 F2]. split; [assumption|].
      cbn in F2. rewrite orb_false_r in F2. intros E. rewrite E, eqs_refl in F2.
      discriminate. }
    destruct (existsb (fun e => eqs (key_of e) (key_of a)) earlier) eqn:X.
    + split; [assumption|]. intros r I. now apply F'.
    + split.
      * cbn [map]. constructor; [|assumption].
        intros I. apply in_map_iff in I as (r & E & I).
        apply F' in I as [_ N]. now apply N.
      * intros r [<- | I]; [assumption | now apply F'].
Qed.

Lemma add_candidate_inv (st : gen_state) (done : list candidate) (r : candidate) :
  dedup_inv st done -> dedup_inv (add_candidate st r) (done ++ [r]).
Proof.
  intros (Q & S & T). unfold dedup_inv, add_candidate. fold (key_of r).
  rewrite first_seen_snoc. cbn [app]. rewrite (S (key_of r)).
  destruct (existsb (fun e => eqs (key_of e) (key_of r)) done) eqn:X; cbn [negb].
  - rewrite app_nil_r. repeat split; try assumption.
    intros k. rewrite existsb_app, S. cbn. rewrite orb_false_r.
    destruct (eqs (key_of r) k) eqn:E; [|now rewrite orb_false_r].
    apply eqs_eq in E. subst k. now rewrite X.
  - repeat split; cbn [queue seen_gen total_found].
    + rewrite added_app, Q, map_app. reflexivity.
    + intros k. unfold mem. cbn [existsb]. fold (mem k (seen_gen st)).
      rewrite existsb_app, S. cbn. rewrite orb_false_r, eqs_sym. apply orb_comm.
    + rewrite added_app, length_app, T. cbn. lia.
Qed.

Lemma add_candidates_inv (res : list candidate) (st : gen_state)
      (done : list candidate) :
  dedup_inv st done -> dedup_inv (fold_left add_candidate res st) (done ++ res).
Proof.
  revert st done. induction res as [|r res IH]; intros st done H; cbn [fold_left].
  - now rewrite app_nil_r.
  - replace (done ++ r :: res) with ((done ++ [r]) ++ res)
      by now rewrite <- app_assoc.
    apply IH. now apply add_candidate_inv.
Qed.

Lemma add_candidate_calls (st : gen_state) (r : candidate) :
  calls (add_candidate st r) = calls st
  /\ reads (add_candidate st r) = reads st
  /\ current_task (add_candidate st r) = current_task st.
Proof. unfold add_candidate. now destruct (negb _). Qed.

Lemma add_candidates_calls (res : list candidate) (st : gen_state) :
  calls (fold_left add_candidate res st) = calls st
  /\ reads (fold_left add_candidate res st) = reads st
  /\ current_task (fold_left add_candidate res st) = current_task st.
Proof.
  revert st. induction res as [|r res IH]; intros st; cbn [fold_left].
  - repeat split.
  - destruct (IH (add_candidate st r)) as (A & B & C).
    destruct (add_candidate_calls st r) as (A' & B' & C').
    repeat split; congruence.
Qed.

Lemma discovered_snoc (st : gen_state) (c : str * str * list candidate)
      (l : list (str * str * list candidate)) :
  calls st = l ++ [c] -> discovered st = flat_map (fun c => snd c) l ++ snd c.
Proof.
  intros E. unfold discovered. rewrite E, flat_map_app. cbn. now rewrite app_nil_r.
Qed.

Lemma scan_locations_inv net is_running total_tasks cat locations st :
  dedup_inv st (discovered st) ->
  dedup_inv (scan_locations net is_running total_tasks cat locations st)
            (discovered (scan_locations net is_running total_tasks cat locations st)).
Proof.
  revert st. induction locations as [|loc locations IH]; intros st H;
    cbn [scan_locations]; [assumption|].
  destruct (negb (is_running (reads st))); [exact H|].
  apply IH.
  set (res := fst (generate_yp (net (S (current_task st))) cat loc)).
  set (st1 := {| total_found := total_found st;
                 current_task := S (current_task st);
                 seen_gen := seen_gen st;
                 queue := queue st ++ [Scanning (S (current_task st)) total_tasks cat loc;
                                       Progress (S (current_task st)) total_tasks];
                 reads := S (reads st);
                 calls := calls st ++ [(cat, loc, res)] |}).
  assert (H1 : dedup_inv st1 (discovered st)).
  { destruct H as (Q & S & T). unfold dedup_inv, st1. cbn [queue seen_gen total_found].
    rewrite added_app. cbn. rewrite app_nil_r. auto. }
  assert (D : discovered (fold_left add_candidate res st1) = discovered st ++ res).
  { apply (discovered_snoc _ (cat, loc, res)).
    now rewrite (proj1 (add_candidates_calls res st1)). }
  rewrite D. now apply add_candidates_inv.
Qed.

Lemma mass_gen_inv net is_running total_tasks categories locations st :
  dedup_inv st (discovered st) ->
  let st' := fold_left
               (fun st cat => scan_locations net is_running total_tasks cat locations st)
               categories st in
  dedup_inv st' (discovered st').
Proof.
  revert st. induction categories as [|cat categories IH]; intros st H;
    cbn [fold_left]; [assumption|].
  apply IH. now apply scan_locations_inv.
Qed.

(** A key that is in the set stays in it. *)
Lemma add_candidate_keeps (st : gen_state) (r : candidate) (k : str) :
  mem k (seen_gen st) = true -> mem k (seen_gen (add_candidate st r)) = true.
Proof.
  intros H. unfold add_candidate. destruct (negb _); [|assumption].
  cbn [seen_gen]. unfold mem in *. cbn [existsb]. rewrite H. apply orb_true_r.
Qed.

Lemma add_candidates_keep (res : list candidate) (st : gen_state) (k : str) :
  mem k (seen_gen st) = true ->
  mem k (seen_gen (fold_left add_candidate res st)) = true.
Proof.
  revert st. induction res as [|r res IH]; intros st H; cbn [fold_left];
    [assumption|]. apply IH. now apply add_candidate_keeps.
Qed.

Lemma scan_locations_keeps net is_running total_tasks cat locations st k :
  mem k (seen_gen st) = true ->
  mem k (seen_gen (scan_locations net is_running total_tasks cat locations st)) = true.
Proof.
  revert st. induction locations as [|loc locations IH]; intros st H;
    cbn [scan_locations]; [assumption|].
  destruct (negb (is_running (reads st))); [exact H|].
  apply IH. now apply add_candidates_keep.
Qed.

(** C6: in a run of [_mass_gen_thread] a discovered lead is put on the
    queue exactly when no lead before it in the run has its key
    [name.lower() + "|" + clean_addr[:10].lower()]; the set of seen keys
    holds the keys of the leads handled so far and never loses one, so the
    leads on the queue have pairwise different keys and [total_found]
    counts them.  "Acme Store" at "12 Oak Ave, Timmins, ON" and "ACME STORE"
    at "12 Oak Avenue, Timmins, ON" have one key and give one lead. *)
Theorem discovery_dedup
  (net : nat -> request -> outcome response) (is_running : nat -> bool)
  (categories locations : list str) :
  let st := _mass_gen_thread net is_running categories locations in
  added (queue st) = map emitted_as (first_seen [] (discovered st))
  /\ NoDup (map (fun na => gen_key (fst na) (snd na)) (added (queue st)))
  /\ (forall r, key_of r = lower (cand_name r) ++ lit "|"
                              ++ lower (firstn 10 (fix_address (cand_address r))))
  /\ (forall k, In k (seen_gen st) <-> exists r, In r (discovered st) /\ key_of r = k)
  /\ total_found st = length (added (queue st))
  /\ (forall st0 r k, In k (seen_gen st0) -> In k (seen_gen (add_candidate st0 r)))
  /\ (forall st0 cat k, In k (seen_gen st0) ->
        In k (seen_gen (scan_locations net is_running
                          (length categories * length locations) cat locations st0)))
  /\ (forall st0 r,
        queue (add_candidate st0 r) =
        queue st0 ++ (if mem (key_of r) (seen_gen st0) then []
                      else [AddGen (cand_name r) (fix_address (cand_address r))]))
  /\ key_of {| cand_name := lit "Acme Store";
               cand_address := lit "12 Oak Ave, Timmins, ON" |}
     = key_of {| cand_name := lit "ACME STORE";
                 cand_address := lit "12 Oak Avenue, Timmins, ON" |}.
Proof.
  intros st.
  assert (I : dedup_inv st (discovered st)).
  { pose proof (mass_gen_inv net is_running (length categories * length locations)
                  categories locations
                  {| total_found := 0; current_task := 0; seen_gen := [];
                     queue := []; reads := 0; calls := [] |}) as H.
    cbv zeta in H. destruct H as (Q & S & T).
    { repeat split. }
    unfold dedup_inv, st, _mass_gen_thread, discovered.
    cbn [queue seen_gen total_found calls]. rewrite added_app. cbn [added flat_map app].
    rewrite app_nil_r. repeat split; assumption. }
  destruct I as (Q & S & T).
  split; [exact Q|].
  split.
  { rewrite Q, map_map. cbn [fst snd emitted_as]. fold key_of.
    apply (first_seen_fresh [] (discovered st)). }
  split; [reflexivity|].
  split.
  { intros k. rewrite <- mem_In, S, existsb_exists. split.
    - intros (r & Hr & E). exists r. apply eqs_eq in E. now split.
    - intros (r & Hr & E). exists r. split; [assumption | now apply eqs_eq]. }
  split; [exact T|].
  split.
  { intros st0 r k. rewrite <- !mem_In. apply add_candidate_keeps. }
  split.
  { intros st0 cat k. rewrite <- !mem_In. apply scan_locations_keeps. }
  split.
  { intros st0 r. unfold add_candidate. fold (key_of r).
    destruct (mem (key_of r) (seen_gen st0)); cbn [negb queue];
      [now rewrite app_nil_r | reflexivity]. }
  vm_compute. reflexivity.
Qed.

Lemma discovery_dedup_witness :
  let st := _mass_gen_thread net_acme (fun _ => true)
              [lit "Variety Stores"] [lit "Timmins, ON"] in
  length (discovered st) = 2
  /\ added (queue st) = [(lit "Acme Store", lit "12 Oak Ave, Timmins, ON")]
  /\ In (lit "acme store|12 oak ave") (seen_gen st).
Proof.
  intros st. split; [vm_compute; reflexivity|].
  destruct (discovery_dedup net_acme (fun _ => true)
              [lit "Variety Stores"] [lit "Timmins, ON"]) as (Q & _ & _ & K & _).
  split.
  - fold st in Q. rewrite Q. vm_compute. reflexivity.
  - apply K. exists {| cand_name := lit "ACME STORE";
                       cand_address := lit "12 Oak Avenue, Timmins, ON" |}.
    split; [vm_compute; right; left; reflexivity | vm_compute; reflexivity].
Defined.

(** ** Discovery: the stop flag *)

Section Stop.

Variable net : nat -> request -> outcome response.
Variable is_running : nat -> bool.
Variable total_tasks : nat.

(** The flag is up at the first [k] reads and down at every later one. *)
Variable k : nat.
Hypothesis stop_at : forall j, is_running j = (j <? k).

Lemma stop_inv_reads (st : gen_state) : stop_inv k st -> current_task st <= reads st.
Proof. intros (L & [E | (G & E)]); lia. Qed.

Lemma add_candidates_quiet {A} (f : event -> list A) res st :
  (forall n a, f (AddGen n a) = []) ->
  flat_map f (queue (fold_left add_candidate res st)) = flat_map f (queue st).
Proof.
  intros F. revert st. induction res as [|r res IH]; intros st; cbn [fold_left];
    [reflexivity|].
  rewrite IH. unfold add_candidate. destruct (negb _); [|reflexivity].
  cbn [queue]. rewrite flat_map_app. cbn. now rewrite F, app_nil_r.
Qed.

Lemma scan_locations_stop cat locations st :
  stop_inv k st ->
  let m := Nat.min (length locations) (k - current_task st) in
  let st' := scan_locations net is_running total_tasks cat locations st in
  stop_inv k st'
  /\ current_task st' = current_task st + m
  /\ called st' = called st ++ firstn m (map (fun loc => (cat, loc)) locations)
  /\ progress_of (queue st') =
     progress_of (queue st)
       ++ map (fun j => (j, total_tasks)) (seq (S (current_task st)) m)
  /\ scan_counts (queue st') =
     scan_counts (queue st)
       ++ map (fun j => (j, total_tasks)) (seq (S (current_task st)) m)
  /\ scan_places (queue st') =
     scan_places (queue st) ++ firstn m (map (fun loc => (cat, loc)) locations).
Proof.
  revert st. induction locations as [|loc locations IH]; intros st J;
    cbn [scan_locations length].
  - cbn. rewrite Nat.add_0_r, !app_nil_r. repeat split; try reflexivity; apply J.
  - rewrite stop_at. destruct (reads st <? k) eqn:R; cbn [negb].
    + apply Nat.ltb_lt in R. destruct J as (L & [E | (G & _)]); [|lia].
      set (res := fst (generate_yp (net (S (current_task st))) cat loc)).
      set (st1 := {| total_found := total_found st;
                     current_task := S (current_task st);
                     seen_gen := seen_gen st;
                     queue := queue st ++ [Scanning (S (current_task st)) total_tasks cat loc;
                                           Progress (S (current_task st)) total_tasks];
                     reads := S (reads st);
                     calls := calls st ++ [(cat, loc, res)] |}).
      set (st2 := fold_left add_candidate res st1).
      destruct (add_candidates_calls res st1) as (C1 & C2 & C3). fold st2 in C1, C2, C3.
      assert (J2 : stop_inv k st2).
      { unfold stop_inv. rewrite C2, C3. cbn. split; [lia | left; lia]. }
      destruct (IH st2 J2) as (J' & T' & C' & P' & S' & L').
      rewrite C3 in *. cbn [current_task st1] in *.
      assert (M : Nat.min (S (length locations)) (k - current_task st)
                  = S (Nat.min (length locations) (k - S (current_task st)))) by lia.
      cbv zeta. rewrite M. cbn [firstn map seq].
      split; [exact J'|]. split; [lia|].
      split.
      { rewrite C'. unfold called. rewrite C1. cbn [calls st1].
        rewrite map_app, <- app_assoc. reflexivity. }
      split.
      { rewrite P'. unfold st2, progress_of.
        rewrite add_candidates_quiet by reflexivity. cbn [queue st1].
        rewrite flat_map_app, <- app_assoc. reflexivity. }
      split.
      { rewrite S'. unfold st2, scan_counts.
        rewrite add_candidates_quiet by reflexivity. cbn [queue st1].
        rewrite flat_map_app, <- app_assoc. reflexivity. }
      rewrite L'. unfold st2, scan_places.
      rewrite add_candidates_quiet by reflexivity. cbn [queue st1].
      rewrite flat_map_app, <- app_assoc. reflexivity.
    + apply Nat.ltb_ge in R.
      assert (T : current_task st = k) by (destruct J as (L & [E | (_ & E)]); lia).
      cbv zeta. cbn [current_task queue calls called].
      replace (Nat.min (S (length locations)) (k - current_task st)) with 0 by lia.
      cbn. rewrite Nat.add_0_r, !app_nil_r. unfold called. cbn [calls].
      split; [unfold stop_inv; cbn; split; [lia | right; lia]|].
      repeat split; reflexivity.
Qed.

Lemma combos_cons cat categories locations :
  combos (cat :: categories) locations =
  map (fun loc => (cat, loc)) locations ++ combos categories locations.
Proof. reflexivity. Qed.

Lemma categories_stop categories locations st :
  stop_inv k st ->
  let m := Nat.min (length categories * length locations) (k - current_task st) in
  let st' := fold_left
               (fun st cat => scan_locations net is_running total_tasks cat locations st)
               categories st in
  stop_inv k st'
  /\ current_task st' = current_task st + m
  /\ called st' = called st ++ firstn m (combos categories locations)
  /\ progress_of (queue st') =
     progress_of (queue st)
       ++ map (fun j => (j, total_tasks)) (seq (S (current_task st)) m)
  /\ scan_counts (queue st') =
     scan_counts (queue st)
       ++ map (fun j => (j, total_tasks)) (seq (S (current_task st)) m)
  /\ scan_places (queue st') =
     scan_places (queue st) ++ firstn m (combos categories locations).
Proof.
  revert st. induction categories as [|cat categories IH]; intros st J;
    cbn [fold_left length].
  - cbn. rewrite Nat.add_0_r, !app_nil_r. repeat split; apply J.
  - destruct (scan_locations_stop cat locations st J) as (J1 & T1 & C1 & P1 & S1 & L1).
    set (st1 := scan_locations net is_running total_tasks cat locations st) in *.
    destruct (IH st1 J1) as (J2 & T2 & C2 & P2 & S2 & L2).
    remember (Nat.min (length locations) (k - current_task st)) as m1 eqn:E1.
    remember (Nat.min (length categories * length locations) (k - current_task st1))
      as m2 eqn:E2.
    assert (M : Nat.min (S (length categories) * length locations) (k - current_task st)
                = m1 + m2) by (cbn [Nat.mul]; lia).
    assert (F : firstn (m1 + m2) (combos (cat :: categories) locations)
                = firstn m1 (map (fun loc => (cat, loc)) locations)
                    ++ firstn m2 (combos categories locations)).
    { rewrite combos_cons, firstn_app, length_map.
      destruct (Nat.le_gt_cases (length locations) (k - current_task st)) as [G | G].
      - assert (E : m1 = length locations) by lia. rewrite E.
        rewrite (firstn_all2 (n := length locations + m2))
          by (rewrite length_map; lia).
        rewrite (firstn_all2 (n := length locations))
          by (rewrite length_map; lia).
        f_equal. f_equal. lia.
      - assert (E : m2 = 0) by lia. rewrite E, Nat.add_0_r.
        replace (m1 - length locations) with 0 by lia. reflexivity. }
    cbv zeta. rewrite M, F, seq_app, map_app.
    split; [exact J2|].
    split; [lia|].
    split; [rewrite C2, C1; now rewrite <- app_assoc|].
    split; [rewrite P2, P1, T1; now rewrite <- app_assoc|].
    split; [rewrite S2, S1, T1; now rewrite <- app_assoc|].
    rewrite L2, L1. now rewrite <- app_assoc.
Qed.

End Stop.

(** The flag is read at the start of every combination.  When it is up
    at the first [k] reads and down from then on, [k] no larger than the
    number of combinations, exactly the first [k] combinations are looked
    up, in the order of the loops; the queue holds the status and the
    progress of these [k] combinations, numbered 1 to [k], and of no other
    one, and then [done_gen]. *)
Lemma discovery_stop
  (net : nat -> request -> outcome response) (is_running : nat -> bool)
  (categories locations : list str) (k : nat) :
  (forall j, is_running j = (j <? k)) ->
  k <= length categories * length locations ->
  let n := length categories * length locations in
  let st := _mass_gen_thread net is_running categories locations in
  called st = firstn k (combos categories locations)
  /\ scan_places (queue st) = firstn k (combos categories locations)
  /\ scan_counts (queue st) = map (fun j => (j, n)) (seq 1 k)
  /\ progress_of (queue st) = map (fun j => (j, n)) (seq 1 k)
  /\ current_task st = k
  /\ k <= reads st
  /\ exists q, queue st = q ++ [DoneGen (total_found st)].
Proof.
  intros stop_at K n st.
  pose proof (categories_stop net is_running n k stop_at categories locations
                {| total_found := 0; current_task := 0; seen_gen := [];
                   queue := []; reads := 0; calls := [] |}) as H.
  cbv zeta in H. cbn [current_task queue called calls map app] in H.
  replace (Nat.min (length categories * length locations) (k - 0)) with k in H by lia.
  destruct H as (J & T & C & P & S & L).
  { unfold stop_inv. cbn. split; [lia | now left]. }
  apply stop_inv_reads in J. rewrite T in J.
  unfold st, _mass_gen_thread. cbn [queue calls current_task total_found called reads].
  unfold progress_of, scan_counts, scan_places in *.
  rewrite !flat_map_app. cbn [flat_map app]. rewrite !app_nil_r.
  fold n. repeat split; try assumption.
  eexists. reflexivity.
Qed.

(** C9: [break] leaves the loop over the locations only, and the flag is
    read again at the first location of the next category.  With two
    categories and two locations, the flag is seen down at the second
    combination, after one lookup; it is up again at the next read, and
    both combinations of the second category are looked up and reported:
    three lookups and the progress of three combinations, where one
    lookup and the progress of one combination were to be all. *)
Theorem discovery_resumes :
  let st := _mass_gen_thread net_acme down_once
              [lit "Variety Stores"; lit "Gas Stations"]
              [lit "Sudbury, ON"; lit "Timmins, ON"] in
  down_once 0 = true /\ down_once 1 = false
  /\ called st = [(lit "Variety Stores", lit "Sudbury, ON");
                  (lit "Gas Stations", lit "Sudbury, ON");
                  (lit "Gas Stations", lit "Timmins, ON")]
  /\ scan_places (queue st) = called st
  /\ progress_of (queue st) = [(1, 4); (2, 4); (3, 4)]
  /\ reads st = 4.
Proof. repeat split; vm_compute; reflexivity. Qed.

(** The same with a flag that is down at the first read and up at every
    later one. *)
Lemma break_leaves_inner_loop :
  called (_mass_gen_thread net_acme (fun j => 0 <? j)
            [lit "Variety Stores"; lit "Gas Stations"]
            [lit "Sudbury, ON"; lit "Timmins, ON"])
  = [(lit "Gas Stations", lit "Sudbury, ON"); (lit "Gas Stations", lit "Timmins, ON")].
Proof. vm_compute. reflexivity. Qed.

Lemma discovery_stop_witness :
  let categories := [lit "Variety Stores"; lit "Gas Stations"] in
  let locations := [lit "Sudbury, ON"; lit "Timmins, ON"; lit "Kenora, ON";
                    lit "Dryden, ON"; lit "Wawa, ON"] in
  let st := _mass_gen_thread net_acme (fun j => j <? 3) categories locations in
  length categories * length locations = 10
  /\ called st = [(lit "Variety Stores", lit "Sudbury, ON");
                  (lit "Variety Stores", lit "Timmins, ON");
                  (lit "Variety Stores", lit "Kenora, ON")]
  /\ progress_of (queue st) = [(1, 10); (2, 10); (3, 10)].
Proof.
  intros categories locations st. split; [reflexivity|].
  destruct (discovery_stop net_acme (fun j => j <? 3) categories locations 3)
    as (C & _ & _ & P & _).
  - intros j. reflexivity.
  - vm_compute. lia.
  - split; [exact C | exact P].
Defined.

(** ** Export: the values read back, the last row of a key, the order *)

Section Dict.
Context {V : Type}.
Implicit Types (d : list (str * V)) (k : str) (v : V).

Lemma dict_find_set d k v k' :
  dict_find (dict_set d k v) k' = if eqs k k' then Some v else dict_find d k'.
Proof.
  induction d as [|[k0 v0] d IH]; cbn [dict_set dict_find]; [reflexivity|].
  destruct (eqs k0 k) eqn:E; cbn [dict_find].
  - apply eqs_eq in E. subst k0. now destruct (eqs k k').
  - rewrite IH. destruct (eqs k0 k') eqn:E0; [|reflexivity].
    destruct (eqs k k') eqn:E1; [|reflexivity].
    apply eqs_eq in E0, E1. subst. now rewrite eqs_refl in E.
Qed.

Lemma dict_set_keys d k v k' :
  In k' (map fst (dict_set d k v)) <-> k' = k \/ In k' (map fst d).
Proof.
  induction d as [|[k0 v0] d IH]; cbn [dict_set map fst In].
  - intuition.
  - destruct (eqs k0 k) eqn:E; cbn [map fst In].
    + apply eqs_eq in E. subst k0. intuition.
    + rewrite IH. intuition.
Qed.

Lemma dict_set_NoDup d k v :
  NoDup (map fst d) -> NoDup (map fst (dict_set d k v)).
Proof.
  induction d as [|[k0 v0] d IH]; cbn [dict_set map fst]; intros N.
  - constructor; [intros [] | constructor].
  - inversion N as [|? ? N1 N2]; subst.
    destruct (eqs k0 k) eqn:E; cbn [map fst]; [now constructor|].
    constructor; [|now apply IH].
    rewrite dict_set_keys. intros [-> | I]; [|contradiction].
    now rewrite eqs_refl in E.
Qed.

Lemma dict_find_In d k v :
  NoDup (map fst d) -> (In (k, v) d <-> dict_find d k = Some v).
Proof.
  induction d as [|[k0 v0] d IH]; cbn [map fst In dict_find]; intros N.
  - split; [intros [] | discriminate].
  - inversion N as [|? ? N1 N2]; subst. specialize (IH N2).
    destruct (eqs k0 k) eqn:E.
    + apply eqs_eq in E. subst k0. split.
      * intros [H | H]; [congruence|]. exfalso. apply N1.
        apply in_map_iff. now exists (k, v).
      * intros H. left. congruence.
    + rewrite <- IH. split; [|now right].
      intros [H | H]; [|assumption]. injection H as -> ->.
      now rewrite eqs_refl in E.
Qed.

Lemma dict_set_Forall (P : str * V -> Prop) d k v :
  Forall P d -> P (k, v) -> Forall P (dict_set d k v).
Proof.
  induction d as [|[k0 v0] d IH]; cbn [dict_set]; intros F H.
  - now constructor.
  - inversion F; subst. destruct (eqs k0 k) eqn:E.
    + apply eqs_eq in E. subst k0. now constructor.
    + constructor; [assumption | now apply IH].
Qed.

End Dict.

(** *** Integers written and read back *)

Lemma uint_of_chars (u : Decimal.uint) : uint_of_digits (chars_of_uint u) = u.
Proof. induction u; cbn [chars_of_uint uint_of_digits]; rewrite ?IHu; reflexivity. Qed.

Lemma chars_of_uint_digits (u : Decimal.uint) : forallb is_digit (chars_of_uint u) = true.
Proof. induction u; cbn [chars_of_uint forallb]; rewrite ?IHu; reflexivity. Qed.

Lemma chars_of_uint_length (u : Decimal.uint) :
  length (chars_of_uint u) = Decimal.nb_digits u.
Proof. induction u; cbn [chars_of_uint length Decimal.nb_digits]; congruence. Qed.

Lemma uint_of_digits_length (ds : str) :
  Decimal.nb_digits (uint_of_digits ds) = length ds.
Proof.
  induction ds as [|c ds IH]; [reflexivity|]. cbn [uint_of_digits length].
  unfold digit.
  destruct (code c - 48) as [|[|[|[|[|[|[|[|[|n]]]]]]]]];
    cbn [Decimal.nb_digits]; congruence.
Qed.

Lemma int_digits_digits (b : bool) (ds : str) :
  forallb is_digit ds = true -> ds <> [] \/ b = true -> int_digits b ds = Some ds.
Proof.
  revert b. induction ds as [|c ds IH]; intros b F N; cbn [int_digits].
  - destruct N as [N | ->]; [congruence | reflexivity].
  - cbn [forallb] in F. apply andb_true_iff in F as [C F]. rewrite C.
    rewrite (IH true F) by now right. reflexivity.
Qed.

Lemma digit_not_space (c : ascii) : is_digit c = true -> is_c_space c = false.
Proof.
  unfold is_digit, is_c_space. rewrite andb_true_iff, !Nat.leb_le. intros [A B].
  apply orb_false_iff. split.
  - apply andb_false_iff. right. apply Nat.leb_gt. lia.
  - apply Nat.eqb_neq. lia.
Qed.

Lemma lstrip_c_same (s : str) :
  forallb (fun c => negb (is_c_space c)) s = true -> lstrip_c s = s.
Proof.
  destruct s as [|c s]; [reflexivity|]. cbn [forallb lstrip_c].
  intros H. apply andb_true_iff in H as [H _]. apply negb_true_iff in H.
  now rewrite H.
Qed.

Lemma strip_c_same (s : str) :
  forallb (fun c => negb (is_c_space c)) s = true ->
  rev (lstrip_c (rev (lstrip_c s))) = s.
Proof.
  intros H. rewrite (lstrip_c_same s H), lstrip_c_same; [apply rev_involutive|].
  apply forallb_forall. intros c I. apply in_rev in I.
  now apply (proj1 (forallb_forall _ _) H).
Qed.

Lemma digits_not_space (ds : str) :
  forallb is_digit ds = true -> forallb (fun c => negb (is_c_space c)) ds = true.
Proof.
  intros H. apply forallb_forall. intros c I.
  apply negb_true_iff, digit_not_space. now apply (proj1 (forallb_forall _ _) H).
Qed.

Lemma digit_not_sign (c : ascii) :
  is_digit c = true -> eqc c "-"%char = false /\ eqc c "+"%char = false.
Proof.
  intros D. split.
  - destruct (eqc c "-"%char) eqn:E; [|reflexivity].
    apply eqc_eq in E. subst c. discriminate D.
  - destruct (eqc c "+"%char) eqn:E; [|reflexivity].
    apply eqc_eq in E. subst c. discriminate D.
Qed.

(** The text of a decimal integer. *)
Lemma int_of_str_pos (u : Decimal.uint) :
  u <> Decimal.Nil -> Decimal.nb_digits u <= max_str_digits ->
  int_of_str (chars_of_uint u) = Some (Z.of_int (Decimal.Pos u)).
Proof.
  intros N L. unfold int_of_str.
  pose proof (chars_of_uint_digits u) as D.
  rewrite (strip_c_same _ (digits_not_space _ D)).
  assert (P : chars_of_uint u <> []) by (destruct u; try discriminate; congruence).
  pose proof (int_digits_digits false _ D (or_introl P)) as I.
  pose proof (chars_of_uint_length u) as Len.
  pose proof (uint_of_chars u) as U.
  destruct (chars_of_uint u) as [|c t]; [congruence|].
  assert (Dc : is_digit c = true) by (cbn in D; now apply andb_true_iff in D).
  destruct (digit_not_sign c Dc) as [-> ->]. cbn [fst snd].
  rewrite I, Len, U. apply Nat.leb_le in L. now rewrite L.
Qed.

Lemma int_of_str_neg (u : Decimal.uint) :
  u <> Decimal.Nil -> Decimal.nb_digits u <= max_str_digits ->
  int_of_str ("-"%char :: chars_of_uint u) = Some (Z.of_int (Decimal.Neg u)).
Proof.
  intros N L. unfold int_of_str.
  pose proof (chars_of_uint_digits u) as D.
  rewrite strip_c_same by (cbn [forallb]; now rewrite (digits_not_space _ D)).
  change (eqc "-"%char "-"%char) with true. cbn [fst snd].
  rewrite int_digits_digits; [|assumption|].
  - rewrite chars_of_uint_length. apply Nat.leb_le in L. rewrite L.
    now rewrite uint_of_chars.
  - left. destruct u; try discriminate. congruence.
Qed.

Lemma int_digits_nonempty (b : bool) (s ds : str) :
  int_digits b s = Some ds -> b = false -> ds <> [].
Proof.
  destruct s as [|c s]; cbn [int_digits]; intros H ->; [discriminate|].
  destruct (is_digit c).
  - destruct (int_digits true s); [|discriminate]. injection H as <-. discriminate.
  - rewrite andb_false_r in H. discriminate.
Qed.

Lemma int_of_str_value (s : str) (z : Z) :
  int_of_str s = Some z ->
  exists d : Decimal.int,
    z = Z.of_int d
    /\ match d with
       | Decimal.Pos u | Decimal.Neg u =>
           u <> Decimal.Nil /\ Decimal.nb_digits u <= max_str_digits
       end.
Proof.
  unfold int_of_str.
  set (signed := match rev (lstrip_c (rev (lstrip_c s))) with
                 | [] => _
                 | c :: body => _
                 end).
  destruct (int_digits false (snd signed)) as [ds|] eqn:E; [|discriminate].
  destruct (length ds <=? max_str_digits) eqn:L; [|discriminate].
  intros H. injection H as <-. apply Nat.leb_le in L.
  pose proof (int_digits_nonempty _ _ _ E eq_refl) as N.
  assert (U : uint_of_digits ds <> Decimal.Nil).
  { intros Z0. apply N. apply length_zero_iff_nil.
    rewrite <- uint_of_digits_length, Z0. reflexivity. }
  eexists. split; [reflexivity|].
  destruct (fst signed); rewrite uint_of_digits_length; now split.
Qed.

Lemma nzhead_nonnil_nb (u : Decimal.uint) :
  Decimal.nb_digits (Decimal.nzhead u) <= Decimal.nb_digits u.
Proof. apply DecimalFacts.nb_digits_nzhead. Qed.

(** An integer read from a cell is written as a text that is read as the
    same integer. *)
Lemma int_of_str_of_int (s : str) (z : Z) :
  int_of_str s = Some z -> int_of_str (str_of_int z) = Some z.
Proof.
  intros H. apply int_of_str_value in H as (d & -> & B).
  unfold str_of_int. rewrite DecimalZ.to_of.
  rewrite <- (DecimalZ.of_to (Z.of_int d)), DecimalZ.to_of.
  destruct d as [u|u]; destruct B as [N L]; cbn [Decimal.norm].
  - apply int_of_str_pos; [apply DecimalFacts.unorm_nonnil|].
    etransitivity; [now apply DecimalFacts.nb_digits_unorm | exact L].
  - destruct (Decimal.nzhead u) as [| | | | | | | | | |] eqn:E;
      try (rewrite <- E; apply int_of_str_neg;
           [rewrite E; discriminate
           | etransitivity; [apply DecimalFacts.nb_digits_nzhead | exact L]]).
    reflexivity.
Qed.

Lemma convert_readable (s : str) : readable (_convert_stringval s).
Proof.
  unfold readable, _convert_stringval.
  destruct (int_of_str s) as [z|] eqn:E; cbn [str_of].
  - now rewrite (int_of_str_of_int s z E).
  - now rewrite E.
Qed.

Lemma convert_text (s : str) : is_text s -> _convert_stringval s = TkStr s.
Proof. unfold is_text, _convert_stringval. now intros ->. Qed.


Lemma leb_total (a b : str) : leb a b = false -> leb b a = true.
Proof.
  revert b. induction a as [|x a IH]; intros [|y b]; cbn [leb];
    try discriminate; try reflexivity.
  destruct (code x <? code y) eqn:X; [discriminate|].
  destruct (code y <? code x) eqn:Y; [reflexivity|]. apply IH.
Qed.

(** *** The loop over the rows *)

Lemma export_loop_find (tree : list tree_row) :
  forall (d u : list (str * out_dict)) (k : str),
    export_loop tree d = inr u ->
    dict_find u k =
    match last_with k tree with
    | Some v => Some (item v)
    | None => dict_find d k
    end.
Proof.
  induction tree as [|v tree IH]; intros d u k H; cbn [export_loop last_with] in *.
  - now injection H as <-.
  - destruct (export_key (item v)) as [e|key] eqn:K; [discriminate|].
    rewrite (IH _ _ k H). destruct (last_with k tree); [reflexivity|].
    rewrite dict_find_set. unfold key_is. rewrite K.
    now destruct (eqs key k).
Qed.

Lemma export_loop_inv (tree : list tree_row) :
  forall d u : list (str * out_dict),
    NoDup (map fst d) -> Forall (fun e => export_key (snd e) = inr (fst e)) d ->
    export_loop tree d = inr u ->
    NoDup (map fst u) /\ Forall (fun e => export_key (snd e) = inr (fst e)) u.
Proof.
  induction tree as [|v tree IH]; intros d u N F H; cbn [export_loop] in H.
  - injection H as <-. now split.
  - destruct (export_key (item v)) as [e|key] eqn:K; [discriminate|].
    apply (IH _ _ (dict_set_NoDup d key (item v) N)); [|exact H].
    now apply dict_set_Forall.
Qed.

Lemma dict_set_length {V} (d : list (str * V)) (k : str) (v : V) :
  length (dict_set d k v) <= S (length d).
Proof.
  induction d as [|[k0 v0] d IH]; cbn; [lia|].
  destruct (eqs k0 k); cbn; lia.
Qed.

Lemma export_loop_length (tree : list tree_row) :
  forall d u : list (str * out_dict),
    export_loop tree d = inr u -> length u <= length tree + length d.
Proof.
  induction tree as [|v tree IH]; intros d u H; cbn [export_loop length] in *.
  - injection H as <-. lia.
  - destruct (export_key (item v)) as [e|key]; [discriminate|].
    apply IH in H. pose proof (dict_set_length d key (item v)). lia.
Qed.

Lemma export_loop_keys (tree : list tree_row) :
  forall d u : list (str * out_dict),
    export_loop tree d = inr u ->
    Forall (fun v => exists k, export_key (item v) = inr k) tree.
Proof.
  induction tree as [|v tree IH]; intros d u H; cbn [export_loop] in H;
    [constructor|].
  destruct (export_key (item v)) as [e|key] eqn:K; [discriminate|].
  constructor; [now exists key | now apply IH in H].
Qed.

Lemma export_loop_returns (tree : list tree_row) :
  forall d : list (str * out_dict),
    Forall (fun v => exists k, export_key (item v) = inr k) tree ->
    exists u, export_loop tree d = inr u.
Proof.
  induction tree as [|v tree IH]; intros d F; cbn [export_loop].
  - now exists d.
  - inversion F as [|? ? (k & K) F']; subst. rewrite K. now apply IH.
Qed.

Lemma last_with_none (k : str) (tree : list tree_row) :
  last_with k tree = None <-> forall w, In w tree -> key_is k w = false.
Proof.
  induction tree as [|a tree IH]; cbn [last_with In].
  - split; [intros _ w [] | reflexivity].
  - destruct (last_with k tree) as [w|] eqn:L.
    + split; [discriminate|]. intros H.
      assert (X : Some w = None); [|discriminate].
      apply IH. intros u I. apply H. now right.
    + destruct (key_is k a) eqn:E.
      * split; [discriminate|]. intros H.
        rewrite (H a) in E; [discriminate | now left].
      * split; [|reflexivity]. intros _ w [<- | I]; [exact E|].
        now apply (proj1 IH).
Qed.

Lemma last_with_spec (k : str) (tree : list tree_row) (v : tree_row) :
  last_with k tree = Some v <->
  exists pre post, tree = pre ++ v :: post /\ key_is k v = true
                   /\ forall w, In w post -> key_is k w = false.
Proof.
  split.
  - revert v. induction tree as [|a tree IH]; intros v; cbn [last_with];
      [discriminate|].
    destruct (last_with k tree) as [w|] eqn:L.
    + intros H. injection H as <-.
      destruct (IH w eq_refl) as (pre & post & -> & K & N).
      exists (a :: pre), post. auto.
    + destruct (key_is k a) eqn:E; [|discriminate].
      intros H. injection H as <-.
      exists [], tree. repeat split; [assumption|].
      now apply last_with_none.
  - intros (pre & post & -> & K & N).
    induction pre as [|b pre IH]; cbn [app last_with].
    + now rewrite (proj2 (last_with_none k post) N), K.
    + now rewrite IH.
Qed.

Lemma key_is_spec (k : str) (v : tree_row) :
  key_is k v = true <-> export_key (item v) = inr k.
Proof.
  unfold key_is. destruct (export_key (item v)) as [e|k']; [split; discriminate|].
  rewrite eqs_eq. split; congruence.
Qed.

(** *** The order of names and the sort *)

Lemma leb_str_le (a b : str) : leb a b = true <-> str_le a b.
Proof.
  revert b. induction a as [|x a IH]; intros [|y b]; cbn [leb].
  - split; [constructor | reflexivity].
  - split; [constructor | reflexivity].
  - split; [discriminate | intros H; inversion H].
  - destruct (code x <? code y) eqn:X.
    + apply Nat.ltb_lt in X. split; [now constructor | reflexivity].
    + apply Nat.ltb_ge in X. destruct (code y <? code x) eqn:Y.
      * apply Nat.ltb_lt in Y. split; [discriminate|].
        intros H. inversion H; subst; lia.
      * apply Nat.ltb_ge in Y. rewrite IH. split.
        -- intros H. assert (E : x = y).
           { unfold code in *. rewrite <- (ascii_nat_embedding x),
               <- (ascii_nat_embedding y). f_equal. lia. }
           subst y. now constructor.
        -- intros H. inversion H; subst; [lia | assumption].
Qed.

Lemma name_leb_total (a b : out_dict) :
  is_str (d_Name a) = is_str (d_Name b) ->
  name_leb a b = false -> name_leb b a = true.
Proof.
  unfold name_leb. destruct (d_Name a) as [x|x], (d_Name b) as [y|y];
    cbn [is_str]; try discriminate; intros _.
  - apply leb_total.
  - rewrite Z.leb_gt, Z.leb_le. lia.
Qed.

Lemma name_leb_le (a b : out_dict) :
  name_leb a b = true -> value_le (d_Name a) (d_Name b).
Proof.
  unfold name_leb, value_le. destruct (d_Name a), (d_Name b); try discriminate.
  - apply leb_str_le.
  - apply Z.leb_le.
Qed.

Lemma insert_by_name_perm (x : out_dict) (l : list out_dict) :
  Permutation (x :: l) (insert_by_name x l).
Proof.
  induction l as [|y l IH]; cbn [insert_by_name]; [reflexivity|].
  destruct (name_leb x y); [reflexivity|].
  rewrite perm_swap. now constructor.
Qed.

Lemma isort_perm (l : list out_dict) :
  Permutation l (fold_right insert_by_name [] l).
Proof.
  induction l as [|x l IH]; cbn [fold_right]; [constructor|].
  rewrite <- insert_by_name_perm. now constructor.
Qed.

Lemma insert_by_name_sorted (x : out_dict) (l : list out_dict) :
  (forall y, In y l -> is_str (d_Name x) = is_str (d_Name y)) ->
  Sorted (fun a b => name_leb a b = true) l ->
  Sorted (fun a b => name_leb a b = true) (insert_by_name x l).
Proof.
  induction l as [|y l IH]; cbn [insert_by_name]; intros K S.
  - repeat constructor.
  - destruct (name_leb x y) eqn:E.
    + constructor; [assumption|]. now constructor.
    + apply Sorted_inv in S as [S H].
      assert (T : name_leb y x = true)
        by (apply name_leb_total; [apply K; now left | exact E]).
      constructor; [apply IH; [intros z I; apply K; now right | exact S]|].
      destruct l as [|z l]; cbn [insert_by_name].
      * now constructor.
      * destruct (name_leb x z); constructor; [exact T | now inversion H].
Qed.

Lemma one_kind (l : list out_dict) :
  forallb (fun x => is_str (d_Name x)) l
  || forallb (fun x => negb (is_str (d_Name x))) l = true ->
  forall x y, In x l -> In y l -> is_str (d_Name x) = is_str (d_Name y).
Proof.
  intros H x y Ix Iy. apply orb_true_iff in H as [H | H];
    pose proof (proj1 (forallb_forall _ _) H x Ix) as X;
    pose proof (proj1 (forallb_forall _ _) H y Iy) as Y; cbn in X, Y.
  - congruence.
  - apply negb_true_iff in X, Y. congruence.
Qed.

Lemma isort_sorted (l : list out_dict) :
  (forall x y, In x l -> In y l -> is_str (d_Name x) = is_str (d_Name y)) ->
  Sorted (fun a b => name_leb a b = true) (fold_right insert_by_name [] l).
Proof.
  induction l as [|x l IH]; intros K; cbn [fold_right]; [constructor|].
  apply insert_by_name_sorted.
  - intros y I. apply K; [now left | right].
    now apply (Permutation_in _ (Permutation_sym (isort_perm l))).
  - apply IH. intros a b Ia Ib. apply K; now right.
Qed.

Lemma isort_fixed (l : list out_dict) :
  Sorted (fun a b => name_leb a b = true) l -> fold_right insert_by_name [] l = l.
Proof.
  induction l as [|x l IH]; intros S; [reflexivity|].
  apply Sorted_inv in S as [S H]. cbn [fold_right]. rewrite (IH S).
  destruct l as [|y l]; [reflexivity|]. cbn [insert_by_name].
  apply HdRel_inv in H. now rewrite H.
Qed.

Lemma one_kind_perm (l l' : list out_dict) :
  Permutation l l' ->
  forallb (fun x => is_str (d_Name x)) l
  || forallb (fun x => negb (is_str (d_Name x))) l
  = forallb (fun x => is_str (d_Name x)) l'
    || forallb (fun x => negb (is_str (d_Name x))) l'.
Proof.
  intros P.
  assert (G : forall f : out_dict -> bool, forallb f l = forallb f l').
  { intros f. destruct (forallb f l) eqn:A; symmetry.
    - apply forallb_forall. intros x I.
      apply (proj1 (forallb_forall _ _) A).
      now apply (Permutation_in _ (Permutation_sym P)).
    - destruct (forallb f l') eqn:B; [|reflexivity].
      assert (X : forallb f l = true); [|congruence].
      apply forallb_forall. intros x I.
      apply (proj1 (forallb_forall _ _) B). now apply (Permutation_in _ P). }
  now rewrite !G.
Qed.

(** *** What [export] returns *)

Lemma export_returns (path : str) (tree : list tree_row) (final : list csv_row) :
  export path tree = Some (inr final) ->
  exists unique rows,
    export_loop tree [] = inr unique
    /\ sorted_by_name (map snd unique) = inr rows
    /\ rows = fold_right insert_by_name [] (map snd unique)
    /\ final = map row_of rows
    /\ NoDup (map fst unique)
    /\ Forall (fun e => export_key (snd e) = inr (fst e)) unique
    /\ Permutation (map snd unique) rows
    /\ Sorted (fun a b => name_leb a b = true) rows.
Proof.
  unfold export. destruct path as [|c path]; [discriminate|].
  destruct (export_loop tree []) as [e|unique] eqn:L; [discriminate|].
  destruct (sorted_by_name (map snd unique)) as [e|rows] eqn:S; [discriminate|].
  intros H. injection H as <-. exists unique, rows.
  destruct (export_loop_inv tree [] unique) as [N F];
    [constructor | constructor | exact L |].
  unfold sorted_by_name in S.
  destruct (_ || _) eqn:K in S; [|discriminate]. injection S as <-.
  repeat split; try assumption.
  - unfold sorted_by_name. now rewrite K.
  - apply isort_perm.
  - apply isort_sorted. now apply one_kind.
Qed.

Lemma text_row_item (v : tree_row) :
  text_row v ->
  item v = {| d_Name := TkStr (v0 v); d_Address := TkStr (v1 v);
              d_Phone := TkStr (v2 v); d_Website := TkStr (v3 v) |}.
Proof.
  intros (A & B & C & D). unfold item. now rewrite !convert_text.
Qed.

Lemma text_row_key (v : tree_row) :
  text_row v -> export_key (item v) = inr (text_key v).
Proof.
  intros T. rewrite (text_row_item v T). unfold export_key, text_key.
  cbn [d_Phone d_Address]. now destruct (negb _).
Qed.

Lemma text_row_csv (v : tree_row) : text_row v -> csv_of v = cells_of v.
Proof. intros T. unfold csv_of. now rewrite (text_row_item v T). Qed.


Lemma export_loop_values (tree : list tree_row) (u : list (str * out_dict)) :
  export_loop tree [] = inr u ->
  forall k x, In (k, x) u <-> exists v, last_with k tree = Some v /\ x = item v.
Proof.
  intros L k x.
  destruct (export_loop_inv tree [] u) as [N _]; [constructor | constructor | exact L |].
  rewrite (dict_find_In u k x N), (export_loop_find tree [] u k L).
  destruct (last_with k tree) as [v|]; cbn [dict_find].
  - split.
    + intros H. injection H as <-. now exists v.
    + intros (w & E & ->). now injection E as <-.
  - split; [discriminate | intros (w & E & _); discriminate].
Qed.

Lemma Sorted_map {A B} (R : A -> A -> Prop) (R' : B -> B -> Prop) (f : A -> B)
      (l : list A) :
  (forall a b, In a l -> In b l -> R a b -> R' (f a) (f b)) ->
  Sorted R l -> Sorted R' (map f l).
Proof.
  induction l as [|a l IH]; intros H S; cbn [map]; [constructor|].
  apply Sorted_inv in S as [S Hd]. constructor.
  - apply IH; [|exact S]. intros x y Ix Iy. apply H; now right.
  - destruct l as [|b l]; cbn [map]; constructor.
    apply HdRel_inv in Hd. apply H; [now left | right; now left | exact Hd].
Qed.

Lemma int_of_str_NA : int_of_str (lit "N/A") = None.
Proof. reflexivity. Qed.

(** The key of a row with a phone, and the rows with that key. *)
Lemma phone_key (v : tree_row) :
  v2 v <> lit "N/A" ->
  export_key (item v) = inr (lit "PH:" ++ phone_read v)
  /\ phone_read v <> lit "N/A".
Proof.
  intros N. unfold export_key, phone_read, item, _convert_stringval.
  cbn [d_Phone d_Address].
  destruct (int_of_str (v2 v)) as [z|] eqn:E; cbn [str_of].
  - split; [reflexivity|]. intros Q.
    apply int_of_str_of_int in E. rewrite Q in E. discriminate E.
  - destruct (eqs (v2 v) (lit "N/A")) eqn:Q; [apply eqs_eq in Q; contradiction|].
    now split.
Qed.

Lemma key_phone (ph : str) (w : tree_row) :
  export_key (item w) = inr (lit "PH:" ++ ph) -> phone_read w = ph.
Proof.
  unfold export_key, phone_read, item, _convert_stringval.
  cbn [d_Phone d_Address].
  destruct (int_of_str (v2 w)) as [z|]; cbn [str_of].
  - intros H. now injection H.
  - destruct (negb (eqs (v2 w) (lit "N/A"))).
    + intros H. now injection H.
    + destruct (int_of_str (v1 w)); intros H; discriminate H.
Qed.

Lemma phone_read_NA (u : tree_row) : v2 u = lit "N/A" -> phone_read u = lit "N/A".
Proof. intros E. unfold phone_read. now rewrite E. Qed.


(** C7: a name made of digits is read back from the table as an integer,
    and [sorted] raises TypeError when it compares it with a name that is
    a string: [export] then writes no row at all, where the rows sorted by
    name were to be written.  A phone in the international form is read
    back as an integer too and written without its sign, so that the row
    written does not have the phone of the record it was made of. *)
Theorem export_digits_name :
  export (lit "leads.csv") digits_name = Some (inl TypeError)
  /\ map (fun v => d_Name (item v)) digits_name = [TkStr (lit "Zed Mart"); TkInt 411]
  /\ export (lit "leads.csv") plus_phone
     = Some (inr [ {| out_Name := lit "Acme Store";
                      out_Address := lit "12 Oak Ave, Timmins, ON";
                      out_Phone := lit "17055551234";
                      out_Website := lit "N/A" |} ]).
Proof. repeat split; vm_compute; reflexivity. Qed.

(** On a table whose cells are all read back as text [export] does what
    is said of it: the key of a row is "PH:" and the phone when the phone
    is not "N/A", "AD:" and the first fifteen characters of the address
    otherwise; the rows written are in the order of their names; a row is
    written exactly when it is made of the four cells of the last row of
    the tree with some key; no two rows written have one key. *)
Lemma export_last_wins (path : str) (tree : list tree_row) :
  path <> [] -> Forall text_row tree ->
  exists final,
    export path tree = Some (inr final)
    /\ Sorted (fun a b => str_le (out_Name a) (out_Name b)) final
    /\ (forall o, In o final <->
          exists pre v post,
            tree = pre ++ v :: post
            /\ (forall w, In w post -> text_key w <> text_key v)
            /\ o = cells_of v)
    /\ NoDup (map csv_key final).
Proof.
  intros P T.
  assert (TI : forall v, In v tree -> text_row v) by now apply Forall_forall.
  destruct (export_loop_returns tree []) as (unique & L).
  { apply Forall_forall. intros v I. exists (text_key v).
    now apply text_row_key, TI. }
  pose proof (export_loop_values tree unique L) as V.
  destruct (export_loop_inv tree [] unique) as [N F];
    [constructor | constructor | exact L |].
  assert (LW : forall k v, last_with k tree = Some v ->
                 exists pre post, tree = pre ++ v :: post /\ text_key v = k
                   /\ (forall w, In w post -> text_key w <> k) /\ text_row v).
  { intros k v H. apply last_with_spec in H as (pre & post & E & K & NK).
    assert (Tv : text_row v) by (apply TI; rewrite E; apply in_elt).
    exists pre, post. split; [exact E|].
    apply key_is_spec in K. rewrite (text_row_key v Tv) in K. injection K as K.
    split; [exact K|]. split; [|exact Tv].
    intros w I Q. specialize (NK w I).
    assert (Tw : text_row w)
      by (apply TI; rewrite E; apply in_or_app; right; now right).
    assert (X : key_is k w = true)
      by (apply key_is_spec; rewrite (text_row_key w Tw); congruence).
    congruence. }
  assert (Str : forall x, In x (map snd unique) -> exists v, text_row v /\ x = item v).
  { intros x I. apply in_map_iff in I as ([k x'] & <- & I). cbn [snd].
    apply V in I as (v & H & ->). apply LW in H as (_ & _ & _ & _ & _ & Tv).
    now exists v. }
  assert (K : forallb (fun x => is_str (d_Name x)) (map snd unique) = true).
  { apply forallb_forall. intros x I. apply Str in I as (v & Tv & ->).
    now rewrite (text_row_item v Tv). }
  set (rows := fold_right insert_by_name [] (map snd unique)).
  assert (Pm : Permutation (map snd unique) rows) by apply isort_perm.
  assert (E : export path tree = Some (inr (map row_of rows))).
  { unfold export. destruct path as [|c path]; [congruence|].
    rewrite L. unfold sorted_by_name. now rewrite K. }
  exists (map row_of rows). split; [exact E|]. split; [|split].
  - apply Sorted_map with (R := fun a b => name_leb a b = true).
    + intros a b Ia Ib H.
      apply (Permutation_in _ (Permutation_sym Pm)), Str in Ia as (va & Ta & ->).
      apply (Permutation_in _ (Permutation_sym Pm)), Str in Ib as (vb & Tb & ->).
      apply name_leb_le in H. rewrite (text_row_item va Ta), (text_row_item vb Tb) in *.
      exact H.
    + apply isort_sorted. apply one_kind. now rewrite K.
  - intros o. rewrite in_map_iff. split.
    + intros (x & <- & I). apply (Permutation_in _ (Permutation_sym Pm)) in I.
      apply in_map_iff in I as ([k x'] & <- & I). cbn [snd].
      apply V in I as (v & H & ->).
      apply LW in H as (pre & post & Et & Ek & NK & Tv).
      exists pre, v, post. split; [exact Et|]. split.
      * intros w I. rewrite Ek. now apply NK.
      * fold (csv_of v). now apply text_row_csv.
    + intros (pre & v & post & Et & NK & ->).
      assert (Tv : text_row v) by (apply TI; rewrite Et; apply in_elt).
      exists (item v). split; [fold (csv_of v); now apply text_row_csv|].
      apply (Permutation_in _ Pm). apply in_map_iff.
      exists (text_key v, item v). split; [reflexivity|].
      apply V. exists v. split; [|reflexivity].
      apply last_with_spec. exists pre, post. split; [exact Et|]. split.
      * apply key_is_spec. now apply text_row_key.
      * intros w I. destruct (key_is (text_key v) w) eqn:Q; [|reflexivity].
        apply key_is_spec in Q.
        assert (Tw : text_row w)
          by (apply TI; rewrite Et; apply in_or_app; right; now right).
        rewrite (text_row_key w Tw) in Q. injection Q as Q.
        now apply NK in I.
  - apply (Permutation_NoDup (l := map csv_key (map row_of (map snd unique)))).
    + now apply Permutation_map, Permutation_map.
    + replace (map csv_key (map row_of (map snd unique))) with (map fst unique);
        [assumption|].
      rewrite !map_map. apply map_ext_in. intros [k x] I. cbn [fst snd].
      apply V in I as (v & H & ->).
      apply LW in H as (_ & _ & _ & <- & _ & Tv).
      fold (csv_of v). rewrite (text_row_csv v Tv). reflexivity.
Qed.

Lemma export_last_wins_witness :
  export (lit "leads.csv") zed_acme
  = Some (inr [ {| out_Name := lit "Acme Store";
                   out_Address := lit "12 Oak Ave, Timmins, ON";
                   out_Phone := lit "N/A"; out_Website := lit "N/A" |};
                {| out_Name := lit "Zed Mart";
                   out_Address := lit "5 Elm St, Timmins, ON";
                   out_Phone := lit "(705) 555-0000"; out_Website := lit "N/A" |} ])
  /\ exists final,
       export (lit "leads.csv") two_with_one_phone = Some (inr final)
       /\ In (cells_of (nth 1 two_with_one_phone (nth 0 two_with_one_phone
                 {| v0 := []; v1 := []; v2 := []; v3 := []; v4 := [] |}))) final
       /\ length final = 1.
Proof.
  split; [vm_compute; reflexivity|].
  destruct (export_last_wins (lit "leads.csv") two_with_one_phone)
    as (final & E & _ & M & _).
  - discriminate.
  - repeat constructor; reflexivity.
  - exists final. split; [exact E|]. split.
    + apply M. eexists [_], _, []. split; [reflexivity|].
      split; [intros w []| reflexivity].
    + vm_compute in E. injection E as <-. reflexivity.
Defined.


(** ** Enrichment: one result for every row whose processing returns *)

Section EnrichFacts.

Variable net : nat -> request -> outcome response.
Variable redirect_of : str -> outcome (option str).

Lemma process_idx send (r : row) (i : nat) (res : enriched) :
  fst (_process send redirect_of r i) = inr res -> idx res = i.
Proof.
  unfold _process, keep_branch, lookup_branch, bind, ret.
  repeat match goal with
         | |- context [match ?x with _ => _ end] => destruct x
         end;
    cbn [fst]; intros H; inversion H; reflexivity.
Qed.

Lemma process_lead send (r : row) (i : nat) :
  is_lead r = true -> exists res, fst (_process send redirect_of r i) = inr res.
Proof.
  unfold is_lead, _process, keep_branch, lookup_branch, bind, ret.
  repeat match goal with
         | |- context [match ?x with _ => _ end] => destruct x
         end;
    cbn [fst]; intros H; try discriminate; eexists; reflexivity.
Qed.

Lemma futures_from_length (csv_data : list row) (i : nat) :
  length (futures_from net redirect_of i csv_data) = length csv_data.
Proof.
  revert i. induction csv_data as [|r csv_data IH]; intros i; cbn;
    [reflexivity | now rewrite IH].
Qed.

Lemma futures_from_nth (csv_data : list row) (i j : nat) (r : row) :
  nth_error csv_data j = Some r ->
  nth_error (futures_from net redirect_of i csv_data) j
  = Some (fst (_process (net (i + j)) redirect_of r (i + j))).
Proof.
  revert i j. induction csv_data as [|a csv_data IH]; intros i [|j]; cbn;
    try discriminate.
  - intros H. injection H as ->. now rewrite Nat.add_0_r.
  - intros H. rewrite (IH (S i) j H). now rewrite Nat.add_succ_r.
Qed.

Lemma successes_from (csv_data : list row) (i : nat) (res : enriched) :
  In res (successes (futures_from net redirect_of i csv_data)) ->
  exists j r, nth_error csv_data j = Some r /\ idx res = i + j
              /\ fst (_process (net (i + j)) redirect_of r (i + j)) = inr res.
Proof.
  revert i. induction csv_data as [|a csv_data IH]; intros i; cbn; [intros []|].
  intros H. apply in_app_or in H as [H | H].
  - exists 0, a. rewrite Nat.add_0_r.
    destruct (fst (_process (net i) redirect_of a i)) as [e|res'] eqn:E;
      [destruct H|].
    destruct H as [<- | []]. repeat split. now apply process_idx in E.
  - destruct (IH (S i) H) as (j & r & N & I & P).
    exists (S j), r. rewrite Nat.add_succ_r. auto.
Qed.

Lemma successes_leads (csv_data : list row) (i : nat) :
  forallb is_lead csv_data = true ->
  map idx (successes (futures_from net redirect_of i csv_data))
  = seq i (length csv_data).
Proof.
  revert i. induction csv_data as [|a csv_data IH]; intros i; cbn; [reflexivity|].
  intros H. apply andb_true_iff in H as [H1 H2].
  destruct (process_lead (net i) a i H1) as (res & E). rewrite E. cbn.
  rewrite (process_idx _ _ _ _ E). f_equal. now apply IH.
Qed.

Lemma updates_app (q1 q2 : list event) : updates (q1 ++ q2) = updates q1 ++ updates q2.
Proof. unfold updates. apply flat_map_app. Qed.

Lemma enrich_loop_updates is_running total completed st :
  (forall j, is_running j = true) ->
  updates (en_queue (enrich_loop is_running total completed st))
  = updates (en_queue st) ++ successes completed.
Proof.
  intros R. revert st. induction completed as [|f completed IH]; intros st;
    cbn [enrich_loop successes flat_map].
  - now rewrite app_nil_r.
  - rewrite R. cbn [negb]. destruct f as [e|res]; rewrite IH; cbn [en_queue].
    + reflexivity.
    + rewrite !updates_app, <- app_assoc.
      destruct (_ || _); reflexivity.
Qed.

End EnrichFacts.

(** C8: a line with fewer fields than the header gets no result.  Its
    phone is [None], its future raises TypeError at [len(None)] in
    [_process], the exception is passed over in [_enrich_thread], and the
    run ends without an [update] for the one record it was given,
    whatever the network. *)
Theorem enrich_drops_short_row
  (net : nat -> request -> outcome response)
  (redirect_of : str -> outcome (option str)) :
  let csv_data := [short_row] in
  let completed := futures net redirect_of csv_data in
  completed = [inl TypeError]
  /\ _enrich_thread (fun _ => true) csv_data completed = [DoneEnrich]
  /\ updates (_enrich_thread (fun _ => true) csv_data completed) = []
  /\ length (updates (_enrich_thread (fun _ => true) csv_data completed))
     <> length csv_data.
Proof. repeat split. discriminate. Qed.

(** Without a stop, and whatever the order in which the
    futures complete, [_enrich_thread] puts on the queue exactly one
    [update] for every row whose [_process] returns, and none for a row
    whose [_process] raises; every tuple carries the index of the row it
    was computed from.  The processing of a lead record always returns, so
    a list of lead records gets one result for each index. *)
Lemma enrich_results
  (net : nat -> request -> outcome response)
  (redirect_of : str -> outcome (option str)) (is_running : nat -> bool)
  (csv_data : list row) (completed : list (exn + enriched)) :
  (forall j, is_running j = true) ->
  Permutation completed (futures net redirect_of csv_data) ->
  let q := _enrich_thread is_running csv_data completed in
  Permutation (updates q) (successes (futures net redirect_of csv_data))
  /\ length (futures net redirect_of csv_data) = length csv_data
  /\ (forall j r, nth_error csv_data j = Some r ->
        nth_error (futures net redirect_of csv_data) j
        = Some (fst (_process (net j) redirect_of r j)))
  /\ (forall res, In res (updates q) ->
        exists r, nth_error csv_data (idx res) = Some r
                  /\ fst (_process (net (idx res)) redirect_of r (idx res)) = inr res)
  /\ (forallb is_lead csv_data = true ->
        Permutation (map idx (updates q)) (seq 0 (length csv_data)))
  /\ exists q', q = q' ++ [DoneEnrich].
Proof.
  intros R P q.
  assert (U : updates q = successes completed).
  { unfold q, _enrich_thread. rewrite updates_app.
    rewrite enrich_loop_updates by assumption. cbn. now rewrite app_nil_r. }
  assert (PU : Permutation (updates q) (successes (futures net redirect_of csv_data))).
  { rewrite U. unfold successes. now apply Permutation_flat_map. }
  split; [exact PU|].
  split; [apply futures_from_length|].
  split; [intros j r H; apply (futures_from_nth net redirect_of csv_data 0 j r H)|].
  split.
  { intros res I. apply (Permutation_in _ PU) in I.
    apply successes_from in I as (j & r & N & E & Pr). cbn in E, Pr.
    exists r. rewrite E. auto. }
  split.
  { intros L. rewrite (Permutation_map idx PU).
    unfold futures. now rewrite successes_leads. }
  eexists. reflexivity.
Qed.

Lemma enrich_results_witness :
  let csv_data :=
    [ {| Name := Text (lit "Acme Store"); Address := Text (lit "12 Oak Ave, Timmins, ON");
         Phone := Absent; Website := Absent |};
      short_row;
      {| Name := Text (lit "Pine Variety Store");
         Address := Text (lit "123 Main St, ON P3B1A1");
         Phone := Text (lit "(705) 555-1234"); Website := Absent |} ] in
  let completed := rev (futures net_acme no_redirect csv_data) in
  map idx (updates (_enrich_thread (fun _ => true) csv_data completed)) = [2; 0]
  /\ Permutation (updates (_enrich_thread (fun _ => true) csv_data completed))
                 (successes (futures net_acme no_redirect csv_data)).
Proof.
  intros csv_data completed. split; [vm_compute; reflexivity|].
  apply (enrich_results net_acme no_redirect (fun _ => true) csv_data completed).
  - reflexivity.
  - symmetry. apply Permutation_rev.
Defined.

(** ** [fix_address] twice *)

(** *** Characters up to case *)

Ltac by_cases_on c :=
  destruct c as [[] [] [] [] [] [] [] []]; vm_compute; reflexivity.

Lemma lower_c_idem (c : ascii) : lower_c (lower_c c) = lower_c c.
Proof. by_cases_on c. Qed.
Lemma lower_upper_c (c : ascii) : lower_c (upper_c c) = lower_c c.
Proof. by_cases_on c. Qed.
Lemma upper_c_idem (c : ascii) : upper_c (upper_c c) = upper_c c.
Proof. by_cases_on c. Qed.
Lemma is_alpha_lower_c (c : ascii) : is_alpha (lower_c c) = is_alpha c.
Proof. by_cases_on c. Qed.
Lemma is_alpha_upper_c (c : ascii) : is_alpha (upper_c c) = is_alpha c.
Proof. by_cases_on c. Qed.
Lemma is_digit_lower_c (c : ascii) : is_digit (lower_c c) = is_digit c.
Proof. by_cases_on c. Qed.
Lemma is_space_lower_c (c : ascii) : is_space (lower_c c) = is_space c.
Proof. by_cases_on c. Qed.
Lemma is_comma_lower_c (c : ascii) : eqc (lower_c c) ","%char = eqc c ","%char.
Proof. by_cases_on c. Qed.
Lemma is_newline_lower_c (c : ascii) : (code (lower_c c) =? 10) = (code c =? 10).
Proof. by_cases_on c. Qed.

Lemma caseless_eq (p : ascii -> bool) (a b : ascii) :
  caseless p -> lower_c a = lower_c b -> p a = p b.
Proof. intros H E. now rewrite <- (H a), <- (H b), E. Qed.

(** *** [title] *)

Lemma lower_title_from (b : bool) (s : str) : lower (title_from b s) = lower s.
Proof.
  revert b. induction s as [|c s IH]; intros b; cbn; [reflexivity|].
  unfold lower in IH. rewrite IH.
  destruct b; now rewrite ?lower_c_idem, ?lower_upper_c.
Qed.

Lemma lower_title (s : str) : lower (title s) = lower s.
Proof. apply lower_title_from. Qed.

Lemma title_from_idem (b : bool) (s : str) :
  title_from b (title_from b s) = title_from b s.
Proof.
  revert b. induction s as [|c s IH]; intros b; cbn; [reflexivity|].
  destruct b.
  - now rewrite lower_c_idem, is_alpha_lower_c, IH.
  - now rewrite upper_c_idem, is_alpha_upper_c, IH.
Qed.

Lemma title_idem (s : str) : title (title s) = title s.
Proof. apply title_from_idem. Qed.

(** *** A letter, a digit and a letter in a row *)

Lemma has_ldl_cons (c : ascii) (s : str) :
  has_ldl (c :: s) = false -> starts_ldl (c :: s) = false /\ has_ldl s = false.
Proof. cbn [has_ldl]. intros H. now apply orb_false_iff in H. Qed.

Lemma has_ldl_skipn (n : nat) (s : str) :
  has_ldl s = false -> has_ldl (skipn n s) = false.
Proof.
  revert s. induction n as [|n IH]; intros s H; [assumption|].
  destruct s as [|c s]; [reflexivity|]. apply IH. now apply has_ldl_cons in H.
Qed.

Lemma has_ldl_app (a b : str) :
  has_ldl (a ++ b) = false -> has_ldl a = false /\ has_ldl b = false.
Proof.
  induction a as [|x a IH]; intros H.
  - now split.
  - cbn [app] in H. apply has_ldl_cons in H as [S H].
    destruct (IH H) as [Ha Hb]. split; [|assumption].
    cbn [has_ldl]. rewrite Ha, orb_false_r.
    destruct a as [|y [|z a]]; try reflexivity. exact S.
Qed.

(** A character that is neither a letter nor a digit keeps the two sides
    apart. *)
Lemma has_ldl_apart (a b : str) (c : ascii) :
  is_alpha c = false -> is_digit c = false ->
  has_ldl a = false -> has_ldl b = false -> has_ldl (a ++ c :: b) = false.
Proof.
  intros A D Ha Hb. induction a as [|x a IH]; cbn [app].
  - cbn [has_ldl]. rewrite Hb, orb_false_r.
    destruct b as [|y [|z b]]; try reflexivity. cbn. now rewrite A.
  - apply has_ldl_cons in Ha as [S Ha]. cbn [has_ldl].
    rewrite (IH Ha), orb_false_r.
    destruct a as [|y [|z a]]; cbn [app starts_ldl].
    + destruct b; [reflexivity|]. now rewrite D, andb_false_r.
    + now rewrite A, andb_false_r.
    + exact S.
Qed.

Lemma has_ldl_same (s t : str) : lower s = lower t -> has_ldl s = has_ldl t.
Proof.
  assert (St : forall s t, lower s = lower t -> starts_ldl s = starts_ldl t).
  { intros [|a1 [|a2 [|a3 s']]] [|b1 [|b2 [|b3 t']]] E; try discriminate;
      try reflexivity.
    cbn in E. injection E as E1 E2 E3 _. cbn.
    now rewrite (caseless_eq is_alpha a1 b1 is_alpha_lower_c E1),
      (caseless_eq is_digit a2 b2 is_digit_lower_c E2),
      (caseless_eq is_alpha a3 b3 is_alpha_lower_c E3). }
  revert t. induction s as [|a s IH]; intros [|b t] E; try discriminate;
    [reflexivity|].
  cbn [has_ldl]. rewrite (St _ _ E). f_equal. apply IH.
  cbn in E. now injection E.
Qed.

(** *** Patterns that find nothing *)

Lemma search_cons_none (ic : bool) (r : regex) (c : ascii) (s : str) :
  search ic r (c :: s) = None ->
  match_at ic r (c :: s) = None /\ search ic r s = None.
Proof.
  cbn [search]. destruct (match_at ic r (c :: s)); [discriminate | now split].
Qed.

Lemma search_none_intro (ic : bool) (r : regex) (s : str) :
  (forall n, match_at ic r (skipn n s) = None) -> search ic r s = None.
Proof.
  induction s as [|c s IH]; intros H.
  - cbn [search]. now rewrite (H 0 : match_at ic r [] = None).
  - cbn [search]. rewrite (H 0 : match_at ic r (c :: s) = None).
    apply IH. intros n. apply (H (S n)).
Qed.

Lemma sub_nothing (ic : bool) (r : regex) (repl : captures -> str) (s : str) :
  search ic r s = None -> Re.sub ic r repl s = s.
Proof.
  unfold Re.sub. induction s as [|c s IH]; intros H; [reflexivity|].
  apply search_cons_none in H as [M H]. cbn [sub_from]. rewrite M.
  now rewrite IH.
Qed.

Lemma lit_match_skipn (ic : bool) (l s s1 : str) :
  lit_match ic l s = Some s1 -> s1 = skipn (length l) s.
Proof.
  revert s. induction l as [|x l IH]; intros s; cbn [lit_match].
  - intros H. now injection H.
  - destruct s as [|y s]; [discriminate|].
    destruct (same ic x y); [|discriminate]. apply IH.
Qed.

Lemma run_ldl_none {R} (ic : bool) (t : str) (m : captures)
      (k : str -> captures -> option R) :
  starts_ldl t = false -> run ic ldl t m k = None.
Proof.
  destruct t as [|c1 [|c2 [|c3 t]]]; cbn; intros H;
    try reflexivity; try (destruct (is_alpha c1); reflexivity).
  - destruct (is_alpha c1); [|reflexivity]. now destruct (is_digit c2).
  - destruct (is_alpha c1); [|reflexivity].
    destruct (is_digit c2); [|reflexivity].
    destruct (is_alpha c3); [discriminate | reflexivity].
Qed.

Lemma has_ldl_starts (t : str) : has_ldl t = false -> starts_ldl t = false.
Proof.
  destruct t as [|c t]; [reflexivity|]. intros H. now apply has_ldl_cons in H.
Qed.

Lemma search_ldl (s : str) : search false ldl s = None <-> has_ldl s = false.
Proof.
  split.
  - induction s as [|c s IH]; intros H; [reflexivity|].
    apply search_cons_none in H as [M H]. cbn [has_ldl]. rewrite (IH H), orb_false_r.
    destruct s as [|c2 [|c3 s]]; try reflexivity.
    cbn in M |- *. destruct (is_alpha c); [|reflexivity].
    destruct (is_digit c2); [|reflexivity].
    destruct (is_alpha c3); [discriminate | reflexivity].
  - intros H. apply search_none_intro. intros n. unfold match_at.
    apply run_ldl_none, has_ldl_starts. now apply has_ldl_skipn.
Qed.

Lemma search_postal_none (ic : bool) (s : str) :
  has_ldl s = false -> search ic re_postal s = None.
Proof.
  intros H. apply search_none_intro. intros n. unfold match_at, re_postal.
  cbn [run]. apply run_ldl_none, has_ldl_starts. now apply has_ldl_skipn.
Qed.

Lemma search_glued_none (s : str) :
  has_ldl s = false -> search true re_glued s = None.
Proof.
  intros H. apply search_none_intro. intros n.
  assert (Hn : has_ldl (skipn n s) = false) by now apply has_ldl_skipn.
  generalize dependent (skipn n s). clear. intros t Ht.
  assert (K : forall l t1, lit_match true l t = Some t1 -> starts_ldl t1 = false).
  { intros l t1 E. apply lit_match_skipn in E. subst t1.
    now apply has_ldl_starts, has_ldl_skipn. }
  unfold match_at, re_glued, province. cbn [run].
  destruct (lit_match true (lit "ON") t) as [t1|] eqn:E1.
  { rewrite run_ldl_none by (eapply K; eassumption).
    destruct (lit_match true (lit "On") t) as [t2|] eqn:E2.
    { rewrite run_ldl_none by (eapply K; eassumption).
      destruct (lit_match true (lit "Ontario") t) as [t3|] eqn:E3; [|reflexivity].
      now rewrite run_ldl_none by (eapply K; eassumption). }
    destruct (lit_match true (lit "Ontario") t) as [t3|] eqn:E3; [|reflexivity].
    now rewrite run_ldl_none by (eapply K; eassumption). }
  destruct (lit_match true (lit "On") t) as [t2|] eqn:E2.
  { rewrite run_ldl_none by (eapply K; eassumption).
    destruct (lit_match true (lit "Ontario") t) as [t3|] eqn:E3; [|reflexivity].
    now rewrite run_ldl_none by (eapply K; eassumption). }
  destruct (lit_match true (lit "Ontario") t) as [t3|] eqn:E3; [|reflexivity].
  now rewrite run_ldl_none by (eapply K; eassumption).
Qed.

(** *** Matching under re.IGNORECASE does not see the case *)

Lemma lower_cons_inv (a b : ascii) (s t : str) :
  lower (a :: s) = lower (b :: t) -> lower_c a = lower_c b /\ lower s = lower t.
Proof. cbn. intros H. now injection H. Qed.

Lemma is_some_orelse {A} (x y : option A) :
  is_some (match x with Some v => Some v | None => y end) = is_some x || is_some y.
Proof. now destruct x. Qed.

Lemma lit_match_same (l s t : str) :
  lower s = lower t ->
  match lit_match true l s, lit_match true l t with
  | Some s1, Some t1 => lower s1 = lower t1
  | None, None => True
  | _, _ => False
  end.
Proof.
  revert s t. induction l as [|x l IH]; intros s t E; cbn [lit_match];
    [assumption|].
  destruct s as [|a s], t as [|b t]; try discriminate; [exact I|].
  apply lower_cons_inv in E as [E1 E2]. unfold same. rewrite E1.
  destruct (eqc (lower_c x) (lower_c b)); [now apply IH | exact I].
Qed.

Lemma at_end_same (s t : str) : lower s = lower t -> at_end s = at_end t.
Proof.
  destruct s as [|a [|a' s]], t as [|b [|b' t]]; try discriminate;
    try reflexivity.
  intros E. apply lower_cons_inv in E as [E _]. cbn.
  exact (caseless_eq (fun c => code c =? 10) a b is_newline_lower_c E).
Qed.

Section Caseless.
Context {R : Type}.
Implicit Types (k : str -> captures -> option R) (j : str -> option R).

Lemma star_same (p : ascii -> bool) (s t : str) j j' :
  caseless p -> lower s = lower t ->
  (forall s1 t1, lower s1 = lower t1 -> is_some (j s1) = is_some (j' t1)) ->
  is_some (star p s j) = is_some (star p t j').
Proof.
  intros P. revert t. induction s as [|a s IH]; intros [|b t] E K;
    try discriminate; cbn [star].
  - now apply K.
  - pose proof E as E0. apply lower_cons_inv in E as [E1 E2].
    rewrite (caseless_eq p a b P E1). destruct (p b); [|now apply K].
    rewrite !is_some_orelse. f_equal; [now apply IH | now apply K].
Qed.

Lemma run_same (r : regex) :
  caseless_re r ->
  forall (s t : str) (m m' : captures) k k',
    lower s = lower t ->
    (forall s1 t1 m1 m1', lower s1 = lower t1 ->
       is_some (k s1 m1) = is_some (k' t1 m1')) ->
    is_some (run true r s m k) = is_some (run true r t m' k').
Proof.
  induction r as [c0|l|p|r1 IH1 r2 IH2|r1 IH1 r2 IH2|r1 IH1|p|p|n r1 IH1|];
    intros C s t m m' k k' E K; cbn [run].
  - destruct s as [|a s], t as [|b t]; try discriminate; [reflexivity|].
    apply lower_cons_inv in E as [E1 E2]. unfold same. rewrite E1.
    destruct (eqc (lower_c c0) (lower_c b)); [now apply K | reflexivity].
  - pose proof (lit_match_same l s t E) as L.
    destruct (lit_match true l s), (lit_match true l t); try contradiction;
      [now apply K | reflexivity].
  - destruct s as [|a s], t as [|b t]; try discriminate; [reflexivity|].
    apply lower_cons_inv in E as [E1 E2]. cbn in C.
    rewrite (caseless_eq p a b C E1). destruct (p b); [now apply K | reflexivity].
  - destruct C as [C1 C2]. apply IH1; [assumption | assumption |].
    intros s1 t1 m1 m1' E1. now apply IH2.
  - destruct C as [C1 C2]. rewrite !is_some_orelse. f_equal.
    + now apply IH1.
    + now apply IH2.
  - rewrite !is_some_orelse. f_equal; [now apply IH1 | now apply K].
  - apply star_same; [exact C | assumption |]. intros s1 t1 E1. now apply K.
  - destruct s as [|a s], t as [|b t]; try discriminate; [reflexivity|].
    apply lower_cons_inv in E as [E1 E2]. cbn in C.
    rewrite (caseless_eq p a b C E1). destruct (p b); [|reflexivity].
    apply star_same; [exact C | assumption |]. intros s1 t1 E3. now apply K.
  - apply IH1; [exact C | assumption |]. intros s1 t1 m1 m1' E1. now apply K.
  - rewrite (at_end_same s t E). destruct (at_end t); [now apply K | reflexivity].
Qed.

End Caseless.

Lemma match_at_same (r : regex) (s t : str) :
  caseless_re r -> lower s = lower t ->
  is_some (match_at true r s) = is_some (match_at true r t).
Proof.
  intros C E. unfold match_at. apply run_same; [assumption | assumption |].
  reflexivity.
Qed.

Lemma search_same (r : regex) (s t : str) :
  caseless_re r -> lower s = lower t ->
  search true r s = None -> search true r t = None.
Proof.
  intros C. revert t. induction s as [|a s IH]; intros [|b t] E H;
    try discriminate.
  - exact H.
  - apply search_cons_none in H as [M H]. cbn [search].
    pose proof (match_at_same r (a :: s) (b :: t) C E) as X. rewrite M in X.
    destruct (match_at true r (b :: t)); [discriminate|].
    apply IH; [|assumption]. now apply lower_cons_inv in E.
Qed.

Lemma caseless_re_on : caseless_re re_on.
Proof. repeat split. Qed.

Lemma caseless_re_district : caseless_re re_district.
Proof. repeat split. exact is_space_lower_c. Qed.

(** *** [strip], [split] and [join] *)

Lemma lstrip_hd (s : str) : is_space (hd "x"%char (lstrip s)) = false.
Proof.
  induction s as [|c s IH]; [reflexivity|]. cbn [lstrip].
  destruct (is_space c) eqn:E; [exact IH | exact E].
Qed.

Lemma lstrip_suffix (s : str) : exists w, s = w ++ lstrip s.
Proof.
  induction s as [|c s [w IH]]; [now exists []|]. cbn [lstrip].
  destruct (is_space c); [|now exists []].
  exists (c :: w). cbn. now f_equal.
Qed.

Lemma rstrip_prefix (s : str) : exists w, s = rstrip s ++ w.
Proof.
  unfold rstrip. destruct (lstrip_suffix (rev s)) as [w E].
  exists (rev w). rewrite <- rev_app_distr, <- E. symmetry. apply rev_involutive.
Qed.

Lemma strip_infix (s : str) : exists a b, s = a ++ strip s ++ b.
Proof.
  unfold strip. destruct (lstrip_suffix s) as [a Ea].
  destruct (rstrip_prefix (lstrip s)) as [b Eb].
  exists a, b. now rewrite <- Eb.
Qed.

Lemma last_rev (s : str) (d : ascii) : last (rev s) d = hd d s.
Proof. destruct s as [|c s]; [reflexivity|]. cbn [rev hd]. apply last_last. Qed.

Lemma strip_stripped (s : str) : stripped (strip s) = true.
Proof.
  unfold stripped, strip, rstrip.
  set (t := lstrip s). set (u := lstrip (rev t)).
  rewrite last_rev. unfold u at 2. rewrite lstrip_hd, andb_true_r.
  destruct u as [|c u'] eqn:U; [reflexivity|].
  destruct (lstrip_suffix (rev t)) as [w E]. fold u in E. rewrite U in E.
  assert (T : t = rev (c :: u') ++ rev w).
  { rewrite <- rev_app_distr, <- E. symmetry. apply rev_involutive. }
  pose proof (lstrip_hd s) as H. fold t in H. rewrite T in H.
  destruct (rev (c :: u')) as [|x y] eqn:V.
  - apply (f_equal (@length ascii)) in V. rewrite length_rev in V. discriminate.
  - cbn in H |- *. now rewrite H.
Qed.

Lemma stripped_strip (s : str) : stripped s = true -> strip s = s.
Proof.
  unfold stripped. intros H. apply andb_true_iff in H as [H1 H2].
  apply negb_true_iff in H1, H2.
  destruct s as [|c s]; [reflexivity|]. cbn [hd] in H1.
  unfold strip. cbn [lstrip]. rewrite H1. unfold rstrip.
  assert (E : c :: s <> []) by discriminate.
  rewrite (app_removelast_last "x"%char E) at 1.
  rewrite rev_app_distr. cbn [rev app lstrip]. rewrite H2.
  change (last (c :: s) "x"%char :: rev (removelast (c :: s)))
    with (rev [last (c :: s) "x"%char] ++ rev (removelast (c :: s))).
  rewrite <- rev_app_distr, rev_involutive.
  symmetry. now apply app_removelast_last.
Qed.

Lemma last_lower (s : str) : last (lower s) "x"%char = lower_c (last s "x"%char).
Proof.
  induction s as [|c s IH]; [reflexivity|].
  destruct s as [|c' s]; [reflexivity|]. exact IH.
Qed.

Lemma stripped_lower (s : str) : stripped (lower s) = stripped s.
Proof.
  unfold stripped. rewrite last_lower, is_space_lower_c.
  destruct s as [|c s]; [reflexivity|]. cbn [lower map hd].
  now rewrite is_space_lower_c.
Qed.

Lemma stripped_same (s t : str) : lower s = lower t -> stripped s = stripped t.
Proof. intros E. now rewrite <- (stripped_lower s), E, stripped_lower. Qed.

Lemma comma_free_lower (s : str) : comma_free (lower s) = comma_free s.
Proof.
  unfold comma_free, lower. induction s as [|c s IH]; [reflexivity|].
  cbn. now rewrite is_comma_lower_c, IH.
Qed.

Lemma comma_free_same (s t : str) : lower s = lower t -> comma_free s = comma_free t.
Proof. intros E. now rewrite <- (comma_free_lower s), E, comma_free_lower. Qed.

Lemma split_shape (sep : ascii) (s : str) :
  exists h t, split sep s = h :: t
              /\ (exists b, s = h ++ b)
              /\ forall q, In q t -> exists a b, s = a ++ q ++ b.
Proof.
  induction s as [|x s (h & t & E & (b & Hb) & Ht)]; cbn [split].
  - exists [], []. repeat split; [now exists [] | intros q []].
  - destruct (eqc x sep).
    + exists [], (split sep s). repeat split; [now exists (x :: s)|].
      intros q I. rewrite E in I. destruct I as [<- | I].
      * exists [x], b. cbn. now f_equal.
      * destruct (Ht q I) as (a & b' & ->). now exists (x :: a), b'.
    + rewrite E. exists (x :: h), t. repeat split.
      * exists b. cbn. now f_equal.
      * intros q I. destruct (Ht q I) as (a & b' & ->). now exists (x :: a), b'.
Qed.

Lemma split_infix (sep : ascii) (s q : str) :
  In q (split sep s) -> exists a b, s = a ++ q ++ b.
Proof.
  destruct (split_shape sep s) as (h & t & E & (b & Hb) & Ht). rewrite E.
  intros [<- | I]; [now exists [], b | now apply Ht].
Qed.

Lemma split_comma_free (s : str) : Forall (fun q => comma_free q = true) (split ","%char s).
Proof.
  induction s as [|x s IH]; cbn [split]; [now repeat constructor|].
  destruct (eqc x ","%char) eqn:E; [now constructor|].
  destruct (split ","%char s) as [|h t]; [now repeat constructor; cbn; rewrite E|].
  inversion IH; subst. constructor; [|assumption]. cbn. now rewrite E.
Qed.

Lemma split_one (a : str) : comma_free a = true -> split ","%char a = [a].
Proof.
  induction a as [|x a IH]; [reflexivity|]. cbn. intros H.
  apply andb_true_iff in H as [H1 H2]. apply negb_true_iff in H1.
  now rewrite H1, (IH H2).
Qed.

Lemma split_app_comma (a b : str) :
  comma_free a = true -> split ","%char (a ++ ","%char :: b) = a :: split ","%char b.
Proof.
  induction a as [|x a IH]; [reflexivity|]. cbn. intros H.
  apply andb_true_iff in H as [H1 H2]. apply negb_true_iff in H1.
  now rewrite H1, (IH H2).
Qed.

Lemma join_cons_char (c : ascii) (v : str) (V : list str) :
  c :: join (lit ", ") (v :: V) = join (lit ", ") ((c :: v) :: V).
Proof. now destruct V. Qed.

Lemma split_join (v : str) (V : list str) :
  Forall (fun q => comma_free q = true) (v :: V) ->
  split ","%char (join (lit ", ") (v :: V)) = v :: map (cons " "%char) V.
Proof.
  revert v. induction V as [|w V IH]; intros v F.
  - inversion F; subst. now apply split_one.
  - inversion F as [|? ? Fv F']; subst. inversion F' as [|? ? Fw FV]; subst.
    change (join (lit ", ") (v :: w :: V))
      with (v ++ ","%char :: " "%char :: join (lit ", ") (w :: V)).
    rewrite split_app_comma by assumption. rewrite join_cons_char. f_equal.
    apply IH. constructor; [exact Fw | assumption].
Qed.

Lemma has_ldl_join (U : list str) :
  Forall (fun u => has_ldl u = false) U -> has_ldl (join (lit ", ") U) = false.
Proof.
  induction U as [|u U IH]; intros F; [reflexivity|].
  inversion F as [|? ? Fu FU]; subst. destruct U as [|w U]; [exact Fu|].
  change (join (lit ", ") (u :: w :: U))
    with (u ++ ","%char :: ([] ++ " "%char :: join (lit ", ") (w :: U))).
  apply has_ldl_apart; try reflexivity; [assumption|].
  apply has_ldl_apart; try reflexivity. now apply IH.
Qed.

(** *** The loop over the parts, on an address and on its result *)

Lemma kept_part_ON : kept_part (lit "ON").
Proof. repeat split; try reflexivity; [discriminate | now left]. Qed.

Lemma kept_part_title (p : str) :
  p <> [] -> plain_part p -> match_at true re_on p = None -> kept_part (title p).
Proof.
  intros N (C & S & L & D) M.
  pose proof (lower_title p) as E.
  repeat split.
  - intros T. apply (f_equal (@length ascii)) in E. rewrite T in E.
    unfold lower in E. rewrite !length_map in E. destruct p; [congruence | discriminate].
  - now rewrite (comma_free_same _ _ E).
  - now rewrite (stripped_same _ _ E).
  - now rewrite (has_ldl_same _ _ E).
  - right. repeat split.
    + apply title_idem.
    + pose proof (match_at_same re_on p (title p) caseless_re_on (eq_sym E)) as X.
      rewrite M in X. now destruct (match_at true re_on (title p)).
    + now apply (search_same re_district p (title p) caseless_re_district (eq_sym E)).
Qed.

Lemma NoDup_snoc {A} (l : list A) (x : A) : NoDup l -> ~ In x l -> NoDup (l ++ [x]).
Proof.
  intros N I. apply (Permutation_NoDup (l := x :: l)).
  - apply Permutation_cons_append.
  - now constructor.
Qed.

Lemma loop_inv_snoc (U S : list str) (out : str) :
  loop_inv (U, S) -> kept_part out -> mem (lower out) S = false ->
  loop_inv (U ++ [out], lower out :: S).
Proof.
  intros (E & N & F) K M. cbn [fst snd] in *. repeat split; cbn [fst snd].
  - rewrite map_app, rev_app_distr. cbn. now rewrite E.
  - rewrite map_app. apply NoDup_snoc; [assumption|].
    intros I. apply in_rev in I. rewrite <- E in I. apply mem_In in I. congruence.
  - apply Forall_app. split; [assumption | now constructor].
Qed.

Lemma dedup_step_inv (st : list str * list str) (p : str) :
  plain_part p -> loop_inv st -> loop_inv (dedup_step st p).
Proof.
  intros P I. destruct st as [U S]. destruct p as [|c p']; [exact I|].
  unfold dedup_step. cbv beta iota.
  assert (N : c :: p' <> []) by discriminate.
  remember (c :: p') as p eqn:Ep. clear Ep.
  destruct (match_at true re_on p) as [f|] eqn:M; cbn [is_some].
  - change (district_free (lit "ON")) with (lit "ON").
    change (lower (lit "ON")) with (lower (lit "ON")).
    destruct (mem (lower (lit "ON")) S) eqn:X; cbn [negb]; [exact I|].
    change (if negb (eqs (lit "ON") (lit "ON")) then title (lit "ON") else lit "ON")
      with (lit "ON").
    apply loop_inv_snoc; [assumption | apply kept_part_ON | assumption].
  - assert (D : district_free p = p) by (apply sub_nothing, P).
    rewrite D.
    destruct (mem (lower p) S) eqn:X; cbn [negb]; [exact I|].
    destruct (eqs p (lit "ON")) eqn:Q; cbn [negb].
    + apply eqs_eq in Q. subst p. vm_compute in M. discriminate.
    + rewrite <- (lower_title p). rewrite <- (lower_title p) in X.
      apply loop_inv_snoc; [assumption | | assumption].
      apply kept_part_title; assumption.
Qed.

Lemma dedup_loop_inv (parts : list str) (st : list str * list str) :
  Forall plain_part parts -> loop_inv st -> loop_inv (fold_left dedup_step parts st).
Proof.
  revert st. induction parts as [|p parts IH]; intros st F I; cbn [fold_left];
    [assumption|].
  inversion F; subst. apply IH; [assumption|]. now apply dedup_step_inv.
Qed.

Lemma dedup_step_kept (U S : list str) (u : str) :
  kept_part u -> mem (lower u) S = false ->
  dedup_step (U, S) u = (U ++ [u], lower u :: S).
Proof.
  intros (N & _ & _ & _ & K) M. destruct u as [|c u']; [congruence|].
  unfold dedup_step. cbv beta iota.
  remember (c :: u') as u eqn:Eu. clear Eu.
  destruct K as [E | (T & R & D)].
  - rewrite E in *. change (is_some (match_at true re_on (lit "ON"))) with true.
    cbv iota. change (district_free (lit "ON")) with (lit "ON").
    rewrite M. reflexivity.
  - rewrite R. cbn [is_some]. rewrite (sub_nothing true re_district _ u D : district_free u = u).
    rewrite M. cbn [negb]. destruct (eqs u (lit "ON")) eqn:Q; cbn [negb].
    + apply eqs_eq in Q. now rewrite Q.
    + now rewrite T.
Qed.

Lemma dedup_loop_kept (U U0 : list str) :
  Forall kept_part U -> NoDup (map lower (U0 ++ U)) ->
  fold_left dedup_step U (U0, rev (map lower U0))
  = (U0 ++ U, rev (map lower (U0 ++ U))).
Proof.
  revert U0. induction U as [|u U IH]; intros U0 F N; cbn [fold_left].
  - now rewrite app_nil_r.
  - inversion F as [|? ? Fu FU]; subst.
    assert (N' : NoDup (map lower ((U0 ++ [u]) ++ U))) by now rewrite <- app_assoc.
    rewrite dedup_step_kept; [|assumption|].
    + replace (lower u :: rev (map lower U0)) with (rev (map lower (U0 ++ [u])))
        by (rewrite map_app, rev_app_distr; reflexivity).
      rewrite (IH (U0 ++ [u]) FU N'). now rewrite <- app_assoc.
    + destruct (mem (lower u) (rev (map lower U0))) eqn:X; [|reflexivity].
      exfalso. apply mem_In, in_rev in X.
      rewrite map_app in N. cbn [map] in N.
      apply NoDup_remove_2 in N. apply N. apply in_or_app. now left.
Qed.

Lemma parts_plain (x : str) :
  has_ldl x = false ->
  (forall p, In p (map strip (split ","%char x)) -> search true re_district p = None) ->
  Forall plain_part (map strip (split ","%char x)).
Proof.
  intros L D. apply Forall_forall. intros p I. pose proof (D p I) as Dp.
  apply in_map_iff in I as (q & <- & I).
  destruct (split_infix _ _ _ I) as (a & b & E).
  destruct (strip_infix q) as (a' & b' & E').
  assert (Lq : has_ldl q = false).
  { rewrite E in L. apply has_ldl_app in L as [_ L]. now apply has_ldl_app in L. }
  assert (Cq : comma_free q = true).
  { pose proof (split_comma_free x) as F. rewrite Forall_forall in F. now apply F. }
  repeat split.
  - rewrite E' in Cq. unfold comma_free in *. rewrite !forallb_app in Cq.
    apply andb_true_iff in Cq as [_ Cq]. now apply andb_true_iff in Cq.
  - apply strip_stripped.
  - rewrite E' in Lq. apply has_ldl_app in Lq as [_ Lq]. now apply has_ldl_app in Lq.
  - exact Dp.
Qed.

Lemma unique_parts_plain (x : str) :
  has_ldl x = false ->
  unique_parts_of x = fst (fold_left dedup_step (map strip (split ","%char x)) ([], [])).
Proof.
  intros L. unfold unique_parts_of.
  now rewrite (sub_nothing true re_glued _ x (search_glued_none x L)).
Qed.

Lemma fix_address_plain (z : str) :
  match z with [] => true | _ => false end || eqs z (lit "N/A") = false ->
  Forall (fun u => has_ldl u = false) (unique_parts_of z) ->
  fix_address z = join (lit ", ") (unique_parts_of z).
Proof.
  intros G F. unfold fix_address. rewrite G.
  assert (S : spaced_of z = join (lit ", ") (unique_parts_of z)).
  { unfold spaced_of. apply sub_nothing, search_postal_none. now apply has_ldl_join. }
  cbv zeta. rewrite S. unfold fsa_of.
  now rewrite (search_postal_none false _ (has_ldl_join _ F)).
Qed.

(** On an ASCII address in which no letter is followed by a digit and a
    letter, so that it holds no postal code, and of which no segment ends
    with white space and "District", a second application of
    [fix_address] changes nothing, unless the first one gave the empty
    string. *)
Lemma fix_address_twice_plain (x : str) :
  ascii_text x = true ->
  search false ldl x = None ->
  (forall p, In p (map strip (split ","%char x)) -> search true re_district p = None) ->
  fix_address x <> [] ->
  fix_address (fix_address x) = fix_address x.
Proof.
  intros _.
  intros L D N. apply search_ldl in L.
  destruct (match x with [] => true | _ => false end || eqs x (lit "N/A")) eqn:G.
  { unfold fix_address at 2. rewrite G. unfold fix_address. now rewrite G. }
  pose proof (unique_parts_plain x L) as UP.
  destruct (fold_left dedup_step (map strip (split ","%char x)) ([], []))
    as [U S] eqn:EU.
  assert (I : loop_inv (U, S)).
  { rewrite <- EU. apply dedup_loop_inv; [now apply parts_plain|].
    repeat split; constructor. }
  destruct I as (_ & ND & K). cbn [fst snd] in UP, ND, K.
  assert (FL : Forall (fun u => has_ldl u = false) U).
  { apply Forall_impl with (2 := K). now intros u (_ & _ & _ & H & _). }
  assert (FC : Forall (fun u => comma_free u = true) U).
  { apply Forall_impl with (2 := K). now intros u (_ & H & _). }
  assert (E : fix_address x = join (lit ", ") U).
  { rewrite <- UP. apply fix_address_plain; [assumption | now rewrite UP]. }
  rewrite E in *. set (y := join (lit ", ") U) in *.
  destruct (match y with [] => true | _ => false end || eqs y (lit "N/A")) eqn:Gy.
  { unfold fix_address. rewrite Gy. apply orb_true_iff in Gy as [Gy | Gy].
    - destruct y; [congruence | discriminate].
    - apply eqs_eq in Gy. now symmetry. }
  assert (Ly : has_ldl y = false) by now apply has_ldl_join.
  assert (Uy : unique_parts_of y = U).
  { rewrite (unique_parts_plain y Ly). unfold y.
    destruct U as [|v V]; [now cbn in N|].
    rewrite (split_join v V FC). cbn [map].
    assert (St : map strip (map (cons " "%char) V) = V).
    { inversion K as [|? ? _ KV]; subst. clear -KV.
      induction V as [|w V IH]; [reflexivity|]. inversion KV as [|? ? Kw KV']; subst.
      cbn [map]. rewrite (IH KV'). f_equal.
      destruct Kw as (_ & _ & Sw & _).
      change (strip (" "%char :: w)) with (strip w). now apply stripped_strip. }
    rewrite St.
    assert (Sv : strip v = v).
    { inversion K as [|? ? (_ & _ & Sv & _) _]; subst. now apply stripped_strip. }
    rewrite Sv.
    pose proof (dedup_loop_kept (v :: V) [] K ND) as X.
    change (rev (map lower [])) with (@nil str) in X. now rewrite X. }
  rewrite (fix_address_plain y Gy); rewrite Uy; [reflexivity | assumption].
Qed.

Lemma fix_address_twice_plain_witness :
  let x := lit "12 Oak Avenue,Timmins , ontario, timmins" in
  fix_address x = lit "12 Oak Avenue, Timmins, ON"
  /\ fix_address (fix_address x) = fix_address x.
Proof.
  intros x. split; [vm_compute; reflexivity|].
  apply (fix_address_twice_plain x).
  - reflexivity.
  - vm_compute. reflexivity.
  - intros p I. vm_compute in I.
    destruct I as [<- | [<- | [<- | [<- | []]]]]; vm_compute; reflexivity.
  - vm_compute. discriminate.
Defined.

(** * More properties *)

(** ** [clean_phone]: the shape of the result *)

Lemma forallb_filter {A} (f : A -> bool) (l : list A) : forallb f (filter f l) = true.
Proof.
  induction l as [|x l IH]; [reflexivity|]. cbn. destruct (f x) eqn:E; [|exact IH].
  cbn. now rewrite E.
Qed.

Lemma filter_all {A} (f : A -> bool) (l : list A) : forallb f l = true -> filter f l = l.
Proof.
  induction l as [|x l IH]; [reflexivity|]. cbn. intros H.
  apply andb_true_iff in H as [H1 H2]. now rewrite H1, (IH H2).
Qed.

Lemma forallb_firstn {A} (f : A -> bool) (n : nat) (l : list A) :
  forallb f l = true -> forallb f (firstn n l) = true.
Proof.
  revert l. induction n as [|n IH]; intros [|x l]; try reflexivity. cbn. intros H.
  apply andb_true_iff in H as [H1 H2]. now rewrite H1, (IH l H2).
Qed.

Lemma forallb_skipn {A} (f : A -> bool) (n : nat) (l : list A) :
  forallb f l = true -> forallb f (skipn n l) = true.
Proof.
  revert l. induction n as [|n IH]; intros [|x l]; try reflexivity; [easy|].
  cbn. intros H. apply andb_true_iff in H as [_ H2]. now apply IH.
Qed.

Lemma digits_of_format10 (d : str) :
  forallb is_digit d = true -> filter is_digit (Spec.format10 d) = d.
Proof.
  intros H. unfold Spec.format10. rewrite !filter_app.
  rewrite (filter_all _ _ (forallb_firstn is_digit 3 d H)).
  rewrite (filter_all _ _ (forallb_firstn is_digit 3 _ (forallb_skipn is_digit 3 d H))).
  rewrite (filter_all _ _ (forallb_skipn is_digit 6 d H)).
  change (filter is_digit (lit "(")) with (@nil ascii).
  change (filter is_digit (lit ") ")) with (@nil ascii).
  change (filter is_digit (lit "-")) with (@nil ascii).
  cbn [app].
  replace (skipn 6 d) with (skipn 3 (skipn 3 d)) by (now rewrite skipn_skipn).
  now rewrite firstn_skipn, firstn_skipn.
Qed.

Lemma clean_phone_format10 (d : str) :
  length d = 10 -> forallb is_digit d = true ->
  clean_phone (Spec.format10 d) = Spec.format10 d.
Proof.
  intros L H. unfold clean_phone. rewrite digits_of, (digits_of_format10 d H), L.
  reflexivity.
Qed.

Lemma clean_phone_shape (raw : str) :
  clean_phone raw = lit "N/A" \/ canonical (clean_phone raw).
Proof.
  unfold clean_phone. destruct (_ || _); [now left|]. rewrite digits_of.
  set (d := filter is_digit raw).
  assert (D : forallb is_digit d = true) by apply forallb_filter.
  destruct (length d =? 10) eqn:E10.
  - right. exists d. apply Nat.eqb_eq in E10. repeat split; assumption.
  - destruct ((length d =? 11) && startswith (lit "1") d) eqn:E11; [|now left].
    right. apply andb_true_iff in E11 as [E11 _]. apply Nat.eqb_eq in E11.
    destruct d as [|c d']; [discriminate|]. exists d'.
    cbn in D. apply andb_true_iff in D as [_ D]. cbn in E11.
    repeat split; [lia | assumption].
Qed.

Lemma canonical_clean (ph : str) : canonical ph -> clean_phone ph = ph.
Proof. intros (d & L & F & ->). now apply clean_phone_format10. Qed.

(** X1: [clean_phone] gives "N/A" or a phone of the form [(ABC) DEF-GHIJ]
    made of ten digits, and it leaves its own results as they are. *)
Theorem clean_phone_canonical (raw : str) :
  (clean_phone raw = lit "N/A" \/ canonical (clean_phone raw))
  /\ clean_phone (clean_phone raw) = clean_phone raw.
Proof.
  split; [apply clean_phone_shape|].
  destruct (clean_phone_shape raw) as [-> | C]; [reflexivity|].
  now apply canonical_clean.
Qed.

(** ** [fix_address]: the segments the loop keeps *)

Lemma sub_from_keeps (ic : bool) (r : regex) (q : ascii -> bool) (n : nat) (s : str) :
  forallb q s = true -> forallb q (sub_from ic r (fun _ => []) n s) = true.
Proof.
  revert n. induction s as [|c s IH]; intros n H; [reflexivity|].
  cbn in H. apply andb_true_iff in H as [H1 H2]. cbn [sub_from].
  destruct n as [|n]; [|now apply IH].
  destruct (match_at ic r (c :: s)) as [f|].
  - destruct (length (c :: s) - length (rest f)); cbn [app]; [|now apply IH].
    cbn. now rewrite H1, IH.
  - cbn. now rewrite H1, IH.
Qed.

Lemma district_free_head (c : ascii) (p : str) :
  is_space c = false -> exists t, district_free (c :: p) = c :: t.
Proof.
  intros H. unfold district_free, Re.sub. cbn [sub_from].
  assert (M : match_at true re_district (c :: p) = None).
  { unfold match_at, re_district. cbn [run]. now rewrite H. }
  rewrite M. eexists. reflexivity.
Qed.

Lemma strip_head (s : str) :
  strip s = [] \/ exists c t, strip s = c :: t /\ is_space c = false.
Proof.
  pose proof (strip_stripped s) as H. unfold stripped in H.
  destruct (strip s) as [|c t]; [now left|]. right. exists c, t. split; [reflexivity|].
  cbn [hd] in H. apply andb_true_iff in H as [H _]. now apply negb_true_iff in H.
Qed.

Lemma dedup_step_kept_inv (st : list str * list str) (q : str) :
  comma_free q = true -> kept_inv st -> kept_inv (dedup_step st (strip q)).
Proof.
  intros Cq I. destruct st as [U S].
  assert (Cp : comma_free (strip q) = true).
  { destruct (strip_infix q) as (a & b & E). rewrite E in Cq. unfold comma_free in *.
    rewrite !forallb_app in Cq. apply andb_true_iff in Cq as [_ Cq].
    now apply andb_true_iff in Cq. }
  destruct (strip_head q) as [-> | (c & t & E & Hc)]; [exact I|].
  rewrite E in *. unfold dedup_step. cbv beta iota.
  set (p1 := if is_some (match_at true re_on (c :: t)) then lit "ON" else c :: t).
  assert (P1 : p1 <> [] /\ comma_free (district_free p1) = true
               /\ district_free p1 <> []).
  { unfold p1. destruct (is_some _).
    - repeat split; discriminate.
    - destruct (district_free_head c t Hc) as [t' Et]. rewrite Et.
      repeat split; try discriminate. rewrite <- Et.
      unfold district_free, Re.sub, comma_free. now apply sub_from_keeps. }
  destruct P1 as (_ & C1 & N1). set (p_clean := district_free p1) in *.
  set (out := if negb (eqs p_clean (lit "ON")) then title p_clean else lit "ON").
  assert (L : lower out = lower p_clean).
  { unfold out. destruct (eqs p_clean (lit "ON")) eqn:Q; cbn [negb].
    - apply eqs_eq in Q. now rewrite Q.
    - apply lower_title. }
  assert (K : out <> [] /\ comma_free out = true /\ cased out).
  { unfold out. destruct (eqs p_clean (lit "ON")) eqn:Q; cbn [negb].
    - repeat split; [discriminate | now left].
    - repeat split.
      + intros T. pose proof (lower_title p_clean) as X. rewrite T in X.
        destruct p_clean; [congruence | discriminate].
      + now rewrite (comma_free_same _ _ (lower_title p_clean)).
      + right. apply title_idem. }
  fold out. destruct (mem (lower p_clean) S) eqn:M; cbn [negb]; [exact I|].
  destruct I as (E1 & N & F). cbn [fst snd] in *. repeat split; cbn [fst snd].
  - rewrite map_app, rev_app_distr. cbn. now rewrite L, E1.
  - rewrite map_app. cbn [map]. rewrite L. apply NoDup_snoc; [assumption|].
    intros X. apply in_rev in X. rewrite <- E1 in X. apply mem_In in X. congruence.
  - apply Forall_app. split; [assumption | now constructor].
Qed.

(** X2: on an ASCII address, the segments [fix_address] keeps from the
    loop over the parts are never empty, hold no comma, differ pairwise
    even when the case is ignored, and each is "ON" or in title case. *)
Theorem unique_parts_kept (address : str) :
  ascii_text address = true ->
  let unique_parts := unique_parts_of address in
  NoDup (map lower unique_parts)
  /\ Forall (fun u => u <> [] /\ comma_free u = true /\ cased u) unique_parts.
Proof.
  intros _. unfold unique_parts_of.
  set (addr := Re.sub true re_glued _ address).
  assert (G : forall qs st, Forall (fun q => comma_free q = true) qs -> kept_inv st ->
                kept_inv (fold_left dedup_step (map strip qs) st)).
  { induction qs as [|q qs IH]; intros st F I; [exact I|].
    inversion F; subst. cbn [map fold_left]. apply IH; [assumption|].
    now apply dedup_step_kept_inv. }
  destruct (G (split ","%char addr) ([], []) (split_comma_free addr)) as (_ & N & F).
  { repeat split; constructor. }
  now split.
Qed.

Lemma unique_parts_kept_witness :
  let address := lit "12 oak ave, TIMMINS, timmins , on" in
  unique_parts_of address = [lit "12 Oak Ave"; lit "Timmins"; lit "ON"]
  /\ NoDup (map lower (unique_parts_of address)).
Proof.
  cbv zeta. split; [vm_compute; reflexivity|].
  apply (unique_parts_kept (lit "12 oak ave, TIMMINS, timmins , on")).
  reflexivity.
Defined.

(** ** [_process]: what a result costs *)

(** X3: a row of which [_process] raises has sent no request; a kept row
    has sent none, a row answered by YellowPages one, and its phone is not
    "N/A"; a row answered by DuckDuckGo two, YellowPages first. *)
Theorem process_requests
  (send : request -> outcome response)
  (redirect_of : str -> outcome (option str)) (r : row) (i : nat) :
  match _process send redirect_of r i with
  | (inl _, sent) => sent = []
  | (inr res, sent) =>
      length sent = requests_of (e_source res)
      /\ (e_source res = YP -> e_phone res <> lit "N/A")
      /\ (e_source res <> Keep ->
          exists name, e_name res = Some name
                       /\ hd_error sent = Some (yp_request name (e_address res)))
  end.
Proof.
  assert (K : forall p, match keep_branch r i p with
                        | (inl _, sent) => sent = []
                        | (inr res, sent) =>
                            length sent = requests_of (e_source res)
                            /\ (e_source res = YP -> e_phone res <> lit "N/A")
                            /\ (e_source res <> Keep ->
                                exists name, e_name res = Some name
                                  /\ hd_error sent
                                     = Some (yp_request name (e_address res)))
                        end).
  { intros p. unfold keep_branch, ret. destruct (Name r); cbn;
      try reflexivity;
      (repeat split; [intros H; discriminate H | intros H; exfalso; now apply H]). }
  assert (L : match lookup_branch send redirect_of r i with
              | (inl _, sent) => sent = []
              | (inr res, sent) =>
                  length sent = requests_of (e_source res)
                  /\ (e_source res = YP -> e_phone res <> lit "N/A")
                  /\ (e_source res <> Keep ->
                      exists name, e_name res = Some name
                        /\ hd_error sent = Some (yp_request name (e_address res)))
              end).
  { unfold lookup_branch.
    destruct (Name r) as [| |name]; destruct (Address r) as [| |a];
      try reflexivity;
      cbv zeta; unfold bind, ret; cbn [fst snd]; rewrite !search_yp_sends;
      match goal with
      | |- context [fst (search_yp ?a ?b ?c ?d)] =>
          destruct (fst (search_yp a b c d)) as [d1|]
      end;
      try (destruct (eqs (phone d1) (lit "N/A")) eqn:Q);
      cbn [fst snd]; rewrite ?search_ddg_sends; cbn;
      repeat split;
      try (intros H; discriminate H);
      try (intros _ E; rewrite E in Q; vm_compute in Q; discriminate Q);
      try (intros _; eexists; split; reflexivity). }
  unfold _process. destruct (Phone r) as [| |p]; [exact L | reflexivity |].
  destruct (_ && _); [apply K | exact L].
Qed.

Lemma process_requests_witness :
  exists res sent,
    _process net_shop no_redirect bare_row 0 = (inr res, sent)
    /\ e_phone res = lit "(705) 555-1234"
    /\ length sent = 1.
Proof.
  eexists. eexists. split; [reflexivity|]. split; [reflexivity|].
  pose proof (process_requests net_shop no_redirect bare_row 0) as H.
  vm_compute in H. exact (proj1 H).
Defined.

(** ** [_enrich_thread]: the stop flag and the progress messages *)

Lemma enrich_loop_stop (is_running : nat -> bool) (k total : nat)
      (completed : list (exn + enriched)) (st : enrich_state) :
  (forall j, is_running j = (j <? k)) ->
  updates (en_queue (enrich_loop is_running total completed st))
  = updates (en_queue st) ++ successes (firstn (k - en_reads st) completed).
Proof.
  intros R. revert st. induction completed as [|f completed IH]; intros st.
  - rewrite firstn_nil. cbn. now rewrite app_nil_r.
  - cbn [enrich_loop]. rewrite R. destruct (en_reads st <? k) eqn:E; cbn [negb].
    + apply Nat.ltb_lt in E.
      replace (k - en_reads st) with (S (k - S (en_reads st))) by lia.
      cbn [firstn successes flat_map].
      destruct f as [e|res]; rewrite IH; cbn [en_queue en_reads app].
      * reflexivity.
      * rewrite !updates_app, <- app_assoc. now destruct (_ || _).
    + apply Nat.ltb_ge in E. replace (k - en_reads st) with 0 by lia.
      cbn. now rewrite app_nil_r.
Qed.

(** X4: when the stop flag is up at the first [k] reads and down from then
    on, [_enrich_thread] reports the results of the first [k] futures that
    complete and of no other one, and [done_enrich] is the last message
    whether the run is stopped or not. *)
Theorem enrich_stop
  (is_running : nat -> bool) (k : nat) (csv_data : list row)
  (completed : list (exn + enriched)) :
  (forall j, is_running j = (j <? k)) ->
  let q := _enrich_thread is_running csv_data completed in
  updates q = successes (firstn k completed)
  /\ exists q', q = q' ++ [DoneEnrich] /\ ~ In DoneEnrich q'.
Proof.
  intros R q. split.
  - unfold q, _enrich_thread. rewrite updates_app, (enrich_loop_stop _ k) by assumption.
    cbn. now rewrite Nat.sub_0_r, app_nil_r.
  - eexists. split; [reflexivity|].
    assert (G : forall total completed st,
               ~ In DoneEnrich (en_queue st) ->
               ~ In DoneEnrich (en_queue (enrich_loop is_running total completed st))).
    { clear. intros total completed.
      induction completed as [|f completed IH]; intros st H; [exact H|].
      cbn [enrich_loop]. destruct (negb _); [exact H|].
      destruct f as [e|res]; apply IH; cbn [en_queue]; [exact H|].
      intros X. apply in_app_or in X as [X | X]; [now apply H|].
      apply in_app_or in X as [X | [X | []]]; [|discriminate].
      destruct (_ || _); [|destruct X].
      destruct X as [X | [X | []]]; discriminate. }
    apply G. intros [].
Qed.

Lemma enrich_stop_witness :
  let csv_data :=
    [ {| Name := Text (lit "Acme Store"); Address := Text (lit "12 Oak Ave, Timmins, ON");
         Phone := Absent; Website := Absent |};
      {| Name := Text (lit "Pine Variety Store");
         Address := Text (lit "123 Main St, ON P3B1A1");
         Phone := Text (lit "(705) 555-1234"); Website := Absent |} ] in
  let completed := rev (futures net_acme no_redirect csv_data) in
  map idx (updates (_enrich_thread (fun j => j <? 1) csv_data completed)) = [1].
Proof.
  intros csv_data completed.
  rewrite (proj1 (enrich_stop (fun j => j <? 1) 1 csv_data completed
                    (fun j => eq_refl))).
  reflexivity.
Defined.

Lemma enrich_loop_progress (is_running : nat -> bool) (total : nat)
      (completed : list (exn + enriched)) (st : enrich_state) :
  (forall j, is_running j = true) ->
  let st' := enrich_loop is_running total completed st in
  processed st' = processed st + length (successes completed)
  /\ progress_of (en_queue st')
     = progress_of (en_queue st)
         ++ batched total (S (processed st)) (length (successes completed)).
Proof.
  intros R. revert st. induction completed as [|f completed IH]; intros st.
  - cbn. unfold batched. cbn. now rewrite Nat.add_0_r, app_nil_r.
  - cbn [enrich_loop]. rewrite R. cbn [negb]. destruct f as [e|res].
    + exact (IH _).
    + destruct (IH {| processed := S (processed st);
                      en_queue := en_queue st
                        ++ (if (S (processed st) mod 5 =? 0) || (S (processed st) =? total)
                            then [Enriching (S (processed st)) total;
                                  Progress (S (processed st)) total]
                            else [])
                        ++ [Update res];
                      en_reads := S (en_reads st) |}) as [P Q].
      cbv zeta. cbn [processed en_queue] in P, Q.
      change (successes (inr res :: completed)) with (res :: successes completed).
      cbn [length]. split.
      * rewrite P. lia.
      * rewrite Q. unfold progress_of. rewrite !flat_map_app.
        unfold batched. cbn [seq filter]. rewrite <- app_assoc. f_equal.
        destruct ((S (processed st) mod 5 =? 0) || (S (processed st) =? total));
          reflexivity.
Qed.

(** X5: in a run that is not stopped the [progress] messages of
    [_enrich_thread] are those of every fifth completion and of the
    completion that makes the count equal to the number of rows, in this
    order; when every row is a lead record the last of them is the full
    count. *)
Theorem enrich_progress
  (net : nat -> request -> outcome response)
  (redirect_of : str -> outcome (option str)) (is_running : nat -> bool)
  (csv_data : list row) (completed : list (exn + enriched)) :
  (forall j, is_running j = true) ->
  Permutation completed (futures net redirect_of csv_data) ->
  let q := _enrich_thread is_running csv_data completed in
  let total := length csv_data in
  progress_of q = batched total 1 (length (successes completed))
  /\ (forallb is_lead csv_data = true -> csv_data <> [] ->
      exists l, progress_of q = l ++ [(total, total)]).
Proof.
  intros R P q total.
  assert (E : progress_of q = batched total 1 (length (successes completed))).
  { unfold q, total, _enrich_thread.
    destruct (enrich_loop_progress is_running (length csv_data) completed
                {| processed := 0; en_queue := []; en_reads := 0 |} R) as [_ Q].
    unfold progress_of in *. rewrite flat_map_app, Q. cbn. now rewrite app_nil_r. }
  split; [exact E|].
  intros L N. rewrite E.
  assert (Len : length (successes completed) = total).
  { assert (PS : Permutation (successes completed)
                               (successes (futures net redirect_of csv_data)))
      by (unfold successes; now apply Permutation_flat_map).
    rewrite (Permutation_length PS).
    rewrite <- (length_map idx). unfold futures. rewrite successes_leads by assumption.
    apply length_seq. }
  rewrite Len. unfold batched, total in *.
  destruct (length csv_data) as [|n] eqn:T;
    [destruct csv_data; [congruence | discriminate]|].
  rewrite seq_S, filter_app, map_app. cbn [filter].
  change (1 + n) with (S n). rewrite Nat.eqb_refl, orb_true_r.
  eexists. reflexivity.
Qed.

Lemma enrich_progress_witness :
  let csv_data :=
    repeat {| Name := Text (lit "Acme Store");
              Address := Text (lit "12 Oak Ave, Timmins, ON");
              Phone := Text (lit "(705) 555-1234"); Website := Absent |} 7 in
  let completed := futures net_acme no_redirect csv_data in
  progress_of (_enrich_thread (fun _ => true) csv_data completed) = [(5, 7); (7, 7)].
Proof.
  intros csv_data completed.
  rewrite (proj1 (enrich_progress net_acme no_redirect (fun _ => true) csv_data
                    completed (fun j => eq_refl) (Permutation_refl _))).
  reflexivity.
Defined.

(** ** [_check_queue]: what the window shows *)

Lemma ticks_concat (batches : list (list event)) (g : gui) :
  ticks batches g = _check_queue (concat batches) g.
Proof.
  unfold ticks, _check_queue. revert g.
  induction batches as [|b batches IH]; intros g; [reflexivity|].
  cbn [fold_left concat]. now rewrite fold_left_app, IH.
Qed.

Lemma check_queue_tree_gen (q : list event) (g : gui) :
  tree_gen (_check_queue q g) = tree_gen g ++ added q.
Proof.
  unfold _check_queue. revert g. induction q as [|e q IH]; intros g.
  - cbn. now rewrite app_nil_r.
  - cbn [fold_left]. rewrite IH.
    destruct e; cbn [handle tree_gen added flat_map app]; try reflexivity.
    + now rewrite <- app_assoc.
    + now destruct (idx res <? length (tree_en g)).
Qed.

Lemma check_queue_snoc (q : list event) (e : event) (g : gui) :
  _check_queue (q ++ [e]) g = handle e (_check_queue q g).
Proof. unfold _check_queue. now rewrite fold_left_app. Qed.

(** X6: after [start_gen] on a window that is not running, with a
    category and a location selected, and the ticks that take the messages
    of the thread, however they are spread over the ticks, the table of
    the generation tab holds the leads the thread put on the queue, in
    that order, the status reads "Found n" with [n] the number of rows,
    the window is not running, and the start and transfer buttons are
    on. *)
Theorem generation_shown
  (net : nat -> request -> outcome response) (flag : nat -> bool)
  (cats locs : list str) (batches : list (list event)) (g : gui) :
  is_running g = false -> cats <> [] -> locs <> [] ->
  let st := _mass_gen_thread net flag cats locs in
  concat batches = queue st ->
  snd (start_gen cats locs g) = Some (cats, locs)
  /\ let g' := ticks batches (fst (start_gen cats locs g)) in
     tree_gen g' = added (queue st)
     /\ status g' = StFound (length (tree_gen g'))
     /\ is_running g' = false
     /\ pbar g' = PbFull
     /\ btn_gen_start g' = true /\ btn_gen_stop g' = false /\ btn_trans g' = true.
Proof.
  intros R C L st B.
  assert (S : start_gen cats locs g
              = ({| csv_data := csv_data g; is_running := true;
                    status := StQueued (length cats) (length locs);
                    pbar := pbar g; tree_gen := []; tree_en := tree_en g;
                    btn_gen_start := false; btn_gen_stop := true;
                    btn_trans := btn_trans g; btn_start := btn_start g;
                    btn_stop := btn_stop g; recent_menu := recent_menu g |},
                 Some (cats, locs))).
  { unfold start_gen. rewrite R. destruct cats; [congruence|].
    destruct locs; [congruence | reflexivity]. }
  rewrite S. cbn [fst snd]. split; [reflexivity|].
  rewrite ticks_concat, B.
  pose proof (mass_gen_inv net flag (length cats * length locs) cats locs
                {| total_found := 0; current_task := 0; seen_gen := [];
                   queue := []; reads := 0; calls := [] |}) as I.
  cbv zeta in I. destruct I as (_ & _ & T); [repeat split|].
  unfold st, _mass_gen_thread in *. cbn [queue].
  set (st0 := fold_left _ cats _) in *.
  rewrite check_queue_snoc.
  pose proof (check_queue_tree_gen (queue st0)
                {| csv_data := csv_data g; is_running := true;
                   status := StQueued (length cats) (length locs);
                   pbar := pbar g; tree_gen := []; tree_en := tree_en g;
                   btn_gen_start := false; btn_gen_stop := true;
                   btn_trans := btn_trans g; btn_start := btn_start g;
                   btn_stop := btn_stop g; recent_menu := recent_menu g |}) as G.
  cbn [tree_gen app] in G. cbv zeta. cbn [handle tree_gen status is_running pbar
                                          btn_gen_start btn_gen_stop btn_trans].
  rewrite G, added_app. cbn [added flat_map app]. rewrite app_nil_r.
  repeat split. now rewrite T.
Qed.

Lemma generation_shown_witness :
  let st := _mass_gen_thread net_acme (fun _ => true)
              [lit "Variety Stores"] [lit "Timmins, ON"] in
  let g := ticks [firstn 2 (queue st); skipn 2 (queue st)]
                 (fst (start_gen [lit "Variety Stores"] [lit "Timmins, ON"] (init NoFile))) in
  tree_gen g = [(lit "Acme Store", lit "12 Oak Ave, Timmins, ON")]
  /\ status g = StFound 1.
Proof.
  intros st g.
  destruct (generation_shown net_acme (fun _ => true)
              [lit "Variety Stores"] [lit "Timmins, ON"]
              [firstn 2 (queue st); skipn 2 (queue st)] (init NoFile))
    as (_ & T & S & _).
  - reflexivity.
  - discriminate.
  - discriminate.
  - vm_compute. reflexivity.
  - fold st in T, S. fold g in T, S. split.
    + rewrite T. vm_compute. reflexivity.
    + rewrite S, T. vm_compute. reflexivity.
Defined.

Lemma list_set_length {A} (l : list A) (i : nat) (v : A) :
  length (list_set l i v) = length l.
Proof.
  revert i. induction l as [|x l IH]; intros [|i]; cbn; try reflexivity.
  now rewrite IH.
Qed.

Lemma list_set_nth {A} (l : list A) (i j : nat) (v : A) :
  i < length l ->
  nth_error (list_set l i v) j = if j =? i then Some v else nth_error l j.
Proof.
  revert i j. induction l as [|x l IH]; intros i j H; [cbn in H; lia|].
  destruct i as [|i], j as [|j]; cbn; try reflexivity.
  apply IH. cbn in H. lia.
Qed.

Lemma apply_updates_length (l : list enriched) (items : list en_values) :
  length (apply_updates l items) = length items.
Proof.
  unfold apply_updates. revert items. induction l as [|res l IH]; intros items;
    [reflexivity|].
  cbn [fold_left]. rewrite IH. destruct (idx res <? length items); [|reflexivity].
  apply list_set_length.
Qed.

Lemma apply_updates_nth (l : list enriched) (items : list en_values) (i : nat) :
  i < length items -> NoDup (map idx l) ->
  nth_error (apply_updates l items) i
  = match find (fun res => idx res =? i) l with
    | Some res => Some (update_values res)
    | None => nth_error items i
    end.
Proof.
  unfold apply_updates. revert items.
  induction l as [|res l IH]; intros items H N; [reflexivity|].
  cbn [fold_left find]. cbn [map] in N. inversion N as [|? ? N1 N2]; subst.
  destruct (idx res =? i) eqn:E.
  - apply Nat.eqb_eq in E. subst i.
    apply Nat.ltb_lt in H. rewrite H. apply Nat.ltb_lt in H.
    rewrite IH; [|now rewrite list_set_length | assumption].
    destruct (find (fun r => idx r =? idx res) l) as [r'|] eqn:F.
    + exfalso. apply find_some in F as [F1 F2]. apply Nat.eqb_eq in F2.
      apply N1. rewrite <- F2. now apply in_map.
    + rewrite list_set_nth by assumption. now rewrite Nat.eqb_refl.
  - destruct (idx res <? length items) eqn:B.
    + rewrite IH; [|now rewrite list_set_length | assumption].
      apply Nat.ltb_lt in B. rewrite list_set_nth by assumption.
      rewrite Nat.eqb_sym, E. reflexivity.
    + now apply IH.
Qed.

Lemma check_queue_tree_en (q : list event) (g : gui) :
  tree_en (_check_queue q g) = apply_updates (updates q) (tree_en g).
Proof.
  unfold _check_queue, apply_updates. revert g.
  induction q as [|e q IH]; intros g; [reflexivity|].
  cbn [fold_left]. rewrite IH.
  destruct e; cbn [handle tree_en updates flat_map app fold_left]; try reflexivity.
  now destruct (idx res <? length (tree_en g)).
Qed.

Lemma successes_idx_from net redirect_of (csv_data : list row) (i : nat) :
  NoDup (map idx (successes (futures_from net redirect_of i csv_data)))
  /\ forall x, In x (map idx (successes (futures_from net redirect_of i csv_data))) ->
               i <= x.
Proof.
  revert i. induction csv_data as [|r csv_data IH]; intros i.
  - split; [constructor | intros x []].
  - destruct (IH (S i)) as [N B]. cbn [futures_from successes flat_map].
    fold (successes (futures_from net redirect_of (S i) csv_data)).
    destruct (fst (_process (net i) redirect_of r i)) as [e|res] eqn:E; cbn [app map].
    + split; [assumption|]. intros x I. apply B in I. lia.
    + rewrite (process_idx redirect_of _ _ _ _ E). split.
      * constructor; [|assumption]. intros I. apply B in I. lia.
      * intros x [<- | I]; [lia|]. apply B in I. lia.
Qed.

(** X7: without a stop, on a window whose enrichment table has one row for
    every row of [csv_data], after the ticks that take the messages of
    [_enrich_thread], in whatever order the futures completed and however
    the messages are spread over the ticks, the row of every index holds
    the values of the result computed from the row of [csv_data] with
    that index; a row whose processing raised is left as it was; no row
    is added or removed, and the status reads "Done". *)
Theorem enrichment_shown
  (net : nat -> request -> outcome response)
  (redirect_of : str -> outcome (option str)) (flag : nat -> bool)
  (completed : list (exn + enriched)) (batches : list (list event)) (g : gui) :
  (forall j, flag j = true) ->
  length (tree_en g) = length (csv_data g) ->
  Permutation completed (futures net redirect_of (csv_data g)) ->
  concat batches = _enrich_thread flag (csv_data g) completed ->
  let g' := ticks batches g in
  (forall i r, nth_error (csv_data g) i = Some r ->
     nth_error (tree_en g') i
     = match fst (_process (net i) redirect_of r i) with
       | inr res => Some (update_values res)
       | inl _ => nth_error (tree_en g) i
       end)
  /\ length (tree_en g') = length (tree_en g)
  /\ status g' = StDone /\ is_running g' = false /\ pbar g' = PbFull
  /\ btn_start g' = true /\ btn_stop g' = false.
Proof.
  intros R A P B g'. unfold g'. rewrite ticks_concat, B.
  set (csv := csv_data g) in *.
  assert (U : updates (_enrich_thread flag csv completed) = successes completed).
  { unfold _enrich_thread. rewrite updates_app.
    rewrite enrich_loop_updates by assumption. cbn. now rewrite app_nil_r. }
  assert (PS : Permutation (successes completed) (successes (futures net redirect_of csv)))
    by (unfold successes; now apply Permutation_flat_map).
  assert (ND : NoDup (map idx (successes completed))).
  { apply (Permutation_NoDup (Permutation_map idx (Permutation_sym PS))).
    apply (successes_idx_from net redirect_of csv 0). }
  split; [|split].
  - intros i r H. rewrite check_queue_tree_en, U.
    assert (Li : i < length (tree_en g)).
    { rewrite A. apply nth_error_Some. congruence. }
    rewrite (apply_updates_nth _ _ _ Li ND).
    assert (Own : forall res, In res (successes completed) -> idx res = i ->
                    fst (_process (net i) redirect_of r i) = inr res).
    { intros res I E. apply (Permutation_in _ PS) in I.
      apply successes_from in I as (j & r' & Hj & Ej & Pj). cbn in Ej, Pj.
      subst j. rewrite E in *. congruence. }
    destruct (find (fun res => idx res =? i) (successes completed)) as [res|] eqn:F.
    + apply find_some in F as [F1 F2]. apply Nat.eqb_eq in F2.
      now rewrite (Own res F1 F2).
    + destruct (fst (_process (net i) redirect_of r i)) as [e|res] eqn:E;
        [reflexivity|].
      exfalso.
      assert (I : In res (successes completed)).
      { apply (Permutation_in _ (Permutation_sym PS)).
        pose proof (futures_from_nth net redirect_of csv 0 i r H) as X. cbn in X.
        rewrite E in X. apply nth_error_In in X.
        unfold successes. apply in_flat_map. exists (inr res).
        split; [exact X | now left]. }
      apply (find_none _ _ F) in I. rewrite (process_idx redirect_of _ _ _ _ E) in I.
      now rewrite Nat.eqb_refl in I.
  - rewrite check_queue_tree_en. apply apply_updates_length.
  - unfold _enrich_thread. rewrite check_queue_snoc. repeat split.
Qed.

Lemma enrichment_shown_witness :
  let csv :=
    [ {| Name := Text (lit "Acme Store"); Address := Text (lit "12 Oak Ave, Timmins, ON");
         Phone := Text (lit "705-555-1234"); Website := Absent |};
      short_row ] in
  let g := snd (load_file (lit "leads.csv") (Returns csv) true NoFile (init NoFile)) in
  let q := _enrich_thread (fun _ => true) csv (rev (futures net_acme no_redirect csv)) in
  let g' := ticks [q] g in
  map col_source (tree_en g') = [lit "Keep"; lit "File"]
  /\ map col_phone (tree_en g') = [Some (lit "705-555-1234"); None].
Proof.
  intros csv g q g'.
  destruct (enrichment_shown net_acme no_redirect (fun _ => true)
              (rev (futures net_acme no_redirect csv)) [q] g) as (H & L & _).
  - reflexivity.
  - reflexivity.
  - symmetry. apply Permutation_rev.
  - cbn [concat]. now rewrite app_nil_r.
  - fold g' in H, L.
    pose proof (H 0 _ eq_refl) as H0. pose proof (H 1 _ eq_refl) as H1.
    destruct (tree_en g') as [|a [|b [|c t]]]; try discriminate.
    cbn in H0, H1. injection H0 as ->. injection H1 as ->.
    split; reflexivity.
Defined.

(** ** The window over a session *)

Lemma handle_aligned (e : event) (g : gui) :
  length (tree_en (handle e g)) = length (tree_en g)
  /\ csv_data (handle e g) = csv_data g
  /\ recent_menu (handle e g) = recent_menu g.
Proof.
  destruct e; cbn [handle]; try (repeat split; reflexivity).
  destruct (idx res <? length (tree_en g)); cbn [tree_en csv_data recent_menu];
    repeat split.
  apply list_set_length.
Qed.

Lemma check_queue_aligned (q : list event) (g : gui) :
  length (tree_en (_check_queue q g)) = length (tree_en g)
  /\ csv_data (_check_queue q g) = csv_data g
  /\ recent_menu (_check_queue q g) = recent_menu g.
Proof.
  unfold _check_queue. revert g. induction q as [|e q IH]; intros g; [repeat split|].
  cbn [fold_left]. destruct (IH (handle e g)) as (A & B & C).
  destruct (handle_aligned e g) as (A' & B' & C'). repeat split; congruence.
Qed.

(** X8: whatever the user does and whatever messages the ticks find, the
    enrichment table has as many rows as [csv_data], so that the index of
    an [update] names the row its result was computed from, and the menu
    of recent files lists what [history.json] holds. *)
Theorem session_aligned (fs : history_file) (l : list action) :
  let (fs', g) := session fs l in
  length (tree_en g) = length (csv_data g)
  /\ recent_menu g = load_history fs'.
Proof.
  unfold session.
  assert (G : forall s, (length (tree_en (snd s)) = length (csv_data (snd s))
                         /\ recent_menu (snd s) = load_history (fst s)) ->
              let (fs', g) := fold_left act l s in
              length (tree_en g) = length (csv_data g)
              /\ recent_menu g = load_history fs').
  { induction l as [|a l IH]; intros [fs0 g0] H; [exact H|].
    cbn [fold_left]. apply IH. cbn [fst snd] in H. destruct H as [A M].
    destruct a; cbn [act fst snd].
    - unfold load_file. destruct parsed as [|rows]; [now split|].
      unfold save_history, update_recent_menu, transfer_csv_to_tree.
      destruct fs0; cbn [fst snd tree_en csv_data recent_menu];
        (split; [apply length_map | (reflexivity || exact M)]).
    - unfold transfer. cbn. now rewrite !length_map.
    - unfold start_gen. destruct (is_running g0); [now split|].
      destruct cats; [now split|]. destruct locs; now split.
    - now split.
    - now split.
    - now split.
    - destruct (check_queue_aligned waiting g0) as (A' & B' & C').
      split; congruence. }
  apply G. split; reflexivity.
Qed.

(** ** [transfer]: from the generation tab to the enrichment tab *)



(** ** The recent files *)

Lemma list_remove_subset (x y : str) (l : list str) :
  In y (list_remove x l) -> In y l.
Proof.
  induction l as [|z l IH]; [intros []|]. cbn. destruct (eqs z x).
  - now right.
  - intros [-> | H]; [now left | right; now apply IH].
Qed.

Lemma list_remove_NoDup (x : str) (l : list str) :
  NoDup l -> NoDup (list_remove x l) /\ ~ In x (list_remove x l).
Proof.
  induction l as [|z l IH]; intros N; [split; [constructor | intros []]|].
  inversion N as [|? ? N1 N2]; subst. cbn. destruct (eqs z x) eqn:E.
  - apply eqs_eq in E. subst z. now split.
  - destruct (IH N2) as [A B]. split.
    + constructor; [|assumption]. intros I. apply N1. now apply list_remove_subset in I.
    + intros [-> | I]; [now rewrite eqs_refl in E | now apply B].
Qed.

Lemma NoDup_firstn {A} (n : nat) (l : list A) : NoDup l -> NoDup (firstn n l).
Proof.
  intros N. rewrite <- (firstn_skipn n l) in N. now apply NoDup_app_remove_r in N.
Qed.

Lemma firstn_In {A} (n : nat) (l : list A) (x : A) : In x (firstn n l) -> In x l.
Proof.
  intros I. rewrite <- (firstn_skipn n l). apply in_or_app. now left.
Qed.

Lemma new_history_again (path : str) (h : list str) :
  new_history path (Holds (path :: firstn 4 h)) = path :: firstn 4 h.
Proof.
  unfold new_history. cbn [load_history]. unfold mem. cbn [existsb].
  rewrite eqs_refl. cbn [orb list_remove]. rewrite eqs_refl.
  rewrite firstn_cons. f_equal. rewrite firstn_firstn. reflexivity.
Qed.

(** X10: when [history.json] is missing, cannot be read or holds a list,
    and can be written, [save_history] leaves in it, and in the menu, a
    list of at most five paths that starts with the path just saved and
    otherwise holds paths that were there before; a list without
    repetition stays without repetition; a file that is missing or cannot
    be read counts as an empty list; and saving the same path once more
    changes nothing.  When the file holds JSON that is not a list,
    [save_history] raises and leaves the file and the menu as they
    were. *)
Theorem save_history_recent (path : str) (fs : history_file) (g : gui) :
  match fs with
  | HoldsOther _ => forall can_write, save_history path can_write fs g = (fs, g)
  | _ =>
      let (fs', g') := save_history path true fs g in
      exists history,
        fs' = Holds history
        /\ recent_menu g' = history
        /\ hd_error history = Some path
        /\ length history <= 5
        /\ (forall x, In x history -> x = path \/ In x (load_history fs))
        /\ (NoDup (load_history fs) -> NoDup history)
        /\ (load_history fs = [] -> history = [path])
        /\ save_history path true fs' g' = (fs', g')
  end.
Proof.
  assert (G : save_history path true fs g
              = (Holds (new_history path fs),
                 update_recent_menu (Holds (new_history path fs)) g) ->
              let (fs', g') := save_history path true fs g in
              exists history,
                fs' = Holds history
                /\ recent_menu g' = history
                /\ hd_error history = Some path
                /\ length history <= 5
                /\ (forall x, In x history -> x = path \/ In x (load_history fs))
                /\ (NoDup (load_history fs) -> NoDup history)
                /\ (load_history fs = [] -> history = [path])
                /\ save_history path true fs' g' = (fs', g')).
  { intros ->.
    set (h0 := load_history fs).
    set (h1 := if mem path h0 then list_remove path h0 else h0).
    assert (E : new_history path fs = path :: firstn 4 h1) by reflexivity.
    exists (new_history path fs). rewrite E.
    split; [reflexivity|]. split; [reflexivity|]. split; [reflexivity|].
    split.
    { cbn [length]. pose proof (firstn_le_length 4 h1). lia. }
    assert (Sub : forall x, In x h1 -> In x h0).
    { intros x. unfold h1. destruct (mem path h0); [apply list_remove_subset | easy]. }
    split.
    { intros x [<- | I]; [now left|]. right. apply firstn_In in I. now apply Sub. }
    split.
    { intros N.
      assert (N1 : NoDup h1 /\ ~ In path h1).
      { unfold h1. destruct (mem path h0) eqn:M.
        - now apply list_remove_NoDup.
        - split; [assumption|]. intros I. apply mem_In in I. congruence. }
      destruct N1 as [N1 N2]. constructor.
      - intros I. apply firstn_In in I. now apply N2.
      - now apply NoDup_firstn. }
    split.
    { intros Z0. unfold h1. fold h0 in Z0. rewrite Z0. reflexivity. }
    unfold save_history. cbn [fst snd].
    rewrite (new_history_again path h1). reflexivity. }
  destruct fs; try (apply G; reflexivity).
  intros can_write. reflexivity.
Qed.

Lemma save_history_recent_witness :
  let (fs', g') := save_history (lit "b.csv") true
                                (Holds [lit "a.csv"; lit "b.csv"]) (init NoFile) in
  NoDup (recent_menu g').
Proof.
  pose proof (save_history_recent (lit "b.csv") (Holds [lit "a.csv"; lit "b.csv"])
                                  (init NoFile)) as H.
  destruct (save_history (lit "b.csv") true (Holds [lit "a.csv"; lit "b.csv"])
                         (init NoFile)) as [fs' g'].
  cbv iota in H. destruct H as (history & _ & -> & _ & _ & _ & N & _).
  apply N. cbn [load_history].
  constructor; [intros [H | []]; discriminate H|].
  constructor; [intros [] | constructor].
Defined.

(** ** [export]: what is kept and what is merged *)

(** X11: when [export] returns, it has written at most as many rows as the
    table has, and no phone is lost: for every phone of the table other
    than "N/A" a row is written with that phone as it is read back from
    the table, and the row is made of the last row of the table with that
    phone. *)
Theorem export_keeps_phones (path : str) (tree : list tree_row) (final : list csv_row) :
  export path tree = Some (inr final) ->
  length final <= length tree
  /\ forall v, In v tree -> v2 v <> lit "N/A" ->
       exists w pre post,
         tree = pre ++ w :: post
         /\ phone_read w = phone_read v
         /\ (forall u, In u post -> phone_read u <> phone_read v)
         /\ In (csv_of w) final
         /\ out_Phone (csv_of w) = phone_read v.
Proof.
  intros E.
  destruct (export_returns path tree final E)
    as (unique & rows & L & _ & _ & -> & N & F & Pm & _).
  pose proof (export_loop_values tree unique L) as V.
  split.
  - rewrite length_map, <- (Permutation_length Pm), length_map.
    pose proof (export_loop_length tree [] unique L) as B. cbn [length] in B. lia.
  - intros v I NA. destruct (phone_key v NA) as [K NP].
    set (k := lit "PH:" ++ phone_read v) in *.
    destruct (last_with k tree) as [w|] eqn:LW.
    + pose proof LW as LW'.
      apply last_with_spec in LW' as (pre & post & Et & Kw & NK).
      apply key_is_spec in Kw. pose proof (key_phone _ _ Kw) as Pw.
      exists w, pre, post. split; [exact Et|]. split; [exact Pw|]. split; [|split].
      * intros u Iu Q. specialize (NK u Iu).
        assert (NAu : v2 u <> lit "N/A").
        { intros Z0. rewrite (phone_read_NA u Z0) in Q. now apply NP. }
        destruct (phone_key u NAu) as [Ku _]. rewrite Q in Ku.
        apply key_is_spec in Ku. fold k in Ku. congruence.
      * unfold csv_of. apply in_map. apply (Permutation_in _ Pm). apply in_map_iff.
        exists (k, item w). split; [reflexivity|]. apply V. now exists w.
      * exact Pw.
    + exfalso. apply (proj1 (last_with_none _ _)) with (w := v) in LW; [|exact I].
      apply key_is_spec in K. congruence.
Qed.

Lemma export_keeps_phones_witness :
  exists final, export (lit "leads.csv") two_with_one_phone = Some (inr final)
                /\ exists o, In o final /\ out_Phone o = lit "(705) 555-1234".
Proof.
  eexists. split; [reflexivity|].
  destruct (export_keeps_phones (lit "leads.csv") two_with_one_phone _ eq_refl)
    as (_ & H).
  destruct (H (nth 0 two_with_one_phone (nth 1 two_with_one_phone
                {| v0 := []; v1 := []; v2 := []; v3 := []; v4 := [] |})))
    as (w & pre & post & _ & _ & _ & I & P).
  - left. reflexivity.
  - discriminate.
  - exists (csv_of w). split; [exact I | exact P].
Defined.

Lemma item_read_back (source : str) (v : tree_row) :
  item (tree_of source (row_of (item v))) = item v.
Proof.
  unfold item at 1. cbn [tree_of row_of v0 v1 v2 v3 out_Name out_Address
                          out_Phone out_Website].
  unfold item. cbn [d_Name d_Address d_Phone d_Website].
  now rewrite !(convert_readable _).
Qed.

Lemma dict_set_fresh {V} (d : list (str * V)) (k : str) (v : V) :
  ~ In k (map fst d) -> dict_set d k v = d ++ [(k, v)].
Proof.
  induction d as [|[k0 v0] d IH]; intros N; [reflexivity|]. cbn [dict_set].
  destruct (eqs k0 k) eqn:E.
  - apply eqs_eq in E. subst. exfalso. apply N. now left.
  - cbn [app]. f_equal. apply IH. intros I. apply N. now right.
Qed.

Lemma export_loop_distinct (t : list tree_row) :
  forall d : list (str * out_dict),
    Forall (fun v => export_key (item v) = inr (key_or (item v))) t ->
    NoDup (map fst d ++ map (fun v => key_or (item v)) t) ->
    export_loop t d = inr (d ++ map (fun v => (key_or (item v), item v)) t).
Proof.
  induction t as [|v t IH]; intros d F N; cbn [export_loop map].
  - now rewrite app_nil_r.
  - inversion F as [|? ? K F']; subst. rewrite K.
    rewrite (dict_set_fresh d).
    + rewrite IH; [now rewrite <- app_assoc | exact F' |].
      rewrite map_app. cbn [map fst]. now rewrite <- app_assoc.
    + cbn [map] in N. apply NoDup_remove_2 in N. intros I. apply N.
      apply in_or_app. now left.
Qed.

(** X12: read back as a table, the rows [export] has written are written
    again as they are: they have pairwise different keys and are sorted
    by name, so nothing is merged and nothing moves. *)
Theorem export_twice (path source : str) (tree : list tree_row) (final : list csv_row) :
  export path tree = Some (inr final) ->
  export path (map (tree_of source) final) = Some (inr final).
Proof.
  intros E.
  destruct (export_returns path tree final E)
    as (unique & rows & L & Sr & _ & -> & N & F & Pm & S).
  pose proof (export_loop_values tree unique L) as V.
  destruct path as [|c path]; [discriminate|]. clear E.
  assert (From : forall x, In x rows -> exists v, x = item v).
  { intros x I. apply (Permutation_in _ (Permutation_sym Pm)) in I.
    apply in_map_iff in I as ([k x'] & <- & I). cbn [snd].
    apply V in I as (v & _ & ->). now exists v. }
  assert (Keys : forall x, In x rows -> export_key x = inr (key_or x)).
  { intros x I. apply (Permutation_in _ (Permutation_sym Pm)) in I.
    apply in_map_iff in I as ([k x'] & <- & I).
    apply (proj1 (Forall_forall _ _) F) in I. cbn [fst snd] in *.
    unfold key_or. now rewrite I. }
  set (t := map (tree_of source) (map row_of rows)).
  assert (It : map item t = rows).
  { unfold t. rewrite !map_map.
    transitivity (map (fun x => x) rows); [|apply map_id].
    apply map_ext_in. intros x I. destruct (From x I) as (v & ->).
    apply item_read_back. }
  assert (Lt : export_loop t [] = inr (map (fun x => (key_or x, x)) rows)).
  { rewrite (export_loop_distinct t []).
    - cbn [app]. rewrite <- It. now rewrite map_map.
    - apply Forall_forall. intros v I.
      apply Keys. rewrite <- It. now apply in_map.
    - cbn [map app]. rewrite <- (map_map item key_or), It.
      apply (Permutation_NoDup (l := map key_or (map snd unique))).
      + now apply Permutation_map.
      + replace (map key_or (map snd unique)) with (map fst unique); [exact N|].
        rewrite map_map. apply map_ext_Forall.
        apply Forall_impl with (2 := F). intros e H. unfold key_or. now rewrite H. }
  unfold export. fold t. rewrite Lt, map_map. cbn [snd]. rewrite map_id.
  unfold sorted_by_name in *.
  rewrite <- (one_kind_perm _ _ Pm).
  destruct (_ || _); [|discriminate]. now rewrite (isort_fixed rows S).
Qed.

Lemma export_twice_witness :
  exists final, export (lit "leads.csv") two_with_one_phone = Some (inr final)
                /\ export (lit "leads.csv") (map (tree_of (lit "File")) final)
                   = Some (inr final).
Proof.
  eexists. split; [reflexivity|].
  exact (export_twice (lit "leads.csv") (lit "File") two_with_one_phone _ eq_refl).
Defined.

(** ** The lookups: what [search_ddg] and [search_yp] can answer *)

Lemma star_sound {R} (p : ascii -> bool) (s : str) (k : str -> option R) (x : R) :
  star p s k = Some x ->
  exists pre s', s = pre ++ s' /\ forallb p pre = true /\ k s' = Some x.
Proof.
  induction s as [|c s IH]; cbn [star]; intros H.
  - now exists [], [].
  - destruct (p c) eqn:P; [|now exists [], (c :: s)].
    destruct (star p s k) as [y|] eqn:S.
    + destruct (IH H) as (pre & s' & -> & F & K).
      exists (c :: pre), s'. cbn [forallb app]. now rewrite P.
    + now exists [], (c :: s).
Qed.

Lemma run_sound {R} (ic : bool) (r : regex) :
  forall (s : str) (m : captures) (k : str -> captures -> option R) (x : R),
    run ic r s m k = Some x ->
    exists s' m', Matches ic r s m s' m' /\ k s' m' = Some x.
Proof.
  induction r as [c0 | l | p | r1 IH1 r2 IH2 | r1 IH1 r2 IH2 | r1 IH1 | p | p
                  | n r1 IH1 |];
    intros s m k x H; cbn [run] in H.
  - destruct s as [|c s]; [discriminate|].
    destruct (same ic c0 c) eqn:E; [|discriminate].
    exists s, m. split; [now constructor | assumption].
  - destruct (lit_match ic l s) as [s'|] eqn:E; [|discriminate].
    exists s', m. split; [now constructor | assumption].
  - destruct s as [|c s]; [discriminate|].
    destruct (p c) eqn:E; [|discriminate].
    exists s, m. split; [now constructor | assumption].
  - apply IH1 in H as (s1 & m1 & M1 & H). apply IH2 in H as (s2 & m2 & M2 & H).
    exists s2, m2. split; [econstructor; eassumption | assumption].
  - destruct (run ic r1 s m k) as [y|] eqn:E.
    + rewrite <- H in *. apply IH1 in E as (s' & m' & M & K).
      exists s', m'. split; [now apply MAltL | assumption].
    + apply IH2 in H as (s' & m' & M & K).
      exists s', m'. split; [now apply MAltR | assumption].
  - destruct (run ic r1 s m k) as [y|] eqn:E.
    + rewrite <- H in *. apply IH1 in E as (s' & m' & M & K).
      exists s', m'. split; [now apply MOptSome | assumption].
    + exists s, m. split; [apply MOptNone | assumption].
  - apply star_sound in H as (pre & s' & -> & F & K).
    exists s', m. split; [now constructor | assumption].
  - destruct s as [|c s]; [discriminate|].
    destruct (p c) eqn:E; [|discriminate].
    apply star_sound in H as (pre & s' & -> & F & K).
    exists s', m. split; [now constructor | assumption].
  - apply IH1 in H as (s' & m' & M & K).
    exists s', ((n, firstn (length s - length s') s) :: m').
    split; [now constructor | assumption].
  - destruct (at_end s) eqn:E; [|discriminate].
    exists s, m. split; [now constructor | assumption].
Qed.

Lemma findall_from_In (ic : bool) (r : regex) (m : captures) :
  forall (s : str) (skip : nat),
    In m (findall_from ic r skip s) ->
    exists s' f, match_at ic r s' = Some f /\ m = groups f.
Proof.
  induction s as [|c s IH]; intros skip; cbn [findall_from]; [intros []|].
  destruct skip as [|n]; [|apply IH].
  destruct (match_at ic r (c :: s)) as [f|] eqn:E; [|apply IH].
  intros [<- | I]; [now exists (c :: s), f | now apply IH in I].
Qed.

Lemma is_2_9_digit (c : ascii) : is_2_9 c = true -> is_digit c = true.
Proof.
  unfold is_2_9, is_digit. rewrite !andb_true_iff, !Nat.leb_le. lia.
Qed.

Lemma length_minus_3 (a b c : ascii) (s : str) :
  length (a :: b :: c :: s) - length s = 3.
Proof. cbn [length]. lia. Qed.

Lemma length_minus_4 (a b c d : ascii) (s : str) :
  length (a :: b :: c :: d :: s) - length s = 4.
Proof. cbn [length]. lia. Qed.

Ltac invert_matches :=
  repeat match goal with
         | H : Matches _ (Seq _ _) _ _ _ _ |- _ => inversion H; subst; clear H
         | H : Matches _ (Opt _) _ _ _ _ |- _ => inversion H; subst; clear H
         | H : Matches _ (Chr _) _ _ _ _ |- _ => inversion H; subst; clear H
         | H : Matches _ (Cls _) _ _ _ _ |- _ => inversion H; subst; clear H
         | H : Matches _ (Grp _ _) _ _ _ _ |- _ => inversion H; subst; clear H
         end.

(** A match of the phone pattern of [search_ddg] captures three, three and
    four digits, the first and the fourth from 2 to 9. *)
Lemma re_phone_groups (s : str) (f : found) :
  match_at false re_phone s = Some f ->
  dialable (lit "(" ++ group 1 (groups f) ++ lit ") " ++ group 2 (groups f)
                ++ lit "-" ++ group 3 (groups f)).
Proof.
  unfold match_at. intros H.
  apply run_sound in H as (s' & m' & M & K). injection K as <-.
  unfold re_phone in M. invert_matches;
    cbn [groups group Nat.eqb];
    rewrite ?length_minus_3, ?length_minus_4; cbn [firstn];
    match goal with
    | |- dialable (_ ++ [?a; ?b; ?c] ++ _ ++ [?d; ?e; ?g] ++ _ ++ [?h; ?i; ?j; ?k]) =>
        exists [a; b; c; d; e; g; h; i; j; k]
    end;
    (split; [reflexivity|]); (split; [|split; [|split]]);
    try reflexivity; try assumption;
    cbn [forallb nth];
    repeat match goal with
           | H : is_2_9 _ = true |- _ => apply is_2_9_digit in H
           end;
    repeat match goal with
           | H : is_digit _ = true |- _ => rewrite H; clear H
           end;
    reflexivity.
Qed.

Lemma dialable_canonical (ph : str) : dialable ph -> canonical ph.
Proof. intros (d & L & F & _ & _ & E). now exists d. Qed.

Lemma usable_link_href (link : option str) :
  usable_link link = true ->
  exists href, link = Some href /\ href <> []
               /\ forall x, In x directories -> contains x href = false.
Proof.
  destruct link as [[|c h]|]; cbn [usable_link]; try discriminate.
  intros H. exists (c :: h). split; [reflexivity|]. split; [discriminate|].
  apply andb_true_iff in H as [D N]. apply negb_true_iff in D, N.
  cbn [existsb] in N. rewrite !orb_false_iff in N. destruct N as (Y & P & Q & _).
  intros x [<- | [<- | [<- | [<- | []]]]]; assumption.
Qed.

Lemma search_ddg_phone (send : request -> outcome response) (name address : str) :
  let d := fst (search_ddg send name address) in
  phone d = lit "N/A" \/ dialable (phone d).
Proof.
  cbv zeta. unfold search_ddg, bind, ret, requests_send. cbn [fst].
  destruct (send _) as [|res]; cbn [phone]; [now left|].
  destruct (soup res) as [|pg]; cbn [phone]; [now left|].
  destruct (findall false re_phone (text pg)) as [|m ms] eqn:E; [now left|].
  right. destruct (findall_from_In false re_phone m (text pg) 0) as (s' & f & M & ->).
  - unfold findall in E. rewrite E. now left.
  - now apply re_phone_groups in M.
Qed.

(** X13: whatever the network answers, [search_ddg] gives a phone that is
    "N/A" or has the form [(ABC) DEF-GHIJ] with [A] and [D] from 2 to 9,
    so that [clean_phone] would leave it as it is, and a website that is
    not empty and names none of the directories. *)
Theorem search_ddg_answer (send : request -> outcome response) (name address : str) :
  let d := fst (search_ddg send name address) in
  (phone d = lit "N/A" \/ dialable (phone d))
  /\ clean_phone (phone d) = phone d
  /\ website d <> []
  /\ forall x, In x directories -> contains x (website d) = false.
Proof.
  cbv zeta.
  assert (NA : forall x, In x directories -> contains x (lit "N/A") = false).
  { intros x [<- | [<- | [<- | [<- | []]]]]; reflexivity. }
  split; [apply search_ddg_phone|]. split.
  { destruct (search_ddg_phone send name address) as [-> | P]; [reflexivity|].
    now apply canonical_clean, dialable_canonical. }
  unfold search_ddg, bind, ret, requests_send. cbn [fst].
  destruct (send _) as [|res]; cbn [website]; [split; [discriminate | exact NA]|].
  destruct (soup res) as [|pg]; cbn [website]; [split; [discriminate | exact NA]|].
  destruct (find usable_link (result_links pg)) as [[href|]|] eqn:F;
    try (split; [discriminate | exact NA]).
  apply find_some in F as [_ U]. apply usable_link_href in U as (h & E & N & D).
  injection E as <-. now split.
Qed.

Lemma search_ddg_answer_witness :
  let d := fst (search_ddg net_links (lit "Acme Store") (lit "12 Oak Ave, Timmins, ON")) in
  contains (lit "yelp") (website d) = false
  /\ website d = lit "https://acme.example/"
  /\ phone d = lit "(705) 555-1234".
Proof.
  cbv zeta. split; [|split; reflexivity].
  pose proof (search_ddg_answer net_links (lit "Acme Store")
                                (lit "12 Oak Ave, Timmins, ON")) as H.
  cbv zeta in H. destruct H as (_ & _ & _ & H).
  apply H. right. left. reflexivity.
Defined.

Lemma search_yp_phone
  (send : request -> outcome response)
  (redirect_of : str -> outcome (option str)) (name address : str) (d : contact) :
  fst (search_yp send redirect_of name address) = Some d ->
  phone d = lit "N/A" \/ canonical (phone d).
Proof.
  unfold search_yp, bind, ret, requests_send. cbn [fst].
  destruct (send _) as [|res]; [discriminate|].
  destruct (negb _); [discriminate|].
  destruct (soup res) as [|pg]; [discriminate|].
  destruct (listings pg) as [|l ls]; [discriminate|].
  destruct (yp_website redirect_of l) as [|w]; [discriminate|].
  intros H. injection H as <-. cbn [phone]. apply clean_phone_shape.
Qed.

(** X14: [search_yp] answers a contact only from a response with the
    status 200 whose page has a listing, and reads the first listing only;
    the phone is "N/A" or in the form [(ABC) DEF-GHIJ], "N/A" when the
    listing shows no phone, and the website is "N/A" when the listing has
    no website item. *)
Theorem search_yp_answer
  (send : request -> outcome response)
  (redirect_of : str -> outcome (option str)) (name address : str) (d : contact) :
  fst (search_yp send redirect_of name address) = Some d ->
  (exists res pg l ls,
      send (yp_request name address) = Returns res
      /\ status_code res = 200
      /\ soup res = Returns pg
      /\ listings pg = l :: ls
      /\ (phone_h4 l = None -> phone_li l = None -> phone d = lit "N/A")
      /\ (website_li l = None -> website d = lit "N/A")
      /\ forall pg', hd_error (listings pg') = Some l ->
           fst (search_yp (fun _ => Returns {| status_code := 200; soup := Returns pg' |})
                          redirect_of name address) = Some d)
  /\ (phone d = lit "N/A" \/ canonical (phone d))
  /\ clean_phone (phone d) = phone d.
Proof.
  intros H. pose proof (search_yp_phone _ _ _ _ _ H) as P.
  split; [|split; [exact P|]].
  - revert H. unfold search_yp, bind, ret, requests_send. cbn [fst].
    destruct (send _) as [|res] eqn:S; [discriminate|].
    destruct (negb _) eqn:C; [discriminate|].
    destruct (soup res) as [|pg] eqn:G; [discriminate|].
    destruct (listings pg) as [|l ls] eqn:L; [discriminate|].
    destruct (yp_website redirect_of l) as [|w] eqn:W; [discriminate|].
    intros H. injection H as <-. exists res, pg, l, ls.
    apply negb_false_iff, Nat.eqb_eq in C.
    repeat split; try assumption; cbn [phone website].
    + now intros -> ->.
    + intros E. unfold yp_website in W. rewrite E in W. now injection W as <-.
    + intros pg' E. cbn [status_code soup Nat.eqb negb].
      destruct (listings pg') as [|l' ls']; [discriminate|].
      cbn [hd_error] in E. injection E as ->. now rewrite W.
  - destruct P as [-> | P]; [reflexivity | now apply canonical_clean].
Qed.

Lemma search_yp_answer_witness :
  exists d, fst (search_yp net_shop no_redirect (lit "Acme Store")
                           (lit "12 Oak Ave, Timmins, ON")) = Some d
            /\ clean_phone (phone d) = phone d
            /\ phone d = lit "(705) 555-1234".
Proof.
  eexists. split; [reflexivity|]. split.
  - apply (search_yp_answer net_shop no_redirect (lit "Acme Store")
                            (lit "12 Oak Ave, Timmins, ON")).
    reflexivity.
  - reflexivity.
Defined.

Lemma lookup_branch_phone
  (send : request -> outcome response)
  (redirect_of : str -> outcome (option str)) (r : row) (i : nat) (res : enriched) :
  fst (lookup_branch send redirect_of r i) = inr res ->
  match e_source res with
  | Keep => False
  | YP => canonical (e_phone res)
  | DDG => e_phone res = lit "N/A" \/ dialable (e_phone res)
  end.
Proof.
  unfold lookup_branch.
  destruct (Name r) as [| |name]; destruct (Address r) as [| |a];
    try discriminate;
    cbv zeta; unfold bind, ret; cbn [fst snd];
    match goal with
    | |- context [fst (search_yp ?a ?b ?c ?d)] =>
        destruct (fst (search_yp a b c d)) as [d1|] eqn:Y
    end;
    try (destruct (eqs (phone d1) (lit "N/A")) eqn:Q);
    cbn [fst snd]; intros H; injection H as <-;
    cbn [tuple_of e_source e_phone];
    try apply search_ddg_phone;
    (apply search_yp_phone in Y as [Y | Y];
     [rewrite Y in Q; vm_compute in Q; discriminate Q | exact Y]).
Qed.

(** X15: the phone of a result of [_process].  A kept row carries the
    phone of the file as it is, longer than five characters and not "N/A";
    a phone from YellowPages has the form [(ABC) DEF-GHIJ]; one from
    DuckDuckGo is "N/A" or has that form with [A] and [D] from 2 to 9. *)
Theorem process_phone
  (send : request -> outcome response)
  (redirect_of : str -> outcome (option str)) (r : row) (i : nat) (res : enriched) :
  fst (_process send redirect_of r i) = inr res ->
  match e_source res with
  | Keep => Phone r = Text (e_phone res) /\ 5 < length (e_phone res)
            /\ e_phone res <> lit "N/A" /\ e_phone res <> lit ""
  | YP => canonical (e_phone res)
  | DDG => e_phone res = lit "N/A" \/ dialable (e_phone res)
  end.
Proof.
  unfold _process. destruct (Phone r) as [| |p] eqn:P.
  - intros H. apply lookup_branch_phone in H.
    destruct (e_source res); [contradiction | exact H | exact H].
  - discriminate.
  - destruct (negb (mem p [lit "N/A"; lit ""]) && (5 <? length p)) eqn:C.
    + unfold keep_branch, ret. destruct (Name r); cbn [fst]; try discriminate;
        intros H; injection H as <-; cbn [e_source e_phone];
        apply andb_true_iff in C as [M L]; apply negb_true_iff in M;
        apply Nat.ltb_lt in L; cbn [mem existsb] in M;
        rewrite !orb_false_iff in M; destruct M as (M1 & M2 & _);
        (repeat split; [exact L | |]); intros ->;
        vm_compute in M1, M2; discriminate.
    + intros H. apply lookup_branch_phone in H.
      destruct (e_source res); [contradiction | exact H | exact H].
Qed.

Lemma process_phone_witness :
  exists res, fst (_process net_down no_redirect dotted_row 0) = inr res
              /\ Phone dotted_row = Text (e_phone res)
              /\ clean_phone (e_phone res) <> e_phone res.
Proof.
  eexists. split; [reflexivity|]. split.
  - exact (proj1 (process_phone net_down no_redirect dotted_row 0 _ eq_refl)).
  - vm_compute. discriminate.
Defined.

(** ** The locality the lookups ask for *)

Lemma search_sound (ic : bool) (r : regex) (s : str) (f : found) :
  search ic r s = Some f ->
  exists pre s', s = pre ++ s' /\ match_at ic r s' = Some f.
Proof.
  induction s as [|c s IH]; cbn [search].
  - destruct (match_at ic r []) eqn:E; [|discriminate].
    intros H. injection H as <-. now exists [], [].
  - destruct (match_at ic r (c :: s)) eqn:E.
    + intros H. injection H as <-. now exists [], (c :: s).
    + intros H. destruct (IH H) as (pre & s' & -> & M). now exists (c :: pre), s'.
Qed.

Lemma firstn_length_minus (p s : str) :
  firstn (length (p ++ s) - length s) (p ++ s) = p.
Proof.
  rewrite length_app.
  replace (length p + length s - length s) with (length p) by lia.
  rewrite firstn_app, Nat.sub_diag, firstn_all. cbn [firstn]. apply app_nil_r.
Qed.

Lemma same_comma (c : ascii) : same true ","%char c = true -> c = ","%char.
Proof.
  destruct c as [[] [] [] [] [] [] [] []]; vm_compute; intros H;
    first [reflexivity | discriminate H].
Qed.

Lemma same_O (c : ascii) : same true "O"%char c = true -> lower_c c = "o"%char.
Proof.
  destruct c as [[] [] [] [] [] [] [] []]; vm_compute; intros H;
    first [reflexivity | discriminate H].
Qed.

Lemma same_N (c : ascii) : same true "N"%char c = true -> lower_c c = "n"%char.
Proof.
  destruct c as [[] [] [] [] [] [] [] []]; vm_compute; intros H;
    first [reflexivity | discriminate H].
Qed.

Lemma same_n (c : ascii) : same true "n"%char c = true -> lower_c c = "n"%char.
Proof.
  destruct c as [[] [] [] [] [] [] [] []]; vm_compute; intros H;
    first [reflexivity | discriminate H].
Qed.

Lemma lit_match_on (l s s' : str) :
  l = lit "ON" \/ l = lit "Ontario" ->
  lit_match true l s = Some s' ->
  exists w rest, s = w ++ rest /\ lower w = lit "on".
Proof.
  intros L H.
  assert (L' : exists y t, l = "O"%char :: y :: t
                           /\ (y = "N"%char \/ y = "n"%char)).
  { destruct L as [-> | ->]; eexists; eexists; (split; [reflexivity|]); auto. }
  destruct L' as (y & t & -> & Y). clear L.
  destruct s as [|a [|b rest]]; cbn [lit_match] in H.
  - discriminate H.
  - destruct (same true "O"%char a); discriminate H.
  - destruct (same true "O"%char a) eqn:A; [|discriminate H].
    destruct (same true y b) eqn:B; [|discriminate H].
    exists [a; b], rest. split; [reflexivity|].
    apply same_O in A.
    assert (B' : lower_c b = "n"%char)
      by (destruct Y as [-> | ->]; [now apply same_N | now apply same_n]).
    unfold lower. cbn [map]. now rewrite A, B'.
Qed.

(** A match of the pattern of the locality: a segment without a comma, a
    comma, white space, and "on" in any case. *)
Lemma re_locality_match (s : str) (f : found) :
  match_at true re_locality s = Some f ->
  exists seg ws w rest,
    s = seg ++ lit "," ++ ws ++ w ++ rest
    /\ seg <> [] /\ comma_free seg = true
    /\ forallb is_space ws = true /\ lower w = lit "on"
    /\ group 1 (groups f) = seg.
Proof.
  unfold match_at. intros H.
  apply run_sound in H as (s' & m' & M & K). injection K as <-.
  unfold re_locality in M.
  inversion M as [| | | ? ? ? ? s1 m1 ? ? M1 M2 | | | | | | | |]; subst; clear M.
  inversion M1 as [| | | | | | | | | | ? ? ? ? ? ? P |]; subst; clear M1.
  inversion P as [| | | | | | | | | ? c pre ? ? Pc Ppre | |]; subst; clear P.
  inversion M2 as [| | | ? ? ? ? s2 m2 ? ? C M3 | | | | | | | |]; subst; clear M2.
  inversion C as [? x ? ? X | | | | | | | | | | |]; subst; clear C.
  apply same_comma in X. subst x.
  inversion M3 as [| | | ? ? ? ? s3 m3 ? ? W G | | | | | | | |]; subst; clear M3.
  inversion W as [| | | | | | | | ? ws ? ? Pws | | |]; subst; clear W.
  inversion G as [| | | | | | | | | | ? ? ? ? ? ? A |]; subst; clear G.
  assert (O : exists w rest,
             s3 = w ++ rest /\ lower w = lit "on"
             /\ m'0 = [(1, firstn
                             (length (c :: pre ++ ","%char :: ws ++ s3)
                              - length (","%char :: ws ++ s3))
                             (c :: pre ++ ","%char :: ws ++ s3))]).
  { inversion A as [| | | | ? ? ? ? ? ? L | ? ? ? ? ? ? L | | | | | |]; subst;
      inversion L as [| ? ? ? ? LM | | | | | | | | | |]; subst;
      (destruct (lit_match_on _ _ _ (or_introl eq_refl) LM) as (w & rest & E & O)
       || destruct (lit_match_on _ _ _ (or_intror eq_refl) LM) as (w & rest & E & O));
      now exists w, rest. }
  clear A.
  destruct O as (w & rest & -> & O & ->).
  exists (c :: pre), ws, w, rest. repeat split.
  - discriminate.
  - unfold comma_free. cbn [forallb]. now rewrite Pc, Ppre.
  - exact Pws.
  - exact O.
  - cbn [groups group Nat.eqb].
    change (c :: pre ++ ","%char :: ws ++ w ++ rest)
      with ((c :: pre) ++ ","%char :: ws ++ w ++ rest).
    apply firstn_length_minus.
Qed.

Lemma comma_free_app (a b : str) :
  comma_free (a ++ b) = comma_free a && comma_free b.
Proof. apply forallb_app. Qed.

Lemma comma_free_strip (s : str) : comma_free s = true -> comma_free (strip s) = true.
Proof.
  intros H. destruct (strip_infix s) as (a & b & E). rewrite E in H.
  rewrite !comma_free_app, !andb_true_iff in H. tauto.
Qed.

(** X16: the locality [search_yp] and [search_ddg] ask for.  An address
    without a comma gives the default.  Otherwise the locality is the
    default or the stripped text of a segment of the address that has no
    comma and is followed by a comma, white space and "on" in any case; so
    the locality has no comma and no white space around it when the
    default has none. *)
Theorem locality_read (address default : str) :
  (comma_free address = true -> locality address default = default)
  /\ (locality address default = default
      \/ exists before seg ws w rest,
           address = before ++ seg ++ lit "," ++ ws ++ w ++ rest
           /\ seg <> [] /\ comma_free seg = true
           /\ forallb is_space ws = true /\ lower w = lit "on"
           /\ locality address default = strip seg)
  /\ (comma_free default = true -> comma_free (locality address default) = true)
  /\ (stripped default = true -> stripped (locality address default) = true).
Proof.
  assert (S : locality address default = default
              \/ exists before seg ws w rest,
                   address = before ++ seg ++ lit "," ++ ws ++ w ++ rest
                   /\ seg <> [] /\ comma_free seg = true
                   /\ forallb is_space ws = true /\ lower w = lit "on"
                   /\ locality address default = strip seg).
  { unfold locality. destruct (search true re_locality address) as [f|] eqn:E;
      [|now left].
    right. apply search_sound in E as (before & s' & -> & M).
    apply re_locality_match in M as (seg & ws & w & rest & -> & N & C & W & O & G).
    exists before, seg, ws, w, rest. rewrite G. now repeat split. }
  split; [|split; [exact S|split]].
  - intros C. destruct S as [S | (before & seg & ws & w & rest & E & _)];
      [exact S|].
    rewrite E in C. rewrite !comma_free_app in C.
    change (comma_free (lit ",")) with false in C.
    rewrite !andb_false_r, ?andb_false_l in C. discriminate C.
  - intros D. destruct S as [-> | (before & seg & ws & w & rest & _ & _ & C & _ & _ & ->)];
      [exact D | now apply comma_free_strip].
  - intros D. destruct S as [-> | (before & seg & ws & w & rest & _ & _ & C & _ & _ & ->)];
      [exact D | apply strip_stripped].
Qed.

Lemma locality_read_witness :
  locality (lit "12 Oak Ave Timmins") (lit "ON") = lit "ON"
  /\ comma_free (locality (lit "12 Oak Ave, Timmins , on") (lit "ON")) = true
  /\ locality (lit "12 Oak Ave, Timmins , on") (lit "ON") = lit "Timmins".
Proof.
  split; [|split].
  - apply (proj1 (locality_read (lit "12 Oak Ave Timmins") (lit "ON"))). reflexivity.
  - apply (proj1 (proj2 (proj2 (locality_read (lit "12 Oak Ave, Timmins , on")
                                              (lit "ON"))))).
    reflexivity.
  - reflexivity.
Defined.
